(** * llama: the invoke command and the daemon bootstrap

    A shallow embedding of [cmd/llama/invoke.go] and [daemon/server.go].
    Calls that leave the program (the operating system, the blob store, the
    remote backend, the logger) are performed through a handler: the
    programs below are written once, and every statement about them
    quantifies over the handler, that is over every behaviour of the
    outside world. *)

From Stdlib Require Import ZArith NArith String Ascii List Lia.
From Stdlib Require Import DecimalString.
From Stdlib Require DecimalZ.
From stdpp Require Import base option list gmap strings.

Local Open Scope string_scope.
Local Open Scope Z_scope.
Local Open Scope list_scope.

(** ** The parts of the Go standard library the two files rely on *)

Module Go.

Definition bytes : Type := list Byte.byte.

(** [syscall.Errno], restricted to the values named below. *)
Inductive errno : Type :=
| EADDRINUSE
| ECONNREFUSED
| ENOENT
| EACCES.

(** Values of the interface type [error].  [errorString] is what
    [errors.New] makes, and stands for any error without structure;
    [OpError] is an error of the operating system or of the network that
    wraps its cause.  [Errorf] keeps the format string and the string
    arguments of a [fmt.Errorf] call as written in the source; [ErrorfW] is
    a call whose format ends with the verb [%w], whose argument is what
    [Unwrap] returns.  [ErrorReturn] is [*llama.ErrorReturn], the error of
    the backend that may carry the logs of the invocation. *)
Inductive error : Type :=
| errorString (s : string)
| Errno (e : errno)
| OpError (op : string) (inner : error)
| Errorf (format : string) (args : list string)
| ErrorfW (format : string) (args : list string) (wrapped : error)
| ErrorReturn (msg : string) (Logs : option bytes).

(** An argument of a formatting call of the logger. *)
Inductive fmtarg : Type :=
| Fstr (s : string)
| Ferr (e : error).

Definition errno_eqb (a b : errno) : bool :=
  match a, b with
  | EADDRINUSE, EADDRINUSE => true
  | ECONNREFUSED, ECONNREFUSED => true
  | ENOENT, ENOENT => true
  | EACCES, EACCES => true
  | _, _ => false
  end.

(** [errors.Is(err, target)] for a target of type [syscall.Errno]: the
    chain of [Unwrap] is followed until an [Errno] is met. *)
Fixpoint errors_Is (err : error) (target : errno) : bool :=
  match err with
  | errorString _ => false
  | Errno e => errno_eqb e target
  | OpError _ inner => errors_Is inner target
  | Errorf _ _ => false
  | ErrorfW _ _ inner => errors_Is inner target
  | ErrorReturn _ _ => false
  end.

(** A value returned next to an [error]. *)
Inductive result (A : Type) : Type :=
| Ok (a : A)
| Err (e : error).
Arguments Ok {A} a.
Arguments Err {A} e.

(** [len(s)] of a string, in bytes. *)
Definition len (s : string) : Z := Z.of_nat (String.length s).

(** [s[:n]] and [s[n:]]. *)
Fixpoint take_bytes (n : nat) (s : string) : string :=
  match n, s with
  | O, _ => EmptyString
  | S _, EmptyString => EmptyString
  | S n', String a s' => String a (take_bytes n' s')
  end.

Fixpoint drop_bytes (n : nat) (s : string) : string :=
  match n, s with
  | O, _ => s
  | S _, EmptyString => EmptyString
  | S n', String _ s' => drop_bytes n' s'
  end.

Definition slice_to (s : string) (n : Z) : string := take_bytes (Z.to_nat n) s.
Definition slice_from (s : string) (n : Z) : string := drop_bytes (Z.to_nat n) s.

(** [strings.IndexByte]: the index of the first [c] in [s], or -1. *)
Fixpoint IndexByte_from (i : Z) (s : string) (c : ascii) : Z :=
  match s with
  | EmptyString => -1
  | String a s' => if Ascii.eqb a c then i else IndexByte_from (i + 1) s' c
  end.

Definition strings_IndexByte (s : string) (c : ascii) : Z := IndexByte_from 0 s c.

(** [strings.Index(s, "@")] and [strings.IndexRune(s, ':')]: for a
    one-byte substring or an ASCII rune both are [strings.IndexByte]. *)
Definition strings_Index1 (s : string) (c : ascii) : Z := strings_IndexByte s c.
Definition strings_IndexRune (s : string) (c : ascii) : Z := strings_IndexByte s c.

(** [strings.LastIndexByte]: the index of the last [c] in [s], or -1. *)
Fixpoint LastIndexByte_from (i : Z) (s : string) (c : ascii) : Z :=
  match s with
  | EmptyString => -1
  | String a s' =>
      let r := LastIndexByte_from (i + 1) s' c in
      if 0 <=? r then r else if Ascii.eqb a c then i else -1
  end.

Definition strings_LastIndexByte (s : string) (c : ascii) : Z :=
  LastIndexByte_from 0 s c.

(** The loop of [path.Base] that strips trailing slashes. *)
Fixpoint strip_trailing_slashes (s : string) : string :=
  match s with
  | EmptyString => EmptyString
  | String a s' =>
      match strip_trailing_slashes s' with
      | EmptyString => if Ascii.eqb a "/" then EmptyString else String a EmptyString
      | t => String a t
      end
  end.

(** [path.Base]. *)
Definition path_Base (path : string) : string :=
  if String.eqb path "" then "."
  else
    let path := strip_trailing_slashes path in
    let i := strings_LastIndexByte path "/" in
    let path := if 0 <=? i then slice_from path (i + 1) else path in
    if String.eqb path "" then "/" else path.

(** [path.IsAbs]. *)
Definition path_IsAbs (path : string) : bool :=
  match path with
  | String a _ => Ascii.eqb a "/"
  | EmptyString => false
  end.

(** The verb [%d] of [fmt]. *)
Definition format_d (n : Z) : string := NilZero.string_of_int (Z.to_int n).

(** The mode of a file that is created with the permission argument
    [perm] by a process whose file mode creation mask is [umask]. *)
Definition created_mode (perm umask : Z) : Z := Z.land perm (Z.lnot umask).

End Go.

(** ** Programs that call the outside world

    A program returns, or ends the process ([os.Exit], as [log.Fatal]
    does), or panics.  [Call] names the calls a program can make and
    [Resp c] is the type of what call [c] gives back; a handler answers
    each call from the current state of the world.  Running a program
    gives its outcome, the final world and the calls made, each with its
    answer, in order. *)

Module Effects.

Inductive Outcome (R : Type) : Type :=
| Returned (r : R)
| Exited (code : Z)
| Panicked (msg : string).
Arguments Returned {R} r.
Arguments Exited {R} code.
Arguments Panicked {R} msg.

Section Monad.
Context {Call : Type} {Resp : Call -> Type} {W : Type}.

Inductive Event : Type :=
| Ev (c : Call) (r : Resp c).

Definition Handler : Type := forall c : Call, W -> Resp c * W.

Definition M (R : Type) : Type :=
  Handler -> W -> Outcome R * W * list Event.

Definition ret {R : Type} (r : R) : M R :=
  fun _ w => (Returned r, w, []).

Definition bind {A B : Type} (m : M A) (k : A -> M B) : M B :=
  fun h w =>
    match m h w with
    | (Returned a, w1, t1) =>
        match k a h w1 with
        | (o, w2, t2) => (o, w2, t1 ++ t2)
        end
    | (Exited code, w1, t1) => (Exited code, w1, t1)
    | (Panicked msg, w1, t1) => (Panicked msg, w1, t1)
    end.

Definition call (c : Call) : M (Resp c) :=
  fun h w =>
    match h c w with
    | (r, w1) => (Returned r, w1, [Ev c r])
    end.

Definition os_Exit {R : Type} (code : Z) : M R :=
  fun _ w => (Exited code, w, []).

Definition panic {R : Type} (msg : string) : M R :=
  fun _ w => (Panicked msg, w, []).

Definition run {R : Type} (m : M R) (h : Handler) (w : W) :
  Outcome R * W * list Event := m h w.

Definition outcome {R : Type} (x : Outcome R * W * list Event) : Outcome R :=
  fst (fst x).
Definition world {R : Type} (x : Outcome R * W * list Event) : W :=
  snd (fst x).
Definition trace {R : Type} (x : Outcome R * W * list Event) : list Event :=
  snd x.

(** The calls of a trace, without their answers. *)
Definition call_of (ev : Event) : Call :=
  match ev with Ev c _ => c end.
Definition calls (t : list Event) : list Call := map call_of t.

End Monad.

Arguments Event : clear implicits.
Arguments Handler : clear implicits.
Arguments M : clear implicits.

#[global] Instance M_ret {Call Resp W} : MRet (M Call Resp W) := @ret Call Resp W.
#[global] Instance M_bind {Call Resp W} : MBind (M Call Resp W) :=
  fun A B k m => bind m k.

End Effects.

(** ** cmd/llama/invoke.go *)

Module Invoke.
Import Go Effects.

Definition FileMode : Type := N.
Definition RawMessage : Type := bytes.
Definition ExitStatus : Type := Z.

(** [subcommands.ExitSuccess] and [subcommands.ExitFailure]. *)
Definition ExitSuccess : ExitStatus := 0.
Definition ExitFailure : ExitStatus := 1.

(** Modelled from the spec: [protocol.Blob], whose declaration is in the
    package [protocol]; a reference to bytes held in the store, made of a
    content address and a size. *)
Record Blob : Type := { Blob_address : string; Blob_size : N }.

(** Modelled from the spec: [protocol.File], declared in the package
    [protocol]; a blob and a file mode, as built at line 80. *)
Record File : Type := { File_Blob : Blob; File_Mode : FileMode }.

(** Modelled from the spec: [protocol.Arg], declared in the package
    [protocol], with the two fields the source assigns: [a.In], a [*Blob],
    and [a.Out], a [*string]; [None] is the nil pointer. *)
Record Arg : Type := { ArgIn : option Blob; ArgOut : option string }.

(** The value of [argSpec], of type [interface{}], at line 231: either a
    string or a [protocol.Arg]. *)
Inductive ArgSpec : Type :=
| ArgString (s : string)
| ArgStruct (a : Arg).

(** A map of Go is nil ([None]) or holds a finite map. *)
Definition OutputMap : Type := option (gmap string string).

(** Modelled from the spec: [protocol.InvocationSpec], declared in the
    package [protocol], with the three fields [Execute] assigns. *)
Record InvocationSpec : Type := {
  Stdin : option Blob;
  Files : option (gmap string File);
  Args : list RawMessage
}.

(** Modelled from the spec: [protocol.InvocationResponse], declared in the
    package [protocol], with the four fields [Execute] and [fetchOutputs]
    read.  [Outputs] lists the entries of the map in the order in which
    [range] visits them, which Go leaves open. *)
Record InvocationResponse : Type := {
  ExitStatus_ : Z;
  Stdout : option Blob;
  Stderr : option Blob;
  Outputs : list (string * Blob)
}.

(** Modelled from the spec: [llama.InvokeArgs], declared in the package
    [llama], as built at lines 146-150. *)
Record InvokeArgs : Type := {
  Function : string;
  Spec : InvocationSpec;
  ReturnLogs : bool
}.

(** Modelled from the spec: what [llama.Invoke], of the package [llama],
    returns on success, with the two fields [Execute] reads. *)
Record InvokeResult : Type := {
  Response : InvocationResponse;
  Logs : option bytes
}.

Record inputFile : Type := { source : string; dest : string }.

(** [fileList]; the nil slice is the empty list. *)
Record fileList : Type := { files : list inputFile }.

(** [InvokeCommand]; its field [files] is [cmd_files] here, the name
    [files] being the field of [fileList]. *)
Record InvokeCommand : Type := {
  stdin : bool;
  logs : bool;
  cmd_files : fileList
}.

(** The calls of [invoke.go] that leave the program. *)
Inductive Call : Type :=
| ioutil_ReadAll_Stdin
| ioutil_ReadFile (filename : string)
| os_Stat (name : string)
| protocol_NewBlob (data : bytes)
| Blob_Read (b : Blob)
| ioutil_WriteFile (filename : string) (data : bytes) (perm : Z)
| llama_Invoke (args : InvokeArgs)
| log_Printf (format : string) (args : list fmtarg)
| log_Println (args : list fmtarg)
| log_Print (args : list fmtarg)
| Stderr_Fprintf (format : string) (arg : bytes)
| Stderr_Write (b : bytes)
| Stdout_Write (b : bytes).

Definition Resp (c : Call) : Type :=
  match c with
  | ioutil_ReadAll_Stdin => result bytes
  | ioutil_ReadFile _ => result bytes
  | os_Stat _ => result FileMode
  | protocol_NewBlob _ => result Blob
  | Blob_Read _ => result bytes
  | ioutil_WriteFile _ _ _ => option error
  | llama_Invoke _ => result InvokeResult
  | log_Printf _ _ => unit
  | log_Println _ => unit
  | log_Print _ => unit
  | Stderr_Fprintf _ _ => unit
  | Stderr_Write _ => unit
  | Stdout_Write _ => unit
  end.

(** The permission bits 0644 of line 252, in octal in the source. *)
Definition perm_0644 : Z := 6 * 8 ^ 2 + 4 * 8 + 4.

(** [fmt.Sprintf("%d-%s", n, name)]. *)
Definition Sprintf_d_s (n : Z) (name : string) : string :=
  format_d n +:+ "-" +:+ name.

(** [fileList.Set] (lines 40-55); the receiver is passed and returned. *)
Definition fileList_Set (f : fileList) (v : string) : fileList * option error :=
  let idx := strings_IndexRune v ":" in
  let '(source, dest) :=
    if 0 <? idx then (slice_to v idx, slice_from v (idx + 1)) else (v, v) in
  if path_IsAbs dest then
    (f, Some (Errorf "-file: cannot expose file at absolute path: %q" [dest]))
  else
    ({| files := files f ++ [ {| source := source; dest := dest |} ] |}, None).

(** Output registration (lines 212-224), on the map [*outputs] and the
    [protocol.Arg] under construction. *)
Definition registerOutput (outputs : OutputMap) (a : Arg) (arg : string) :
  OutputMap * Arg :=
  let name := path_Base arg in
  let name :=
    match outputs with
    | Some m =>
        match m !! name with
        | Some _ => Sprintf_d_s (Z.of_nat (size m)) name
        | None => name
        end
    | None => name
    end in
  let a := {| ArgIn := ArgIn a; ArgOut := Some name |} in
  let m := match outputs with Some m => m | None => ∅ end in
  (Some (<[name := arg]> m), a).

Section Programs.
Context {W : Type}.

(** [json.Marshal] on the values of [argSpec]. *)
Variable json_Marshal : ArgSpec -> result RawMessage.

Abbreviation prog := (M Call Resp W).

(** [log.Fatal] and [log.Fatalf]: the message, then [os.Exit(1)]. *)
Definition log_Fatal {R : Type} (args : list fmtarg) : prog R :=
  call (log_Print args);; os_Exit 1.

Definition log_Fatalf {R : Type} (format : string) (args : list fmtarg) : prog R :=
  call (log_Printf format args);; os_Exit 1.

(** The loop of [fileList.Prepare] (lines 64-81); an error ends it. *)
Fixpoint Prepare_loop (fs : list inputFile) (acc : gmap string File) :
  prog (result (gmap string File)) :=
  match fs with
  | [] => mret (Ok acc)
  | file :: rest =>
      r ← call (ioutil_ReadFile (source file));
      match r with
      | Err err => mret (Err (ErrorfW "reading file %q: %w" [source file] err))
      | Ok data =>
          st ← call (os_Stat (source file));
          match st with
          | Err err => mret (Err (ErrorfW "stat %q: %w" [source file] err))
          | Ok mode =>
              b ← call (protocol_NewBlob data);
              match b with
              | Err err => mret (Err err)
              | Ok blob =>
                  Prepare_loop rest
                    (<[dest file := {| File_Blob := blob; File_Mode := mode |}]> acc)
              end
          end
      end
  end.

(** [fileList.Prepare] (lines 57-87). *)
Definition fileList_Prepare (f : fileList) :
  prog (result (option (gmap string File))) :=
  match files f with
  | [] => mret (Ok None)
  | fs =>
      r ← Prepare_loop fs ∅;
      match r with
      | Err outErr => mret (Err outErr)
      | Ok m => mret (Ok (Some m))
      end
  end.

(** [parseArg] up to line 230: the value of [argSpec] or the error
    returned, with the map [*outputs] as it is left. *)
Definition parseArgSpec (outputs : OutputMap) (arg : string) :
  prog (OutputMap * result ArgSpec) :=
  let idx := strings_Index1 arg "@" in
  if 0 <? idx then
    let pfx := slice_to arg idx in
    let arg := slice_from arg (idx + 1) in
    if String.eqb pfx "i" || String.eqb pfx "io" then
      r ← call (ioutil_ReadFile arg);
      match r with
      | Err err => mret (outputs, Err (ErrorfW "Reading file: %q: %w" [arg] err))
      | Ok data =>
          b ← call (protocol_NewBlob data);
          match b with
          | Err err =>
              mret (outputs, Err (ErrorfW "Writing to store: %q: %w" [arg] err))
          | Ok blob =>
              let a := {| ArgIn := Some blob; ArgOut := None |} in
              if String.eqb pfx "i" then mret (outputs, Ok (ArgStruct a))
              else
                let '(outputs, a) := registerOutput outputs a arg in
                mret (outputs, Ok (ArgStruct a))
          end
      end
    else if String.eqb pfx "o" then
      let '(outputs, a) :=
        registerOutput outputs {| ArgIn := None; ArgOut := None |} arg in
      mret (outputs, Ok (ArgStruct a))
    else if String.eqb pfx "raw" then mret (outputs, Ok (ArgString arg))
    else mret (outputs, Err (Errorf "Unrecognize argspec: %s@..." [pfx]))
  else mret (outputs, Ok (ArgString arg)).

(** [parseArg] (lines 186-236). *)
Definition parseArg (outputs : OutputMap) (arg : string) :
  prog (OutputMap * result RawMessage) :=
  '(outputs, r) ← parseArgSpec outputs arg;
  match r with
  | Err err => mret (outputs, Err err)
  | Ok argSpec =>
      match json_Marshal argSpec with
      | Err err => log_Fatal [Fstr "marshal: "; Ferr err]
      | Ok word => mret (outputs, Ok word)
      end
  end.

(** The loop of [prepareArgs] (lines 262-268). *)
Fixpoint prepareArgs_loop (i : nat) (args : list string)
  (out : list RawMessage) (outputs : OutputMap) :
  prog (result (list RawMessage * OutputMap)) :=
  match args with
  | [] => mret (Ok (out, outputs))
  | arg :: rest =>
      '(outputs, r) ← parseArg outputs arg;
      match r with
      | Err err => mret (Err err)
      | Ok word => prepareArgs_loop (S i) rest (<[i := word]> out) outputs
      end
  end.

(** [prepareArgs] (lines 259-270). *)
Definition prepareArgs (args : list string) :
  prog (result (list RawMessage * OutputMap)) :=
  prepareArgs_loop 0 args (replicate (length args) []) None.

(** [outputs[key]] on a map that may be nil. *)
Definition lookup_output (outputs : OutputMap) (key : string) : option string :=
  match outputs with
  | Some m => m !! key
  | None => None
  end.

(** The body of the loop of [fetchOutputs] (lines 242-254); [continue]
    ends the body. *)
Definition fetchOutputs_body (outputs : OutputMap) (key : string) (blob : Blob) :
  prog unit :=
  match lookup_output outputs key with
  | None => call (log_Printf "Unexpected output: %q" [Fstr key])
  | Some file =>
      r ← call (Blob_Read blob);
      match r with
      | Err err => call (log_Printf "reading output %q: %s" [Fstr key; Ferr err])
      | Ok data =>
          e ← call (ioutil_WriteFile file data perm_0644);
          match e with
          | Some err =>
              call (log_Printf "reading output %q: %s" [Fstr file; Ferr err])
          | None => mret tt
          end
      end
  end.

(** The loop of [fetchOutputs] (lines 241-255). *)
Fixpoint fetchOutputs_loop (outputs : OutputMap) (entries : list (string * Blob)) :
  prog unit :=
  match entries with
  | [] => mret tt
  | (key, blob) :: rest =>
      fetchOutputs_body outputs key blob;;
      fetchOutputs_loop outputs rest
  end.

(** [fetchOutputs] (lines 238-257). *)
Definition fetchOutputs (outputs : OutputMap) (resp : InvocationResponse) :
  prog unit :=
  fetchOutputs_loop outputs (Outputs resp).

(** The banner around invocation logs (lines 154 and 161). *)
Definition logs_banner : string :=
  "==== invocation logs ====\n%s\n==== end logs ====\n".

(** Lines 114-125 of [Execute]: [inr] is the exit status returned early,
    [inl] the value of [spec.Stdin]. *)
Definition Execute_stdin (c : InvokeCommand) : prog (option Blob + ExitStatus) :=
  if stdin c then
    r ← call ioutil_ReadAll_Stdin;
    match r with
    | Err err =>
        call (log_Printf "reading stdin: %s" [Ferr err]);;
        mret (inr ExitFailure)
    | Ok data =>
        b ← call (protocol_NewBlob data);
        match b with
        | Err err =>
            call (log_Printf "writing to store: %s" [Ferr err]);;
            mret (inr ExitFailure)
        | Ok blob => mret (inl (Some blob))
        end
    end
  else mret (inl None).

(** Lines 127-134 of [Execute]: [inl] is the value of [spec.Files]. *)
Definition Execute_files (c : InvokeCommand) :
  prog (option (gmap string File) + ExitStatus) :=
  if 0 <? Z.of_nat (length (files (cmd_files c))) then
    r ← fileList_Prepare (cmd_files c);
    match r with
    | Err err =>
        call (log_Println [Ferr err]);;
        mret (inr ExitFailure)
    | Ok fs => mret (inl fs)
    end
  else mret (inl None).

(** Lines 166-181 of [Execute]: a stream of the response is read from the
    store and copied to the stream of the process; a failure is logged. *)
Definition copy_stream (b : option Blob) (what : string)
  (write : bytes -> Call) : prog unit :=
  match b with
  | Some blob =>
      r ← call (Blob_Read blob);
      match r with
      | Err err => call (log_Printf what [Ferr err]);; mret tt
      | Ok data => call (write data);; mret tt
      end
  | None => mret tt
  end.

(** Lines 160-183 of [Execute], once [llama.Invoke] has returned without
    error. *)
Definition Execute_reconcile (outputs : OutputMap) (response : InvokeResult) :
  prog ExitStatus :=
  match Logs response with
  | Some l => call (Stderr_Fprintf logs_banner l)
  | None => mret tt
  end;;
  fetchOutputs outputs (Response response);;
  copy_stream (Stderr (Response response)) "Reading stderr: %s" Stderr_Write;;
  copy_stream (Stdout (Response response)) "Reading stdout: %s" Stdout_Write;;
  mret (ExitStatus_ (Response response)).

(** Lines 145-183 of [Execute], once the arguments are prepared. *)
Definition Execute_dispatch (c : InvokeCommand) (function : string)
  (spec : InvocationSpec) (outputs : OutputMap) : prog ExitStatus :=
  r ← call (llama_Invoke
              {| Function := function; Spec := spec; ReturnLogs := logs c |});
  match r with
  | Err err =>
      match err with
      | ErrorReturn _ (Some ir_Logs) => call (Stderr_Fprintf logs_banner ir_Logs)
      | _ => mret tt
      end;;
      log_Fatalf "invoke: %s" [Ferr err]
  | Ok response => Execute_reconcile outputs response
  end.

(** [InvokeCommand.Execute] (lines 109-184).  [flag_Args] is the value of
    [flag.Args()]; the slice expression [flag.Args()[1:]] of line 138
    panics on the empty slice.  [cli.MustState], [lambda.New] and
    [trace.WithRegion] make no call of their own. *)
Definition Execute (c : InvokeCommand) (flag_Args : list string) : prog ExitStatus :=
  s ← Execute_stdin c;
  match s with
  | inr status => mret status
  | inl spec_Stdin =>
      f ← Execute_files c;
      match f with
      | inr status => mret status
      | inl spec_Files =>
          match flag_Args with
          | [] => panic "runtime error: slice bounds out of range [1:0]"
          | function :: args =>
              r ← prepareArgs args;
              match r with
              | Err err =>
                  call (log_Println [Fstr "preparing arguments: "; Ferr err]);;
                  mret ExitFailure
              | Ok (spec_Args, outputs) =>
                  Execute_dispatch c function
                    {| Stdin := spec_Stdin; Files := spec_Files; Args := spec_Args |}
                    outputs
              end
          end
      end
  end.

End Programs.
End Invoke.

(** ** daemon/server.go *)

Module Daemon.
Import Go Effects.

(** The environment of the process: its variables and its user id. *)
Record Environ : Type := {
  environ : gmap string string;
  uid : Z
}.

(** [os.Getenv]: the empty string when the variable is not set. *)
Definition os_Getenv (env : Environ) (key : string) : string :=
  match environ env !! key with
  | Some v => v
  | None => ""
  end.

Definition os_Getuid (env : Environ) : Z := uid env.

(** Handles of the operating system and of [net/rpc]. *)
Definition Listener : Type := nat.
Definition rpc_Client : Type := nat.

(** Modelled from the spec: [Client], declared in another file of the
    package [daemon]; it wraps the connection, as built at line 71. *)
Record Client : Type := { conn : rpc_Client }.

(** [ErrAlreadyRunning] (line 25). *)
Definition ErrAlreadyRunning : error := errorString "daemon already running".

(** The calls of [server.go] that leave the program.  [ctx_Done] is the
    receive [<-ctx.Done()], which gives control back once the context is
    cancelled; [go_Serve] starts the goroutine of lines 58-60.
    [httpSrv_Shutdown] is [httpSrv.Shutdown(ctx)] of line 62, on the one
    context of [Start], the same as in [ctx_Done]; the source drops what
    it returns, so the call has no answer. *)
Inductive Call : Type :=
| os_MkdirAll (path : string) (perm : Z)
| net_Listen (network address : string)
| rpc_DialHTTP (network address : string)
| Client_Ping (client : Client)
| os_Remove (name : string)
| rpcSrv_Register
| go_Serve (listener : Listener)
| ctx_Done
| httpSrv_Shutdown.

Definition Resp (c : Call) : Type :=
  match c with
  | os_MkdirAll _ _ => option error
  | net_Listen _ _ => result Listener
  | rpc_DialHTTP _ _ => result rpc_Client
  | Client_Ping _ => option error
  | os_Remove _ => option error
  | rpcSrv_Register => unit
  | go_Serve _ => unit
  | ctx_Done => unit
  | httpSrv_Shutdown => unit
  end.

(** The permission bits 0700 of line 29, in octal in the source. *)
Definition perm_0700 : Z := 7 * 8 ^ 2.

Section Programs.
Context {W : Type}.

(** [path.Join] and [path.Dir] of the standard library. *)
Variable path_Join : list string -> string.
Variable path_Dir : string -> string.

Abbreviation prog := (M Call Resp W).

(** [SocketPath] (lines 15-23). *)
Definition SocketPath (env : Environ) : string :=
  let sock := os_Getenv env "LLAMA_SOCKET" in
  if negb (String.eqb sock "") then sock
  else
    let home := os_Getenv env "HOME" in
    if negb (String.eqb home "") then path_Join [home; ".llama"; "llama.sock"]
    else "/run/llama-" +:+ format_d (os_Getuid env) +:+ "/llama.sock".

(** [Dial] (lines 66-72). *)
Definition Dial (env : Environ) : prog (result Client) :=
  r ← call (rpc_DialHTTP "unix" (SocketPath env));
  match r with
  | Err err => mret (Err err)
  | Ok c => mret (Ok {| conn := c |})
  end.

(** Lines 32-50 of [Start]: [inr] is the error returned from inside the
    block, [inl] the values of [listener] and [err] at line 51. *)
Definition Start_bind (env : Environ) (sockPath : string) :
  prog (result Listener + error) :=
  l ← call (net_Listen "unix" sockPath);
  match l with
  | Ok listener => mret (inl (Ok listener))
  | Err err =>
      if errors_Is err EADDRINUSE then
        d ← Dial env;
        match d with
        | Ok client =>
            p ← call (Client_Ping client);
            match p with
            | None => mret (inr ErrAlreadyRunning)
            | Some err => mret (inr err)
            end
        | Err _ =>
            rm ← call (os_Remove sockPath);
            match rm with
            | Some err => mret (inr err)
            | None =>
                l2 ← call (net_Listen "unix" sockPath);
                mret (inl l2)
            end
        end
      else mret (inl (Err err))
  end.

(** [Start] (lines 27-64); [None] is the nil error. *)
Definition Start (env : Environ) : prog (option error) :=
  let sockPath := SocketPath env in
  e ← call (os_MkdirAll (path_Dir sockPath) perm_0700);
  match e with
  | Some err => mret (Some err)
  | None =>
      b ← Start_bind env sockPath;
      match b with
      | inr err => mret (Some err)
      | inl (Err err) => mret (Some err)
      | inl (Ok listener) =>
          call rpcSrv_Register;;
          call (go_Serve listener);;
          call ctx_Done;;
          call httpSrv_Shutdown;;
          mret None
      end
  end.

End Programs.
End Daemon.

(** ** Worlds used in examples *)

Module Samples.
Import Go Effects.

(** An encoding in the place of [json.Marshal]: the string itself, or
    the output name of a [protocol.Arg]. *)
Definition marshal (spec : Invoke.ArgSpec) : result Invoke.RawMessage :=
  Ok (list_byte_of_string
        match spec with
        | Invoke.ArgString s => s
        | Invoke.ArgStruct a =>
            match Invoke.ArgOut a with
            | Some name => name
            | None => ""
            end
        end).

Definition blob0 : Invoke.Blob :=
  {| Invoke.Blob_address := "2cf24dba"; Invoke.Blob_size := 5 |}.

(** The response of the backend in [invoke_world]: exit status 3, the
    output [out.txt] and an output [stray] that nobody asked for. *)
Definition response0 : Invoke.InvokeResult :=
  {| Invoke.Response :=
       {| Invoke.ExitStatus_ := 3;
          Invoke.Stdout := None;
          Invoke.Stderr := None;
          Invoke.Outputs := [("out.txt", blob0); ("stray", blob0)] |};
     Invoke.Logs := None |}.

(** A world for [invoke.go]: the only file that can be read is [in.txt];
    the store, the backend and the writes succeed. *)
Definition invoke_world : Handler Invoke.Call Invoke.Resp unit :=
  fun c w =>
    match c return Invoke.Resp c * unit with
    | Invoke.ioutil_ReadAll_Stdin => (Ok [], w)
    | Invoke.ioutil_ReadFile filename =>
        if String.eqb filename "in.txt" then (Ok (list_byte_of_string "hello"), w)
        else (Err (OpError "open" (Errno ENOENT)), w)
    | Invoke.os_Stat _ => (Ok 420%N, w)
    | Invoke.protocol_NewBlob _ => (Ok blob0, w)
    | Invoke.Blob_Read _ => (Ok (list_byte_of_string "hello"), w)
    | Invoke.ioutil_WriteFile _ _ _ => (None, w)
    | Invoke.llama_Invoke _ => (Ok response0, w)
    | Invoke.log_Printf _ _ => (tt, w)
    | Invoke.log_Println _ => (tt, w)
    | Invoke.log_Print _ => (tt, w)
    | Invoke.Stderr_Fprintf _ _ => (tt, w)
    | Invoke.Stderr_Write _ => (tt, w)
    | Invoke.Stdout_Write _ => (tt, w)
    end.

(** A disk: the mode and the content of the file at each path. *)
Definition Disk : Type := gmap string (Z * bytes).

Definition disk_mode (d : Disk) (path : string) : option Z := fst <$> d !! path.

(** A world for [fetchOutputs] with a disk.  [ioutil.WriteFile] does what
    its documentation says: a file that does not exist is created with
    the permission argument, less the bits of [umask]; a file that exists
    is truncated and written, and keeps its mode.  The store returns the
    bytes [hello] for every blob. *)
Definition disk_world (umask : Z) : Handler Invoke.Call Invoke.Resp Disk :=
  fun c w =>
    match c return Invoke.Resp c * Disk with
    | Invoke.ioutil_ReadAll_Stdin => (Ok [], w)
    | Invoke.ioutil_ReadFile filename =>
        match w !! filename with
        | Some (_, data) => (Ok data, w)
        | None => (Err (OpError "open" (Errno ENOENT)), w)
        end
    | Invoke.os_Stat name =>
        match w !! name with
        | Some (mode, _) => (Ok (Z.to_N mode), w)
        | None => (Err (OpError "stat" (Errno ENOENT)), w)
        end
    | Invoke.protocol_NewBlob _ => (Ok blob0, w)
    | Invoke.Blob_Read _ => (Ok (list_byte_of_string "hello"), w)
    | Invoke.ioutil_WriteFile filename data perm =>
        let mode :=
          match w !! filename with
          | Some (prior, _) => prior
          | None => created_mode perm umask
          end in
        (None, <[filename := (mode, data)]> w)
    | Invoke.llama_Invoke _ => (Ok response0, w)
    | Invoke.log_Printf _ _ => (tt, w)
    | Invoke.log_Println _ => (tt, w)
    | Invoke.log_Print _ => (tt, w)
    | Invoke.Stderr_Fprintf _ _ => (tt, w)
    | Invoke.Stderr_Write _ => (tt, w)
    | Invoke.Stdout_Write _ => (tt, w)
    end.

(** The modes 0600 and 0022, in octal. *)
Definition mode_0600 : Z := 6 * 8 ^ 2.
Definition umask_0022 : Z := 2 * 8 + 2.

(** A disk on which [out.txt] is there already, readable and writable by
    its owner only. *)
Definition disk0 : Disk := {[ "out.txt" := (mode_0600, list_byte_of_string "old") ]}.

Definition command0 : Invoke.InvokeCommand :=
  {| Invoke.stdin := false;
     Invoke.logs := false;
     Invoke.cmd_files := {| Invoke.files := [] |} |}.

(** What is behind the endpoint of the daemon: nobody, a daemon that
    answers the ping, or a process that accepts the connection and fails
    the ping. *)
Inductive Peer : Type :=
| Nobody
| Healthy
| Broken.

(** A world for [server.go]: whether the endpoint file exists, and the
    peer behind it. *)
Record Socket : Type := { sock_file : bool; peer : Peer }.

Definition socket_world : Handler Daemon.Call Daemon.Resp Socket :=
  fun c w =>
    match c return Daemon.Resp c * Socket with
    | Daemon.os_MkdirAll _ _ => (None, w)
    | Daemon.net_Listen _ _ =>
        if sock_file w then (Err (OpError "listen" (Errno EADDRINUSE)), w)
        else (Ok 3%nat, {| sock_file := true; peer := Healthy |})
    | Daemon.rpc_DialHTTP _ _ =>
        match peer w with
        | Nobody => (Err (OpError "dial" (Errno ECONNREFUSED)), w)
        | _ => (Ok 7%nat, w)
        end
    | Daemon.Client_Ping _ =>
        match peer w with
        | Healthy => (None, w)
        | _ => (Some (errorString "unexpected EOF"), w)
        end
    | Daemon.os_Remove _ => (None, {| sock_file := false; peer := peer w |})
    | Daemon.rpcSrv_Register => (tt, w)
    | Daemon.go_Serve _ => (tt, w)
    | Daemon.ctx_Done => (tt, w)
    | Daemon.httpSrv_Shutdown => (tt, w)
    end.

(** The server of [net/http] that [Start] runs: whether it accepts
    connections, the requests it is serving, whether the context of
    [Start] is cancelled, and what the last [Shutdown] returned, which
    [Start] drops. *)
Record Server : Type := {
  accepting : bool;
  in_flight : nat;
  ctx_cancelled : bool;
  shutdown_error : option error
}.

(** A world for [Start] on a free endpoint.  While [Start] waits for the
    cancellation, [arriving] requests are accepted, and they are still
    being served when the context is cancelled.  [Shutdown] does what the
    documentation of [net/http] says: it closes the listener and waits for
    the active connections; when the context it is given is done before
    they are, it returns the error of the context and leaves them as they
    are. *)
Definition http_world (arriving : nat) : Handler Daemon.Call Daemon.Resp Server :=
  fun c w =>
    match c return Daemon.Resp c * Server with
    | Daemon.os_MkdirAll _ _ => (None, w)
    | Daemon.net_Listen _ _ => (Ok 3%nat, w)
    | Daemon.rpc_DialHTTP _ _ => (Err (OpError "dial" (Errno ECONNREFUSED)), w)
    | Daemon.Client_Ping _ => (None, w)
    | Daemon.os_Remove _ => (None, w)
    | Daemon.rpcSrv_Register => (tt, w)
    | Daemon.go_Serve _ =>
        (tt, {| accepting := true; in_flight := in_flight w;
                ctx_cancelled := ctx_cancelled w;
                shutdown_error := shutdown_error w |})
    | Daemon.ctx_Done =>
        (tt, {| accepting := accepting w;
                in_flight :=
                  if accepting w then (in_flight w + arriving)%nat else in_flight w;
                ctx_cancelled := true;
                shutdown_error := shutdown_error w |})
    | Daemon.httpSrv_Shutdown =>
        if ctx_cancelled w && negb (Nat.eqb (in_flight w) 0) then
          (tt, {| accepting := false; in_flight := in_flight w;
                  ctx_cancelled := ctx_cancelled w;
                  shutdown_error := Some (errorString "context canceled") |})
        else
          (tt, {| accepting := false; in_flight := 0%nat;
                  ctx_cancelled := ctx_cancelled w;
                  shutdown_error := None |})
    end.

Definition server0 : Server :=
  {| accepting := false; in_flight := 0%nat; ctx_cancelled := false;
     shutdown_error := None |}.

(** [path.Join] and [path.Dir] on paths that are already clean: the
    elements separated by slashes, and what precedes the last slash. *)
Definition join_clean (elem : list string) : string := String.concat "/" elem.

Definition dir_clean (path : string) : string :=
  slice_to path (strings_LastIndexByte path "/").

Definition environ0 : Daemon.Environ :=
  {| Daemon.environ := {[ "LLAMA_SOCKET" := "/tmp/llama/llama.sock" ]};
     Daemon.uid := 1000 |}.

Definition environ_home : Daemon.Environ :=
  {| Daemon.environ := {[ "HOME" := "/home/ada" ]}; Daemon.uid := 1000 |}.

Definition environ_bare : Daemon.Environ :=
  {| Daemon.environ := ∅; Daemon.uid := 1000 |}.

End Samples.

(** * Properties *)

(** ** Strings: the first occurrence of a byte and the two slices around it *)

Module GoFacts.
Import Go.

(** A string in which the byte [c] does not occur. *)
Definition lacks (c : ascii) (s : string) : Prop :=
  ~ In c (list_ascii_of_string s).

Lemma lacks_cons c a s : lacks c (String a s) <-> a <> c /\ lacks c s.
Proof.
  unfold lacks; simpl. split.
  - intros H. split; [intros ->; apply H; now left | intros Hin; apply H; now right].
  - intros [Hne Hs] [Heq | Hin]; [now apply Hne | now apply Hs].
Qed.

Lemma lacks_empty c : lacks c "".
Proof. unfold lacks; simpl; tauto. Qed.

Lemma eqb_neq_ascii a c : a <> c -> Ascii.eqb a c = false.
Proof. intros H. now apply Ascii.eqb_neq. Qed.

Lemma IndexByte_from_lower i s c : IndexByte_from i s c = -1 \/ i <= IndexByte_from i s c.
Proof.
  revert i. induction s as [| a s IH]; intros i; simpl; [now left |].
  destruct (Ascii.eqb a c); [right; lia |].
  destruct (IH (i + 1)) as [-> | H]; [now left | right; lia].
Qed.

Lemma IndexByte_from_lacks i s c :
  0 <= i -> (IndexByte_from i s c = -1 <-> lacks c s).
Proof.
  revert i. induction s as [| a s IH]; intros i Hi; simpl.
  - split; [intros _; apply lacks_empty | reflexivity].
  - rewrite lacks_cons. destruct (Ascii.eqb a c) eqn:E.
    + apply Ascii.eqb_eq in E. split; [lia | intros [Hne _]; contradiction].
    + apply Ascii.eqb_neq in E. rewrite IH by lia. tauto.
Qed.

Lemma IndexByte_from_split i pfx c rest :
  lacks c pfx ->
  IndexByte_from i (pfx +:+ String c rest) c = i + len pfx.
Proof.
  revert i. induction pfx as [| a pfx IH]; intros i H; simpl.
  - rewrite Ascii.eqb_refl. unfold len; simpl; lia.
  - apply lacks_cons in H as [Hne H]. rewrite eqb_neq_ascii by assumption.
    rewrite IH by assumption. unfold len; simpl String.length. lia.
Qed.

Lemma take_bytes_app pfx s : take_bytes (String.length pfx) (pfx +:+ s) = pfx.
Proof. induction pfx as [| a pfx IH]; simpl; [now destruct s | now rewrite IH]. Qed.

Lemma slice_to_split pfx c rest :
  slice_to (pfx +:+ String c rest) (len pfx) = pfx.
Proof. unfold slice_to, len. rewrite Nat2Z.id. apply take_bytes_app. Qed.

Lemma drop_bytes_split pfx c rest :
  drop_bytes (S (String.length pfx)) (pfx +:+ String c rest) = rest.
Proof. induction pfx as [| a pfx IH]; simpl; [reflexivity | exact IH]. Qed.

Lemma slice_from_split pfx c rest :
  slice_from (pfx +:+ String c rest) (len pfx + 1) = rest.
Proof.
  unfold slice_from, len.
  replace (Z.to_nat (Z.of_nat (String.length pfx) + 1)) with (S (String.length pfx)) by lia.
  apply drop_bytes_split.
Qed.

(** Where [strings.IndexByte] is not negative, the string is the slice
    before the index, the byte, and the slice after it, and the byte does
    not occur in the slice before. *)
Lemma IndexByte_from_found i s c :
  0 <= i -> i <= IndexByte_from i s c ->
  let n := Z.to_nat (IndexByte_from i s c - i) in
  s = take_bytes n s +:+ String c (drop_bytes (S n) s) /\ lacks c (take_bytes n s).
Proof.
  revert i. induction s as [| a s IH]; intros i Hi; simpl.
  - lia.
  - destruct (Ascii.eqb a c) eqn:E.
    + apply Ascii.eqb_eq in E. subst a. intros _.
      replace (Z.to_nat (i - i)) with O by lia. simpl. split; [reflexivity | apply lacks_empty].
    + apply Ascii.eqb_neq in E. intros H.
      destruct (IndexByte_from_lower (i + 1) s c) as [Hm | Hl]; [lia |].
      destruct (IH (i + 1) ltac:(lia) Hl) as [Hs Hlk].
      replace (Z.to_nat (IndexByte_from (i + 1) s c - i))
        with (S (Z.to_nat (IndexByte_from (i + 1) s c - (i + 1)))) by lia.
      set (n := Z.to_nat (IndexByte_from (i + 1) s c - (i + 1))) in *.
      change (take_bytes (S n) (String a s)) with (String a (take_bytes n s)).
      change (drop_bytes (S (S n)) (String a s)) with (drop_bytes (S n) s).
      split; [change (String a s = String a (take_bytes n s +:+ String c (drop_bytes (S n) s)));
              f_equal; exact Hs | now apply lacks_cons].
Qed.

Lemma strings_IndexByte_found s c :
  0 <= strings_IndexByte s c ->
  s = slice_to s (strings_IndexByte s c)
        +:+ String c (slice_from s (strings_IndexByte s c + 1))
  /\ lacks c (slice_to s (strings_IndexByte s c)).
Proof.
  unfold strings_IndexByte, slice_to, slice_from. intros H.
  destruct (IndexByte_from_found 0 s c ltac:(lia) H) as [Hs Hl].
  rewrite Z.sub_0_r in Hs, Hl.
  replace (Z.to_nat (IndexByte_from 0 s c + 1)) with (S (Z.to_nat (IndexByte_from 0 s c))) by lia.
  now split.
Qed.

Lemma strings_IndexByte_lacks s c : strings_IndexByte s c = -1 <-> lacks c s.
Proof. apply IndexByte_from_lacks. lia. Qed.

Lemma strings_IndexByte_split pfx c rest :
  lacks c pfx -> strings_IndexByte (pfx +:+ String c rest) c = len pfx.
Proof. intros H. unfold strings_IndexByte. now rewrite IndexByte_from_split. Qed.

Lemma len_pos s : s <> "" -> 0 < len s.
Proof. destruct s; [congruence | unfold len; simpl; lia]. Qed.

End GoFacts.

(** ** Running a program: sequencing, the calls made *)

Module EffectsFacts.
Import Effects.

Section Facts.
Context {Call : Type} {Resp : Call -> Type} {W : Type}.

Abbreviation prog := (M Call Resp W).
Abbreviation handler := (Handler Call Resp W).

Lemma run_ret {R} (r : R) (h : handler) w :
  run (mret r : prog R) h w = (Returned r, w, []).
Proof. reflexivity. Qed.

Lemma run_call (c : Call) (h : handler) w :
  run (call c) h w = (Returned (h c w).1, (h c w).2, [Ev c (h c w).1]).
Proof. unfold run, call. now destruct (h c w). Qed.

Lemma run_bind {A B} (m : prog A) (k : A -> prog B) (h : handler) w :
  run (m ≫= k) h w =
  match run m h w with
  | (Returned a, w1, t1) =>
      match run (k a) h w1 with
      | (o, w2, t2) => (o, w2, t1 ++ t2)
      end
  | (Exited code, w1, t1) => (Exited code, w1, t1)
  | (Panicked msg, w1, t1) => (Panicked msg, w1, t1)
  end.
Proof. reflexivity. Qed.

(** A first part that returns after one call, followed by the rest of the
    program. *)
Lemma run_bind_one {A B} (m : prog A) (k : A -> prog B) (h : handler) w a w1 ev :
  run m h w = (Returned a, w1, [ev]) ->
  run (m ≫= k) h w =
  match run (k a) h w1 with
  | (o, w2, t2) => (o, w2, ev :: t2)
  end.
Proof. intros E. rewrite run_bind, E. reflexivity. Qed.

(** Every call a program makes satisfies [P], whatever the handler. *)
Definition calls_all {R} (P : Call -> Prop) (m : prog R) : Prop :=
  forall (h : handler) w, Forall P (calls (trace (run m h w))).

Lemma calls_all_ret {R} P (r : R) : calls_all P (mret r : prog R).
Proof. intros h w. constructor. Qed.

Lemma calls_all_exit {R} P code : calls_all P (os_Exit code : prog R).
Proof. intros h w. constructor. Qed.

Lemma calls_all_panic {R} P msg : calls_all P (panic msg : prog R).
Proof. intros h w. constructor. Qed.

Lemma calls_all_call (P : Call -> Prop) c : P c -> calls_all P (call c).
Proof. intros H h w. rewrite run_call. repeat constructor. exact H. Qed.

Lemma calls_all_bind {A B} P (m : prog A) (k : A -> prog B) :
  calls_all P m -> (forall a, calls_all P (k a)) -> calls_all P (m ≫= k).
Proof.
  intros Hm Hk h w. rewrite run_bind. specialize (Hm h w).
  destruct (run m h w) as [[[a | code | msg] w1] t1]; cbn in *; try assumption.
  specialize (Hk a h w1). destruct (run (k a) h w1) as [[o w2] t2]; cbn in *.
  unfold calls in *. rewrite map_app. apply Forall_app. now split.
Qed.

(** A program that returns, whatever the handler, a value that satisfies
    [Q]: it neither ends the process nor panics. *)
Definition yields {R} (m : prog R) (Q : R -> Prop) : Prop :=
  forall (h : handler) w, exists r, outcome (run m h w) = Returned r /\ Q r.

Definition returns {R} (m : prog R) : Prop := yields m (fun _ => True).

Lemma yields_ret {R} (r : R) (Q : R -> Prop) : Q r -> yields (mret r : prog R) Q.
Proof. intros H h w. now exists r. Qed.

Lemma returns_call c : returns (call c).
Proof. intros h w. rewrite run_call. now eexists. Qed.

Lemma yields_bind {A B} (m : prog A) (k : A -> prog B) Q1 Q2 :
  yields m Q1 -> (forall a, Q1 a -> yields (k a) Q2) -> yields (m ≫= k) Q2.
Proof.
  intros Hm Hk h w. rewrite run_bind. destruct (Hm h w) as (a & Ha & HQ).
  destruct (run m h w) as [[o w1] t1]; cbn in Ha; subst o.
  destruct (Hk a HQ h w1) as (b & Hb & HQb).
  destruct (run (k a) h w1) as [[o w2] t2]; cbn in *. now exists b.
Qed.

(** A program that returns or ends the process with the status [code],
    whatever the handler: it does not panic. *)
Definition ends {R} (m : prog R) (code : Z) : Prop :=
  forall (h : handler) w,
    (exists r, outcome (run m h w) = Returned r) \/ outcome (run m h w) = Exited code.

Lemma ends_returns {R} (m : prog R) Q code : yields m Q -> ends m code.
Proof. intros Hm h w. destruct (Hm h w) as (r & Hr & _). left. now exists r. Qed.

Lemma ends_exit {R} code : ends (os_Exit code : prog R) code.
Proof. intros h w. now right. Qed.

Lemma ends_bind {A B} (m : prog A) (k : A -> prog B) code :
  ends m code -> (forall a, ends (k a) code) -> ends (m ≫= k) code.
Proof.
  intros Hm Hk h w. rewrite run_bind. specialize (Hm h w).
  destruct (run m h w) as [[o w1] t1]; cbn in Hm.
  destruct Hm as [[a ->] | ->]; [| now right].
  specialize (Hk a h w1). now destruct (run (k a) h w1) as [[o w2] t2].
Qed.

(** The events of a sequence are those of its first part or, when that
    part returns, those of what follows. *)
Lemma trace_bind_In {A B} (m : prog A) (k : A -> prog B) (h : handler) w ev :
  In ev (trace (run (m ≫= k) h w)) ->
  In ev (trace (run m h w)) \/
  exists a w1 t1, run m h w = (Returned a, w1, t1) /\ In ev (trace (run (k a) h w1)).
Proof.
  rewrite run_bind.
  destruct (run m h w) as [[[a | code | msg] w1] t1]; cbn; try (now left).
  destruct (run (k a) h w1) as [[o w2] t2] eqn:E; cbn. intros Hin.
  apply in_app_or in Hin as [Hin | Hin]; [now left | right].
  exists a, w1, t1. split; [reflexivity |]. rewrite E. exact Hin.
Qed.

Lemma outcome_bind {A B} (m : prog A) (k : A -> prog B) (h : handler) w a w1 t1 :
  run m h w = (Returned a, w1, t1) ->
  outcome (run (m ≫= k) h w) = outcome (run (k a) h w1).
Proof.
  intros E. rewrite run_bind, E. now destruct (run (k a) h w1) as [[o w2] t2].
Qed.

Lemma calls_In (t : list (Event Call Resp)) c :
  In c (calls t) <-> exists r, In (Ev c r) t.
Proof.
  unfold calls. rewrite in_map_iff. split.
  - intros [[c' r] [<- Hin]]. now exists r.
  - intros [r Hin]. now exists (Ev c r).
Qed.

End Facts.

(** [answer h c w as r w1 E] names the answer [r] of the handler to the
    call [c] made in the world [w], and moves past that call. *)
Tactic Notation "answer" constr(h) constr(c) constr(w)
  "as" ident(r) ident(w1) ident(E) :=
  destruct (h c w) as [r w1] eqn:E; cbn in r;
  rewrite (run_bind_one _ _ h w r w1 (Ev c r))
    by (unfold run, call; rewrite E; reflexivity).

End EffectsFacts.

(** ** cmd/llama/invoke.go: attachments and the argument grammar *)

Module InvokeSpec.
Import Go Effects GoFacts EffectsFacts Invoke.

(** The destination of the value of an attachment flag, in the words of
    the specification: the part after the first colon when the value is
    split there, the whole value when it is not.  The value is split when
    a colon occurs in it and is not its first byte. *)
Inductive destination : string -> string -> Prop :=
| destination_split src dst :
    src <> "" -> lacks ":" src -> destination (src +:+ String ":" dst) dst
| destination_no_colon v :
    lacks ":" v -> destination v v
| destination_leading_colon rest :
    destination (String ":" rest) (String ":" rest).

Lemma fileList_Set_split f src dst :
  src <> "" -> lacks ":" src ->
  fileList_Set f (src +:+ String ":" dst) =
  if path_IsAbs dst then
    (f, Some (Errorf "-file: cannot expose file at absolute path: %q" [dst]))
  else ({| files := files f ++ [ {| source := src; dest := dst |} ] |}, None).
Proof.
  intros Hne Hl. unfold fileList_Set, strings_IndexRune.
  rewrite strings_IndexByte_split by assumption.
  pose proof (len_pos src Hne) as Hpos.
  destruct (0 <? len src) eqn:E; [| apply Z.ltb_ge in E; lia].
  now rewrite slice_to_split, slice_from_split.
Qed.

Lemma fileList_Set_whole f v :
  strings_IndexRune v ":" <= 0 ->
  fileList_Set f v =
  if path_IsAbs v then
    (f, Some (Errorf "-file: cannot expose file at absolute path: %q" [v]))
  else ({| files := files f ++ [ {| source := v; dest := v |} ] |}, None).
Proof.
  intros H. unfold fileList_Set.
  destruct (0 <? strings_IndexRune v ":") eqn:E; [apply Z.ltb_lt in E; lia | reflexivity].
Qed.

(** C7.  A value of the attachment flag whose destination is an absolute
    path is refused by [fileList.Set]: the error names the destination and
    the list of attachments is left as it was.  [fileList.Set] makes no
    call to the outside world, so no file is read. *)
Theorem fileList_Set_absolute_destination (f : fileList) (v dst : string) :
  destination v dst ->
  path_IsAbs dst = true ->
  fileList_Set f v =
  (f, Some (Errorf "-file: cannot expose file at absolute path: %q" [dst])).
Proof.
  intros Hd Habs. destruct Hd as [src dst Hne Hl | v Hl | rest].
  - rewrite fileList_Set_split by assumption. now rewrite Habs.
  - rewrite fileList_Set_whole.
    + now rewrite Habs.
    + unfold strings_IndexRune. apply strings_IndexByte_lacks in Hl. lia.
  - discriminate Habs.
Qed.

Lemma fileList_Set_absolute_destination_witness :
  fileList_Set {| files := [] |} "/etc/passwd" =
  ({| files := [] |},
   Some (Errorf "-file: cannot expose file at absolute path: %q" ["/etc/passwd"])).
Proof.
  apply fileList_Set_absolute_destination.
  - apply destination_no_colon. apply strings_IndexByte_lacks. reflexivity.
  - reflexivity.
Defined.

(** A relative destination is appended, after the entries already there. *)
Lemma fileList_Set_relative_destination (f : fileList) (src dst : string) :
  src <> "" -> lacks ":" src -> path_IsAbs dst = false ->
  fileList_Set f (src +:+ String ":" dst) =
  ({| files := files f ++ [ {| source := src; dest := dst |} ] |}, None).
Proof. intros Hne Hl Hrel. rewrite fileList_Set_split by assumption. now rewrite Hrel. Qed.

Example fileList_Set_absolute_after_colon :
  fileList_Set {| files := [] |} "passwd:/etc/passwd" =
  ({| files := [] |},
   Some (Errorf "-file: cannot expose file at absolute path: %q" ["/etc/passwd"])).
Proof. reflexivity. Qed.

Section Grammar.
Context {W : Type}.
Variable h : Handler Call Resp W.

(** A token that is not split: no [@], or [@] as its first byte. *)
Lemma parseArgSpec_not_split outputs arg w :
  strings_Index1 arg "@" <= 0 ->
  run (parseArgSpec outputs arg) h w = (Returned (outputs, Ok (ArgString arg)), w, []).
Proof.
  intros H. unfold parseArgSpec.
  destruct (0 <? strings_Index1 arg "@") eqn:E; [apply Z.ltb_lt in E; lia | reflexivity].
Qed.

(** The token [pfx@rest] is split at its first [@]. *)
Lemma split_at_first pfx rest :
  pfx <> "" -> lacks "@" pfx ->
  let arg := pfx +:+ String "@" rest in
  (0 <? strings_Index1 arg "@") = true
  /\ slice_to arg (strings_Index1 arg "@") = pfx
  /\ slice_from arg (strings_Index1 arg "@" + 1) = rest.
Proof.
  intros Hne Hl arg. unfold arg, strings_Index1.
  rewrite strings_IndexByte_split by assumption.
  rewrite slice_to_split, slice_from_split.
  pose proof (len_pos pfx Hne). repeat split. now apply Z.ltb_lt.
Qed.

Lemma parseArgSpec_raw outputs rest w :
  run (parseArgSpec outputs ("raw@" +:+ rest)) h w =
  (Returned (outputs, Ok (ArgString rest)), w, []).
Proof.
  destruct (split_at_first "raw" rest) as (E1 & E2 & E3);
    [discriminate | apply strings_IndexByte_lacks; reflexivity |].
  unfold parseArgSpec.
  change ("raw@" +:+ rest) with ("raw" +:+ String "@" rest).
  rewrite E1, E2, E3. reflexivity.
Qed.

Lemma parseArgSpec_o outputs rest w :
  run (parseArgSpec outputs ("o@" +:+ rest)) h w =
  (Returned ((registerOutput outputs {| ArgIn := None; ArgOut := None |} rest).1,
             Ok (ArgStruct
                   (registerOutput outputs {| ArgIn := None; ArgOut := None |} rest).2)),
   w, []).
Proof.
  destruct (split_at_first "o" rest) as (E1 & E2 & E3);
    [discriminate | apply strings_IndexByte_lacks; reflexivity |].
  unfold parseArgSpec.
  change ("o@" +:+ rest) with ("o" +:+ String "@" rest).
  rewrite E1, E2, E3. cbn [String.eqb Ascii.eqb Bool.eqb orb].
  now destruct (registerOutput outputs _ rest).
Qed.

(** A token that is split and whose prefix is not [raw] does not give a
    string. *)
Lemma parseArgSpec_split_literal pfx rest outputs w outputs' lit :
  pfx <> "" -> lacks "@" pfx ->
  outcome (run (parseArgSpec outputs (pfx +:+ String "@" rest)) h w)
    = Returned (outputs', Ok (ArgString lit)) ->
  pfx = "raw".
Proof.
  intros Hne Hl. destruct (split_at_first pfx rest Hne Hl) as (E1 & E2 & E3).
  unfold parseArgSpec. rewrite E1, E2, E3.
  destruct (String.eqb pfx "i" || String.eqb pfx "io") eqn:Ei.
  - answer h (ioutil_ReadFile rest) w as r w1 E.
    destruct r as [data | err]; [| discriminate].
    answer h (protocol_NewBlob data) w1 as b w2 E'.
    destruct b as [blob | err]; [| discriminate].
    destruct (String.eqb pfx "i"); [discriminate |].
    destruct (registerOutput outputs _ rest). discriminate.
  - destruct (String.eqb pfx "o").
    + destruct (registerOutput outputs _ rest). discriminate.
    + destruct (String.eqb pfx "raw") eqn:Er; [| discriminate].
      intros _. now apply String.eqb_eq.
Qed.

(** The value of [argSpec] at line 231 is a string exactly when the token
    has no [@], or starts with [@], or has the prefix [raw] before its
    first [@]. *)
Lemma parseArgSpec_literal_cases (outputs : OutputMap) (arg : string) (w : W) :
  let r := run (parseArgSpec outputs arg) h w in
  (lacks "@" arg -> r = (Returned (outputs, Ok (ArgString arg)), w, []))
  /\ (forall rest, arg = String "@" rest ->
        r = (Returned (outputs, Ok (ArgString arg)), w, []))
  /\ (forall rest, arg = "raw@" +:+ rest ->
        r = (Returned (outputs, Ok (ArgString rest)), w, []))
  /\ (forall outputs' lit,
        outcome r = Returned (outputs', Ok (ArgString lit)) ->
        lacks "@" arg
        \/ (exists rest, arg = String "@" rest)
        \/ (exists rest, arg = "raw@" +:+ rest)).
Proof.
  cbv zeta. repeat split.
  - intros Hl. apply parseArgSpec_not_split.
    apply strings_IndexByte_lacks in Hl. unfold strings_Index1. lia.
  - intros rest ->. now apply parseArgSpec_not_split.
  - intros rest ->. apply parseArgSpec_raw.
  - intros outputs' lit Hr.
    destruct (IndexByte_from_lower 0 arg "@") as [Hm | Hfound].
    + left. now apply strings_IndexByte_lacks.
    + right. destruct (strings_IndexByte_found arg "@" Hfound) as [Harg Hl].
      set (pfx := slice_to arg (strings_IndexByte arg "@")) in *.
      set (rest := slice_from arg (strings_IndexByte arg "@" + 1)) in *.
      destruct pfx as [| a p] eqn:Hp.
      * left. exists rest. exact Harg.
      * right. exists rest. rewrite Harg in Hr.
        apply parseArgSpec_split_literal in Hr; [| discriminate | exact Hl].
        rewrite Harg, Hr. reflexivity.
Qed.

Variable json_Marshal : ArgSpec -> result RawMessage.

(** Lines 231-235: what [parseArg] returns is the encoding by
    [json.Marshal] of the value [parseArgSpec] leaves in [argSpec]. *)
Lemma parseArg_marshal outputs arg w outputs' argSpec w' t word :
  run (parseArgSpec outputs arg) h w = (Returned (outputs', Ok argSpec), w', t) ->
  json_Marshal argSpec = Ok word ->
  run (parseArg json_Marshal outputs arg) h w = (Returned (outputs', Ok word), w', t).
Proof.
  intros E Hm. unfold parseArg. rewrite run_bind, E. cbv beta iota.
  rewrite Hm, run_ret. now rewrite app_nil_r.
Qed.

Lemma parseArg_word outputs arg w outputs' word :
  outcome (run (parseArg json_Marshal outputs arg) h w) = Returned (outputs', Ok word) ->
  exists argSpec,
    outcome (run (parseArgSpec outputs arg) h w) = Returned (outputs', Ok argSpec)
    /\ json_Marshal argSpec = Ok word.
Proof.
  unfold parseArg. rewrite run_bind.
  destruct (run (parseArgSpec outputs arg) h w) as [[o w1] t1].
  destruct o as [[outs [argSpec | err]] | code | msg]; cbn [outcome fst];
    try discriminate.
  destruct (json_Marshal argSpec) as [word' | err] eqn:Hm.
  - rewrite run_ret. cbn. intros [= <- <-]. now exists argSpec.
  - unfold log_Fatal. rewrite run_bind, run_call. cbn. discriminate.
Qed.

(** C6.  [parseArg] returns the encoding of a string, the literal, exactly
    when the token has no [@], or starts with [@], or has the prefix [raw]
    before its first [@].  In the first two cases the word returned is
    [json.Marshal] of the whole token; in the third it is [json.Marshal]
    of all that follows the first [@], later [@] included.  In the three
    cases no call is made to the outside world and the map of outputs is
    left as it was.  For any other token a word that [parseArg] returns is
    [json.Marshal] of a [protocol.Arg]. *)
Theorem parseArg_literal_cases (outputs : OutputMap) (arg : string) (w : W) :
  let r := run (parseArg json_Marshal outputs arg) h w in
  (forall word,
      lacks "@" arg -> json_Marshal (ArgString arg) = Ok word ->
      r = (Returned (outputs, Ok word), w, []))
  /\ (forall rest word,
        arg = String "@" rest -> json_Marshal (ArgString arg) = Ok word ->
        r = (Returned (outputs, Ok word), w, []))
  /\ (forall rest word,
        arg = "raw@" +:+ rest -> json_Marshal (ArgString rest) = Ok word ->
        r = (Returned (outputs, Ok word), w, []))
  /\ (forall outputs' word,
        outcome r = Returned (outputs', Ok word) ->
        (lacks "@" arg /\ json_Marshal (ArgString arg) = Ok word)
        \/ ((exists rest, arg = String "@" rest)
            /\ json_Marshal (ArgString arg) = Ok word)
        \/ (exists rest, arg = "raw@" +:+ rest
                         /\ json_Marshal (ArgString rest) = Ok word)
        \/ (exists a : Arg,
              json_Marshal (ArgStruct a) = Ok word
              /\ ~ lacks "@" arg
              /\ (forall rest, arg <> String "@" rest)
              /\ (forall rest, arg <> "raw@" +:+ rest))).
Proof.
  cbv zeta.
  destruct (parseArgSpec_literal_cases outputs arg w) as (H1 & H2 & H3 & H4).
  split; [| split; [| split]].
  - intros word Hl Hm. exact (parseArg_marshal _ _ _ _ _ _ _ _ (H1 Hl) Hm).
  - intros rest word Ha Hm. exact (parseArg_marshal _ _ _ _ _ _ _ _ (H2 rest Ha) Hm).
  - intros rest word Ha Hm. exact (parseArg_marshal _ _ _ _ _ _ _ _ (H3 rest Ha) Hm).
  - intros outputs' word Hr.
    destruct (parseArg_word _ _ _ _ _ Hr) as (argSpec & Hs & Hm).
    destruct argSpec as [lit | a].
    + destruct (H4 _ _ Hs) as [Hl | [[rest Ha] | [rest Ha]]].
      * left. split; [exact Hl |]. rewrite (H1 Hl) in Hs. cbn in Hs. congruence.
      * right; left. split; [now exists rest |].
        rewrite (H2 rest Ha) in Hs. cbn in Hs. congruence.
      * right; right; left. exists rest. split; [exact Ha |].
        rewrite (H3 rest Ha) in Hs. cbn in Hs. congruence.
    + do 3 right. exists a. split; [exact Hm |]. repeat split.
      * intros Hl. rewrite (H1 Hl) in Hs. discriminate Hs.
      * intros rest Ha. rewrite (H2 rest Ha) in Hs. discriminate Hs.
      * intros rest Ha. rewrite (H3 rest Ha) in Hs. discriminate Hs.
Qed.

(** *** Output registration *)

(** The name registered is the base name of the path, or, when that name
    is already a key of the map, the number of entries of the map, a dash
    and the base name; the path is stored under the name registered. *)
Lemma registerOutput_fresh (m : gmap string string) a arg :
  m !! path_Base arg = None ->
  registerOutput (Some m) a arg =
  (Some (<[path_Base arg := arg]> m),
   {| ArgIn := ArgIn a; ArgOut := Some (path_Base arg) |}).
Proof. intros H. unfold registerOutput. now rewrite H. Qed.

Lemma registerOutput_collision (m : gmap string string) a arg prior :
  m !! path_Base arg = Some prior ->
  let name := Sprintf_d_s (Z.of_nat (size m)) (path_Base arg) in
  registerOutput (Some m) a arg =
  (Some (<[name := arg]> m), {| ArgIn := ArgIn a; ArgOut := Some name |}).
Proof. intros H. unfold registerOutput. now rewrite H. Qed.

Lemma registerOutput_nil a arg :
  registerOutput None a arg =
  (Some {[ path_Base arg := arg ]},
   {| ArgIn := ArgIn a; ArgOut := Some (path_Base arg) |}).
Proof. reflexivity. Qed.

Lemma parseArg_o outputs rest w word :
  let reg := registerOutput outputs {| ArgIn := None; ArgOut := None |} rest in
  json_Marshal (ArgStruct reg.2) = Ok word ->
  run (parseArg json_Marshal outputs ("o@" +:+ rest)) h w =
  (Returned (reg.1, Ok word), w, []).
Proof.
  intros reg Hm. unfold parseArg. rewrite run_bind, parseArgSpec_o.
  fold reg. rewrite Hm. reflexivity.
Qed.

Lemma prepareArgs_loop_o i rest args out outputs w word :
  let reg := registerOutput outputs {| ArgIn := None; ArgOut := None |} rest in
  json_Marshal (ArgStruct reg.2) = Ok word ->
  run (prepareArgs_loop json_Marshal i (("o@" +:+ rest) :: args) out outputs) h w =
  run (prepareArgs_loop json_Marshal (S i) args (<[i := word]> out) reg.1) h w.
Proof.
  intros reg Hm. cbn [prepareArgs_loop]. rewrite run_bind.
  rewrite (parseArg_o outputs rest w word Hm). fold reg.
  now destruct (run (prepareArgs_loop json_Marshal (S i) args (<[i:=word]> out) reg.1) h w)
    as [[o w2] t2].
Qed.

(** The example of the specification: the second [out.txt] is registered
    as [1-out.txt]. *)
Lemma prepareArgs_same_output_twice w word1 word2 :
  json_Marshal (ArgStruct {| ArgIn := None; ArgOut := Some "out.txt" |}) = Ok word1 ->
  json_Marshal (ArgStruct {| ArgIn := None; ArgOut := Some "1-out.txt" |}) = Ok word2 ->
  run (prepareArgs json_Marshal ["o@out.txt"; "o@out.txt"]) h w =
  (Returned (Ok ([word1; word2],
                 Some {[ "out.txt" := "out.txt"; "1-out.txt" := "out.txt" ]})),
   w, []).
Proof.
  intros H1 H2. unfold prepareArgs.
  rewrite (prepareArgs_loop_o 0 "out.txt" _ _ _ w word1) by exact H1.
  rewrite (prepareArgs_loop_o 1 "out.txt" _ _ _ w word2) by exact H2.
  vm_compute. reflexivity.
Qed.

(** C1.  The arguments [o@2-a], [o@a], [o@a]: the third base name [a] is
    already registered, so it is renamed with the number of entries, 2,
    to [2-a], which is the name registered for the first argument.  The
    first and the third argument are encoded with the same output name,
    and the map keeps two entries, the destination [2-a] being lost. *)
Theorem prepareArgs_renamed_output_collides w word1 word2 :
  json_Marshal (ArgStruct {| ArgIn := None; ArgOut := Some "2-a" |}) = Ok word1 ->
  json_Marshal (ArgStruct {| ArgIn := None; ArgOut := Some "a" |}) = Ok word2 ->
  run (prepareArgs json_Marshal ["o@2-a"; "o@a"; "o@a"]) h w =
  (Returned (Ok ([word1; word2; word1], Some {[ "2-a" := "a"; "a" := "a" ]})),
   w, []).
Proof.
  intros H1 H2. unfold prepareArgs.
  rewrite (prepareArgs_loop_o 0 "2-a" _ _ _ w word1) by exact H1.
  rewrite (prepareArgs_loop_o 1 "a" _ _ _ w word2) by exact H2.
  rewrite (prepareArgs_loop_o 2 "a" _ _ _ w word1) by exact H1.
  vm_compute. reflexivity.
Qed.

End Grammar.

(** ** cmd/llama/invoke.go: reconciling the outputs of a response *)

Section Reconcile.
Context {W : Type}.
Variable h : Handler Call Resp W.

(** What the reconciliation of one entry [(key, blob)] of the response
    does, as the calls made and their answers: the name is not in the map
    and this is logged; or the blob cannot be fetched and this is logged;
    or the write fails and this is logged; or the bytes fetched are
    written to the destination the map gives, with mode 0644. *)
Inductive reconciled (outputs : OutputMap) :
  string * Blob -> list (Event Call Resp) -> Prop :=
| reconciled_unexpected key blob :
    lookup_output outputs key = None ->
    reconciled outputs (key, blob)
      [Ev (log_Printf "Unexpected output: %q" [Fstr key]) tt]
| reconciled_fetch_failed key blob file err :
    lookup_output outputs key = Some file ->
    reconciled outputs (key, blob)
      [Ev (Blob_Read blob) (Err err);
       Ev (log_Printf "reading output %q: %s" [Fstr key; Ferr err]) tt]
| reconciled_write_failed key blob file data err :
    lookup_output outputs key = Some file ->
    reconciled outputs (key, blob)
      [Ev (Blob_Read blob) (Ok data);
       Ev (ioutil_WriteFile file data perm_0644) (Some err);
       Ev (log_Printf "reading output %q: %s" [Fstr file; Ferr err]) tt]
| reconciled_written key blob file data :
    lookup_output outputs key = Some file ->
    reconciled outputs (key, blob)
      [Ev (Blob_Read blob) (Ok data);
       Ev (ioutil_WriteFile file data perm_0644) None].

Lemma run_log format args w :
  @run Call Resp W unit (call (log_Printf format args)) h w =
  (Returned tt, (h (log_Printf format args) w).2, [Ev (log_Printf format args) tt]).
Proof.
  unfold run, call. destruct (h (log_Printf format args) w) as [u w1].
  cbn in u. now destruct u.
Qed.

Lemma fetchOutputs_body_reconciled outputs key blob w :
  exists w' t,
    run (fetchOutputs_body outputs key blob) h w = (Returned tt, w', t)
    /\ reconciled outputs (key, blob) t.
Proof.
  unfold fetchOutputs_body. destruct (lookup_output outputs key) as [file |] eqn:Hk.
  - answer h (Blob_Read blob) w as r w1 E. destruct r as [data | err]; cbv beta iota.
    + answer h (ioutil_WriteFile file data perm_0644) w1 as e w2 E'.
      destruct e as [err |]; cbv beta iota.
      * rewrite run_log. eexists _, _. split; [reflexivity |].
        now apply reconciled_write_failed.
      * rewrite run_ret. eexists _, _. split; [reflexivity |].
        now apply reconciled_written.
    + rewrite run_log. eexists _, _. split; [reflexivity |].
      eapply reconciled_fetch_failed; eassumption.
  - rewrite run_log. eexists _, _. split; [reflexivity |].
    now apply reconciled_unexpected.
Qed.

Lemma fetchOutputs_loop_reconciled outputs entries w :
  exists w' ts,
    run (fetchOutputs_loop outputs entries) h w = (Returned tt, w', concat ts)
    /\ Forall2 (reconciled outputs) entries ts.
Proof.
  revert w. induction entries as [| [key blob] rest IH]; intros w.
  - exists w, []. split; [reflexivity | constructor].
  - cbn [fetchOutputs_loop]. rewrite run_bind.
    destruct (fetchOutputs_body_reconciled outputs key blob w) as (w1 & t & -> & Ht).
    destruct (IH w1) as (w2 & ts & -> & Hts).
    exists w2, (t :: ts). split; [reflexivity | now constructor].
Qed.

(** C4.  Reconciliation is soft for each output: [fetchOutputs] returns,
    whatever the response, the map and the outside world do, and the
    calls it makes are, for each output of the response in the order
    visited, those of [reconciled]: an output whose name is not in the map
    is logged, a fetch or a write that fails is logged, and in each case
    the outputs that remain are handled. *)
Theorem fetchOutputs_soft_per_item (outputs : OutputMap)
  (resp : InvocationResponse) (w : W) :
  exists w' ts,
    run (fetchOutputs outputs resp) h w = (Returned tt, w', concat ts)
    /\ Forall2 (reconciled outputs) (Outputs resp) ts.
Proof. apply fetchOutputs_loop_reconciled. Qed.

(** The blob and the answer of an event that is a fetch. *)
Definition fetched (ev : Event Call Resp) : option (Blob * result bytes) :=
  match ev with
  | Ev c r =>
      match c return Resp c -> option (Blob * result bytes) with
      | Blob_Read b => fun r => Some (b, r)
      | _ => fun _ => None
      end r
  end.

Lemma Forall2_In_r {A B} (R : A -> B -> Prop) l ts t :
  Forall2 R l ts -> In t ts -> exists x, In x l /\ R x t.
Proof.
  induction 1 as [| x t' l ts Hx _ IH]; intros Hin; [destruct Hin |].
  destruct Hin as [-> | Hin].
  - exists x. split; [now left | assumption].
  - destruct (IH Hin) as (y & Hy & HR). exists y. split; [now right | assumption].
Qed.

(** An event of the reconciliation is an event of the reconciliation of
    one entry of the response. *)
Lemma fetchOutputs_event outputs resp w ev :
  In ev (trace (run (fetchOutputs outputs resp) h w)) ->
  exists key blob t,
    In (key, blob) (Outputs resp) /\ reconciled outputs (key, blob) t /\ In ev t
    /\ incl t (trace (run (fetchOutputs outputs resp) h w)).
Proof.
  unfold fetchOutputs.
  destruct (fetchOutputs_loop_reconciled outputs (Outputs resp) w) as (w' & ts & -> & Hts).
  cbn [trace snd]. intros Hin. apply in_concat in Hin as (t & Ht & Hev).
  destruct (Forall2_In_r _ _ _ _ Hts Ht) as ([key blob] & Hentry & Hrec).
  exists key, blob, t. repeat split; try assumption.
  intros ev' Hev'. apply in_concat. now exists t.
Qed.

(** The octal constant 0644 is 420: read and write for the owner, read
    for the group and for the others. *)
Example perm_0644_value : perm_0644 = 420.
Proof. reflexivity. Qed.

(** Every write made by the reconciliation of outputs has the permission
    argument 0644, goes to the destination the map gives for an output of
    the response, and carries the bytes fetched for that output; and every
    output whose bytes were fetched is written so. *)
Lemma fetchOutputs_write_calls (outputs : OutputMap)
  (resp : InvocationResponse) (w : W) :
  let r := run (fetchOutputs outputs resp) h w in
  (forall file data perm,
      In (ioutil_WriteFile file data perm) (calls (trace r)) ->
      perm = 420
      /\ exists key blob,
          In (key, blob) (Outputs resp)
          /\ lookup_output outputs key = Some file
          /\ In (Ev (Blob_Read blob) (Ok data)) (trace r))
  /\ (forall blob data,
        In (Ev (Blob_Read blob) (Ok data)) (trace r) ->
        exists key file,
          In (key, blob) (Outputs resp)
          /\ lookup_output outputs key = Some file
          /\ In (ioutil_WriteFile file data 420) (calls (trace r))).
Proof.
  cbv zeta. split.
  - intros file data perm Hin. apply calls_In in Hin as [e Hin].
    apply fetchOutputs_event in Hin as (key & blob & t & Hentry & Hrec & Hev & Hincl).
    inversion Hrec as [k b Hk | k b f err Hk | k b f d err Hk | k b f d Hk];
      subst; cbn [In] in Hev;
      repeat match goal with
             | H : _ \/ _ |- _ => destruct H as [H | H]
             | H : False |- _ => destruct H
             end;
      apply (f_equal call_of) in Hev; cbn [call_of] in Hev;
      try discriminate Hev; injection Hev as -> -> <-;
      (split; [reflexivity |]); exists key, blob;
      (repeat split; [assumption | assumption |]); apply Hincl; now left.
  - intros blob data Hin.
    apply fetchOutputs_event in Hin as (key & blob0 & t & Hentry & Hrec & Hev & Hincl).
    inversion Hrec as [k b Hk | k b f err Hk | k b f d err Hk | k b f d Hk];
      subst; cbn [In] in Hev;
      repeat match goal with
             | H : _ \/ _ |- _ => destruct H as [H | H]
             | H : False |- _ => destruct H
             end;
      apply (f_equal fetched) in Hev; cbn [fetched] in Hev;
      try discriminate Hev; injection Hev as -> ->;
      exists key, f; (repeat split; [assumption | assumption |]);
      apply calls_In; eexists; apply Hincl; right; left; reflexivity.
Qed.

End Reconcile.

(** *** The modes of the files written *)

(** The file, the bytes, the permission argument and the answer of an
    event that is a write. *)
Definition written (ev : Event Call Resp) :
  option (string * bytes * Z * option error) :=
  match ev with
  | Ev c r =>
      match c return Resp c -> option (string * bytes * Z * option error) with
      | ioutil_WriteFile file data perm => fun r => Some (file, data, perm, r)
      | _ => fun _ => None
      end r
  end.

Section Modes.
Context {W : Type}.
Variable h : Handler Call Resp W.

(** The mode of the file at a path of the world; [None] where there is no
    file. *)
Variable mode_of : W -> string -> option Z.

(** The file mode creation mask of the process. *)
Variable umask : Z.

(** [ioutil.WriteFile], as documented: if the file does not exist it is
    created with the permissions [perm], before umask; otherwise it is
    truncated and written without a change of its permissions.  A write
    that fails may have created the file.  No other file is touched. *)
Hypothesis WriteFile_modes :
  forall file data perm w,
    (forall path, path <> file ->
        mode_of (h (ioutil_WriteFile file data perm) w).2 path = mode_of w path)
    /\ match mode_of w file with
       | Some prior =>
           mode_of (h (ioutil_WriteFile file data perm) w).2 file = Some prior
       | None =>
           match (h (ioutil_WriteFile file data perm) w).1 with
           | None =>
               mode_of (h (ioutil_WriteFile file data perm) w).2 file
               = Some (created_mode perm umask)
           | Some _ =>
               mode_of (h (ioutil_WriteFile file data perm) w).2 file = None
               \/ mode_of (h (ioutil_WriteFile file data perm) w).2 file
                  = Some (created_mode perm umask)
           end
       end.

(** The other calls, among them the reads from the store and the lines of
    the log, change the mode of no file. *)
Hypothesis other_calls_keep_modes :
  forall c w path,
    (forall file data perm, c <> ioutil_WriteFile file data perm) ->
    mode_of (h c w).2 path = mode_of w path.

(** From [w] to [w'] a file that was there has kept its mode, and a file
    that was not there is not there or was created by a write of the
    reconciliation. *)
Definition modes_kept (w w' : W) : Prop :=
  forall path,
    match mode_of w path with
    | Some prior => mode_of w' path = Some prior
    | None =>
        mode_of w' path = None
        \/ mode_of w' path = Some (created_mode perm_0644 umask)
    end.

(** A file that was not there in [w] and that a write of the run [x] has
    written is there with the mode of a created file. *)
Definition created_by (w : W) (x : Outcome unit * W * list (Event Call Resp)) : Prop :=
  forall file data,
    In (Ev (ioutil_WriteFile file data perm_0644) None) (trace x) ->
    mode_of w file = None ->
    mode_of (world x) file = Some (created_mode perm_0644 umask).

Lemma modes_kept_same w w' :
  (forall path, mode_of w' path = mode_of w path) -> modes_kept w w'.
Proof. intros H path. rewrite H. destruct (mode_of w path); auto. Qed.

Lemma modes_kept_trans w1 w2 w3 :
  modes_kept w1 w2 -> modes_kept w2 w3 -> modes_kept w1 w3.
Proof.
  intros H12 H23 path. specialize (H12 path). specialize (H23 path).
  destruct (mode_of w1 path) as [prior |].
  - now rewrite H12 in H23.
  - destruct H12 as [H | H]; rewrite H in H23; [exact H23 | now right].
Qed.

Lemma log_keeps_modes format args w path :
  mode_of (h (log_Printf format args) w).2 path = mode_of w path.
Proof. apply other_calls_keep_modes. discriminate. Qed.

Lemma fetchOutputs_body_modes outputs key blob w :
  let x := run (fetchOutputs_body outputs key blob) h w in
  modes_kept w (world x) /\ created_by w x.
Proof.
  cbv zeta. unfold fetchOutputs_body, created_by.
  destruct (lookup_output outputs key) as [file |].
  - answer h (Blob_Read blob) w as r w1 E.
    assert (forall path, mode_of w1 path = mode_of w path) as H1.
    { intros path.
      pose proof (other_calls_keep_modes (Blob_Read blob) w path) as H.
      rewrite E in H. apply H. discriminate. }
    destruct r as [data | err]; cbv beta iota.
    + answer h (ioutil_WriteFile file data perm_0644) w1 as e w2 E'.
      destruct (WriteFile_modes file data perm_0644 w1) as [Ho Hf].
      rewrite E' in Ho, Hf. cbn [fst snd] in Ho, Hf.
      assert (modes_kept w w2) as Hk.
      { intros path. rewrite <- H1.
        destruct (String.eqb_spec path file) as [-> | Hne].
        - destruct (mode_of w1 file); [exact Hf |].
          destruct e; [exact Hf | now right].
        - rewrite (Ho path Hne). destruct (mode_of w1 path); auto. }
      destruct e as [err |]; cbv beta iota.
      * rewrite run_log. cbn [world trace fst snd]. split.
        -- eapply modes_kept_trans; [exact Hk |].
           apply modes_kept_same. intros path. apply log_keeps_modes.
        -- intros f d Hin. destruct Hin as [H | [H | [H | []]]];
             apply (f_equal written) in H; discriminate H.
      * rewrite run_ret. cbn [world trace fst snd]. split; [exact Hk |].
        intros f d Hin Hnone. destruct Hin as [H | [H | []]];
          apply (f_equal written) in H; cbn [written] in H; try discriminate H.
        injection H as <- _. rewrite <- H1 in Hnone. now rewrite Hnone in Hf.
    + rewrite run_log. cbn [world trace fst snd]. split.
      * apply modes_kept_same. intros path. now rewrite log_keeps_modes.
      * intros f d Hin. destruct Hin as [H | [H | []]];
          apply (f_equal written) in H; discriminate H.
  - rewrite run_log. cbn [world trace fst snd]. split.
    + apply modes_kept_same. intros path. apply log_keeps_modes.
    + intros f d Hin. destruct Hin as [H | []].
      apply (f_equal written) in H. discriminate H.
Qed.

Lemma fetchOutputs_loop_modes outputs entries w :
  let x := run (fetchOutputs_loop outputs entries) h w in
  modes_kept w (world x) /\ created_by w x.
Proof.
  cbv zeta. unfold created_by. revert w.
  induction entries as [| [key blob] rest IH]; intros w.
  - cbn [fetchOutputs_loop]. rewrite run_ret. cbn [world trace fst snd]. split.
    + now apply modes_kept_same.
    + intros f d [].
  - cbn [fetchOutputs_loop]. rewrite run_bind.
    destruct (fetchOutputs_body_modes outputs key blob w) as [Hk1 Hc1].
    unfold created_by in Hc1.
    destruct (fetchOutputs_body_reconciled h outputs key blob w) as (w1 & t1 & E1 & _).
    rewrite E1 in *. cbn [world trace fst snd] in Hk1, Hc1.
    destruct (IH w1) as [Hk2 Hc2].
    destruct (run (fetchOutputs_loop outputs rest) h w1) as [[o2 w2] t2].
    cbn [world trace fst snd] in *.
    split; [eapply modes_kept_trans; eassumption |].
    intros f d Hin Hnone. apply in_app_or in Hin as [Hin | Hin].
    + specialize (Hc1 f d Hin Hnone). specialize (Hk2 f). now rewrite Hc1 in Hk2.
    + pose proof (Hk1 f) as Hf. rewrite Hnone in Hf. destruct Hf as [Hf | Hf].
      * exact (Hc2 f d Hin Hf).
      * specialize (Hk2 f). now rewrite Hf in Hk2.
Qed.

(** C10, as amended.  Every write of the reconciliation of outputs is a
    call of [ioutil.WriteFile] with the permission argument 0644, to the
    destination the map gives for an output of the response and with the
    bytes fetched for it; the argument is a constant, so that no mode of
    the remote side has a part in it.  On a file system that does what
    the documentation of [ioutil.WriteFile] says, a destination written
    with success that was there before has the mode it had, and one that
    was not there has the mode 0644 less the bits of the umask; and every
    file that was there has kept its mode. *)
Theorem fetchOutputs_modes_on_disk (outputs : OutputMap)
  (resp : InvocationResponse) (w : W) :
  let x := run (fetchOutputs outputs resp) h w in
  (forall file data perm,
      In (ioutil_WriteFile file data perm) (calls (trace x)) ->
      perm = perm_0644
      /\ exists key blob,
          In (key, blob) (Outputs resp)
          /\ lookup_output outputs key = Some file
          /\ In (Ev (Blob_Read blob) (Ok data)) (trace x))
  /\ (forall file data,
        In (Ev (ioutil_WriteFile file data perm_0644) None) (trace x) ->
        mode_of (world x) file
        = match mode_of w file with
          | Some prior => Some prior
          | None => Some (created_mode perm_0644 umask)
          end)
  /\ (forall path prior,
        mode_of w path = Some prior -> mode_of (world x) path = Some prior).
Proof.
  cbv zeta.
  destruct (fetchOutputs_loop_modes outputs (Outputs resp) w) as [Hk Hc].
  unfold created_by in Hc. unfold fetchOutputs.
  split; [| split].
  - intros file data perm Hin.
    exact (proj1 (fetchOutputs_write_calls h outputs resp w) file data perm Hin).
  - intros file data Hin. specialize (Hk file).
    destruct (mode_of w file) as [prior |] eqn:Hm; [exact Hk |].
    exact (Hc file data Hin Hm).
  - intros path prior Hm. specialize (Hk path). now rewrite Hm in Hk.
Qed.

End Modes.

(** The mode of the outputs in the words of the specification: every
    destination written with success has the mode 0644, whatever its mode
    was before. *)
Definition written_with_mode_0644 {W : Type} (h : Handler Call Resp W)
  (mode_of : W -> string -> option Z) (outputs : OutputMap)
  (resp : InvocationResponse) (w : W) : Prop :=
  let x := run (fetchOutputs outputs resp) h w in
  forall file data,
    In (Ev (ioutil_WriteFile file data perm_0644) None) (trace x) ->
    mode_of (world x) file = Some perm_0644.

Lemma fetchOutputs_returns {W} outputs resp :
  @returns Call Resp W unit (fetchOutputs outputs resp).
Proof.
  intros h w. exists tt. unfold fetchOutputs.
  destruct (fetchOutputs_loop_reconciled h outputs (Outputs resp) w) as (w' & ts & -> & _).
  now split.
Qed.

(** ** cmd/llama/invoke.go: the orchestration of an invocation *)

(** The remote dispatch is the call of [llama.Invoke]; every other call is
    local. *)
Definition is_dispatch (c : Call) : bool :=
  match c with
  | llama_Invoke _ => true
  | _ => false
  end.

Definition local (c : Call) : Prop := is_dispatch c = false.

(** The answer of an event that is a dispatch. *)
Definition dispatched (ev : Event Call Resp) : option (result InvokeResult) :=
  match ev with
  | Ev c r =>
      match c return Resp c -> option (result InvokeResult) with
      | llama_Invoke _ => fun r => Some r
      | _ => fun _ => None
      end r
  end.

Lemma local_not_dispatched (t : list (Event Call Resp)) a r :
  Forall local (calls t) -> ~ In (Ev (llama_Invoke a) r) t.
Proof.
  intros Hall Hin. rewrite List.Forall_forall in Hall.
  specialize (Hall (llama_Invoke a)). unfold local in Hall. cbn in Hall.
  assert (In (llama_Invoke a) (calls t)) as H by (apply calls_In; now exists r).
  specialize (Hall H). discriminate.
Qed.

Ltac all_local :=
  repeat match goal with
         | |- @calls_all ?C ?Rs ?Wd _ ?P ?m =>
             lazymatch m with
             | @mret _ _ _ _ => apply calls_all_ret
             | @os_Exit _ _ _ _ _ => apply calls_all_exit
             | @panic _ _ _ _ _ => apply calls_all_panic
             | @call _ _ _ ?c => apply (@calls_all_call C Rs Wd P c); exact eq_refl
             | @mbind _ _ _ _ _ _ => apply calls_all_bind; [| intros ?]
             | match ?x with _ => _ end => destruct x
             end
         end.

Section Local.
Context {W : Type}.
Variable json_Marshal : ArgSpec -> result RawMessage.

Abbreviation prog := (M Call Resp W).

Lemma local_Prepare_loop fs acc :
  calls_all local (Prepare_loop fs acc : prog _).
Proof.
  revert acc. induction fs as [| file rest IH]; intros acc; cbn [Prepare_loop].
  - all_local.
  - all_local. apply IH.
Qed.

Lemma local_Execute_stdin c : calls_all local (Execute_stdin c : prog _).
Proof. unfold Execute_stdin. all_local. Qed.

Lemma local_Execute_files c : calls_all local (Execute_files c : prog _).
Proof.
  unfold Execute_files, fileList_Prepare.
  destruct (0 <? _); [| all_local].
  apply calls_all_bind; [| intros ?; all_local].
  destruct (files (cmd_files c)); [all_local |].
  apply calls_all_bind; [apply local_Prepare_loop | intros ?; all_local].
Qed.

Lemma local_parseArgSpec outputs arg :
  calls_all local (parseArgSpec outputs arg : prog _).
Proof. unfold parseArgSpec. all_local. Qed.

Lemma local_parseArg outputs arg :
  calls_all local (parseArg json_Marshal outputs arg : prog _).
Proof.
  unfold parseArg, log_Fatal.
  apply calls_all_bind; [apply local_parseArgSpec | intros [o r]].
  all_local.
Qed.

Lemma local_prepareArgs_loop i args out outputs :
  calls_all local (prepareArgs_loop json_Marshal i args out outputs : prog _).
Proof.
  revert i out outputs.
  induction args as [| arg rest IH]; intros i out outputs; cbn [prepareArgs_loop].
  - all_local.
  - apply calls_all_bind; [apply local_parseArg | intros [o r]].
    destruct r; [apply IH | all_local].
Qed.

Lemma local_prepareArgs args :
  calls_all local (prepareArgs json_Marshal args : prog _).
Proof. apply local_prepareArgs_loop. Qed.

Lemma local_fetchOutputs outputs resp :
  calls_all local (fetchOutputs outputs resp : prog _).
Proof.
  unfold fetchOutputs. induction (Outputs resp) as [| [key blob] rest IH];
    cbn [fetchOutputs_loop].
  - all_local.
  - apply calls_all_bind; [unfold fetchOutputs_body; all_local | intros _; exact IH].
Qed.

Lemma local_copy_stream b what write :
  (forall data, local (write data)) ->
  calls_all local (copy_stream b what write : prog _).
Proof.
  intros Hw. unfold copy_stream. all_local.
  match goal with
  | |- @calls_all ?C ?Rs ?Wd _ ?P ?m =>
      match m with
      | @call _ _ _ ?c => apply (@calls_all_call C Rs Wd P c); apply Hw
      end
  end.
Qed.

Lemma returns_copy_stream b what write :
  returns (copy_stream b what write : prog _).
Proof.
  unfold copy_stream, returns. destruct b as [blob |]; [| now apply yields_ret].
  eapply yields_bind; [apply (@returns_call Call Resp W (Blob_Read blob)) | intros r _].
  destruct r as [data | err].
  - eapply yields_bind; [apply (@returns_call Call Resp W (write data)) | intros; now apply yields_ret].
  - eapply yields_bind; [apply (@returns_call Call Resp W (log_Printf what [Ferr err]))
                        | intros; now apply yields_ret].
Qed.

Lemma local_Execute_reconcile outputs response :
  calls_all local (Execute_reconcile outputs response : prog _).
Proof.
  unfold Execute_reconcile.
  apply calls_all_bind; [all_local | intros _].
  apply calls_all_bind; [apply local_fetchOutputs | intros _].
  apply calls_all_bind; [apply local_copy_stream; intros; exact eq_refl | intros _].
  apply calls_all_bind; [apply local_copy_stream; intros; exact eq_refl | intros _].
  all_local.
Qed.

Lemma yields_Execute_reconcile outputs response :
  yields (Execute_reconcile outputs response : prog _)
    (fun status => status = ExitStatus_ (Response response)).
Proof.
  unfold Execute_reconcile.
  apply (yields_bind _ _ (fun _ => True)); [| intros _ _].
  { destruct (Logs response) as [l |]; [| now apply yields_ret].
    apply (@returns_call Call Resp W (Stderr_Fprintf logs_banner l)). }
  eapply yields_bind; [apply fetchOutputs_returns | intros _ _].
  eapply yields_bind; [apply returns_copy_stream | intros _ _].
  eapply yields_bind; [apply returns_copy_stream | intros _ _].
  now apply yields_ret.
Qed.

Lemma returns_Prepare_loop fs acc : returns (Prepare_loop fs acc : prog _).
Proof.
  revert acc. induction fs as [| file rest IH]; intros acc; cbn [Prepare_loop].
  - now apply yields_ret.
  - eapply yields_bind;
      [apply (@returns_call Call Resp W (ioutil_ReadFile (source file))) | intros r _].
    destruct r as [data | err]; [| now apply yields_ret].
    eapply yields_bind;
      [apply (@returns_call Call Resp W (os_Stat (source file))) | intros st _].
    destruct st as [mode | err]; [| now apply yields_ret].
    eapply yields_bind;
      [apply (@returns_call Call Resp W (protocol_NewBlob data)) | intros b _].
    destruct b as [blob | err]; [apply IH | now apply yields_ret].
Qed.

Lemma returns_parseArgSpec outputs arg : returns (parseArgSpec outputs arg : prog _).
Proof.
  unfold parseArgSpec, returns.
  repeat match goal with
         | |- @yields ?C ?Rs ?Wd _ ?m _ =>
             lazymatch m with
             | @mret _ _ _ _ => now apply yields_ret
             | @call _ _ _ ?c => apply (@returns_call C Rs Wd c)
             | @mbind _ _ _ _ _ _ =>
                 apply (yields_bind _ _ (fun _ => True)); [| intros ? _]
             | match ?x with _ => _ end => destruct x
             end
         end.
Qed.

(** [parseArg] and [prepareArgs] return, or end the process with the
    status 1 when [json.Marshal] fails. *)
Lemma ends_parseArg outputs arg : ends (parseArg json_Marshal outputs arg : prog _) 1.
Proof.
  unfold parseArg. apply ends_bind.
  - apply (ends_returns _ _ _ (returns_parseArgSpec outputs arg)).
  - intros [o r]. destruct r as [argSpec | err].
    + destruct (json_Marshal argSpec) as [word | err].
      * apply (ends_returns _ (fun _ => True)). now apply yields_ret.
      * unfold log_Fatal. apply ends_bind; [| intros _; apply ends_exit].
        apply (ends_returns _ (fun _ => True)).
        apply (@returns_call Call Resp W (log_Print [Fstr "marshal: "; Ferr err])).
    + apply (ends_returns _ (fun _ => True)). now apply yields_ret.
Qed.

Lemma ends_prepareArgs_loop i args out outputs :
  ends (prepareArgs_loop json_Marshal i args out outputs : prog _) 1.
Proof.
  revert i out outputs.
  induction args as [| arg rest IH]; intros i out outputs; cbn [prepareArgs_loop].
  - apply (ends_returns _ (fun _ => True)). now apply yields_ret.
  - apply ends_bind; [apply ends_parseArg | intros [o r]].
    destruct r as [word | err]; [apply IH |].
    apply (ends_returns _ (fun _ => True)). now apply yields_ret.
Qed.

(** The status returned early by the first two steps of [Execute] is
    [ExitFailure]. *)
Lemma Execute_stdin_status c :
  yields (Execute_stdin c : prog _) (fun s => forall st, s = inr st -> st = ExitFailure).
Proof.
  unfold Execute_stdin. destruct (stdin c); [| now apply yields_ret].
  eapply yields_bind;
    [apply (@returns_call Call Resp W ioutil_ReadAll_Stdin) | intros r _].
  destruct r as [data | err].
  - eapply yields_bind;
      [apply (@returns_call Call Resp W (protocol_NewBlob data)) | intros b _].
    destruct b as [blob | err]; [now apply yields_ret |].
    eapply yields_bind;
      [apply (@returns_call Call Resp W (log_Printf "writing to store: %s" [Ferr err]))
      | intros _ _].
    apply yields_ret. now intros st [= <-].
  - eapply yields_bind;
      [apply (@returns_call Call Resp W (log_Printf "reading stdin: %s" [Ferr err]))
      | intros _ _].
    apply yields_ret. now intros st [= <-].
Qed.

Lemma Execute_files_status c :
  yields (Execute_files c : prog _) (fun s => forall st, s = inr st -> st = ExitFailure).
Proof.
  unfold Execute_files. destruct (0 <? _); [| now apply yields_ret].
  apply (yields_bind _ _ (fun _ => True)).
  - unfold fileList_Prepare. destruct (files (cmd_files c)) as [| file rest];
      [now apply yields_ret |].
    eapply yields_bind; [apply returns_Prepare_loop | intros r _].
    destruct r; now apply yields_ret.
  - intros r _. destruct r as [fs | err]; [now apply yields_ret |].
    eapply yields_bind;
      [apply (@returns_call Call Resp W (log_Println [Ferr err])) | intros _ _].
    apply yields_ret. now intros st [= <-].
Qed.

End Local.

Section Orchestrate.
Context {W : Type}.
Variable h : Handler Call Resp W.
Variable json_Marshal : ArgSpec -> result RawMessage.

(** A dispatch in the events of a sequence whose first part is local is
    in what follows that part. *)
Lemma dispatch_after_local {A B} (m : M Call Resp W A) (k : A -> M Call Resp W B)
  w a r :
  calls_all local m ->
  In (Ev (llama_Invoke a) r) (trace (run (m ≫= k) h w)) ->
  exists x w1 t1,
    run m h w = (Returned x, w1, t1)
    /\ In (Ev (llama_Invoke a) r) (trace (run (k x) h w1)).
Proof.
  intros Hl Hin. apply trace_bind_In in Hin as [Hin | Hin]; [| exact Hin].
  exfalso. now apply (local_not_dispatched _ a r (Hl h w)).
Qed.

Lemma no_dispatch_in_local {A} (m : M Call Resp W A) w a r :
  calls_all local m -> ~ In (Ev (llama_Invoke a) r) (trace (run m h w)).
Proof. intros Hl. apply local_not_dispatched, Hl. Qed.

Lemma Execute_dispatch_status c function spec outputs w args response :
  In (Ev (llama_Invoke args) (Ok response))
     (trace (run (Execute_dispatch c function spec outputs) h w)) ->
  outcome (run (Execute_dispatch c function spec outputs) h w)
  = Returned (ExitStatus_ (Response response)).
Proof.
  unfold Execute_dispatch.
  set (inv := llama_Invoke {| Function := function; Spec := spec; ReturnLogs := logs c |}).
  answer h inv w as r w1 E. destruct r as [resp | err]; cbv beta iota.
  - pose proof (local_Execute_reconcile outputs resp h w1) as Hl.
    destruct (yields_Execute_reconcile outputs resp h w1) as (status & Ho & ->).
    destruct (run (Execute_reconcile outputs resp) h w1) as [[o w2] t2].
    cbn [trace outcome fst snd] in *. subst o. intros [Hhd | Htl].
    + apply (f_equal dispatched) in Hhd. cbn in Hhd. now injection Hhd as ->.
    + exfalso. now apply (local_not_dispatched _ args (Ok response) Hl).
  - match goal with
    | |- context [run ?m h w1] =>
        assert (calls_all local m) as Hl by (unfold log_Fatalf; all_local);
        specialize (Hl h w1); destruct (run m h w1) as [[o w2] t2]
    end.
    cbn [trace outcome fst snd] in *. intros [Hhd | Htl].
    + apply (f_equal dispatched) in Hhd. cbn in Hhd. discriminate Hhd.
    + exfalso. now apply (local_not_dispatched _ args (Ok response) Hl).
Qed.

(** C9.  When [llama.Invoke] was called and returned a response, the
    command returns the exit status of that response, whatever happens
    while outputs, standard error and standard output are reconciled. *)
Theorem Execute_exit_status (c : InvokeCommand) (flag_Args : list string) (w : W)
  (args : InvokeArgs) (response : InvokeResult) :
  In (Ev (llama_Invoke args) (Ok response))
     (trace (run (Execute json_Marshal c flag_Args) h w)) ->
  outcome (run (Execute json_Marshal c flag_Args) h w)
  = Returned (ExitStatus_ (Response response)).
Proof.
  intros Hin. unfold Execute in *.
  apply dispatch_after_local in Hin as (s & w1 & t1 & E1 & Hin);
    [| apply local_Execute_stdin].
  rewrite (outcome_bind _ _ h w s w1 t1 E1).
  destruct s as [spec_Stdin | status]; [| destruct Hin].
  apply dispatch_after_local in Hin as (f & w2 & t2 & E2 & Hin);
    [| apply local_Execute_files].
  rewrite (outcome_bind _ _ h w1 f w2 t2 E2).
  destruct f as [spec_Files | status]; [| destruct Hin].
  destruct flag_Args as [| function rest]; [destruct Hin |].
  apply dispatch_after_local in Hin as (p & w3 & t3 & E3 & Hin);
    [| apply local_prepareArgs].
  rewrite (outcome_bind _ _ h w2 p w3 t3 E3).
  destruct p as [[spec_Args outputs] | err].
  - now apply Execute_dispatch_status in Hin.
  - exfalso. revert Hin. apply no_dispatch_in_local. all_local.
Qed.

(** *** Tokens that argument preparation refuses *)

(** A path that cannot be read, whatever the state of the world. *)
Definition unreadable (path : string) : Prop :=
  forall w, exists err w', h (ioutil_ReadFile path) w = (Err err, w').

(** A prefix that the argument grammar does not know. *)
Definition unrecognized (pfx : string) : Prop :=
  pfx <> "" /\ lacks "@" pfx
  /\ pfx <> "i" /\ pfx <> "io" /\ pfx <> "o" /\ pfx <> "raw".

(** A token with the prefix [i] or [io] and an unreadable path, or with
    an unrecognized prefix. *)
Inductive rejected : string -> Prop :=
| rejected_unreadable pfx rest :
    pfx = "i" \/ pfx = "io" -> unreadable rest ->
    rejected (pfx +:+ String "@" rest)
| rejected_unrecognized pfx rest :
    unrecognized pfx -> rejected (pfx +:+ String "@" rest).

Lemma parseArgSpec_unreadable outputs pfx rest w err w' :
  pfx = "i" \/ pfx = "io" ->
  h (ioutil_ReadFile rest) w = (Err err, w') ->
  run (parseArgSpec outputs (pfx +:+ String "@" rest)) h w =
  (Returned (outputs, Err (ErrorfW "Reading file: %q: %w" [rest] err)),
   w', [Ev (ioutil_ReadFile rest) (Err err)]).
Proof.
  intros Hp Hr.
  assert (pfx <> "" /\ lacks "@" pfx) as [Hne Hl].
  { destruct Hp as [-> | ->]; (split; [discriminate |]);
      apply strings_IndexByte_lacks; reflexivity. }
  destruct (split_at_first pfx rest Hne Hl) as (E1 & E2 & E3).
  unfold parseArgSpec. rewrite E1, E2, E3.
  assert (String.eqb pfx "i" || String.eqb pfx "io" = true) as ->
    by (destruct Hp as [-> | ->]; reflexivity).
  rewrite (run_bind_one _ _ h w (Err err) w' (Ev (ioutil_ReadFile rest) (Err err)))
    by (unfold run, call; rewrite Hr; reflexivity).
  reflexivity.
Qed.

Lemma parseArgSpec_unrecognized outputs pfx rest w :
  unrecognized pfx ->
  run (parseArgSpec outputs (pfx +:+ String "@" rest)) h w =
  (Returned (outputs, Err (Errorf "Unrecognize argspec: %s@..." [pfx])), w, []).
Proof.
  intros (Hne & Hl & Hi & Hio & Ho & Hraw).
  destruct (split_at_first pfx rest Hne Hl) as (E1 & E2 & E3).
  unfold parseArgSpec. rewrite E1, E2, E3.
  apply String.eqb_neq in Hi, Hio, Ho, Hraw. rewrite Hi, Hio, Ho, Hraw.
  reflexivity.
Qed.

(** An error of [parseArgSpec] is the error of [parseArg]. *)
Lemma parseArg_error outputs arg w outputs' err w' t :
  run (parseArgSpec outputs arg) h w = (Returned (outputs', Err err), w', t) ->
  run (parseArg json_Marshal outputs arg) h w = (Returned (outputs', Err err), w', t).
Proof.
  intros E. unfold parseArg. rewrite run_bind, E. cbn. now rewrite app_nil_r.
Qed.

Lemma parseArg_rejected outputs tok w :
  rejected tok ->
  exists err w' t,
    run (parseArg json_Marshal outputs tok) h w = (Returned (outputs, Err err), w', t).
Proof.
  intros [pfx rest Hp Hu | pfx rest Hu].
  - destruct (Hu w) as (err & w' & Hr). eexists _, _, _.
    apply parseArg_error. eapply parseArgSpec_unreadable; eassumption.
  - eexists _, _, _. apply parseArg_error. now apply parseArgSpec_unrecognized.
Qed.






End Orchestrate.

(** ** The theorems at the sample world *)

Import Samples.

Lemma prepareArgs_renamed_output_collides_witness :
  run (prepareArgs marshal ["o@2-a"; "o@a"; "o@a"]) invoke_world tt =
  (Returned (Ok ([list_byte_of_string "2-a"; list_byte_of_string "a";
                  list_byte_of_string "2-a"],
                 Some {[ "2-a" := "a"; "a" := "a" ]})),
   tt, []).
Proof.
  apply (prepareArgs_renamed_output_collides invoke_world marshal tt); reflexivity.
Defined.

Lemma parseArg_literal_cases_witness :
  run (parseArg marshal None "raw@1@3") invoke_world tt =
  (Returned (None, Ok (list_byte_of_string "1@3")), tt, []).
Proof.
  apply (proj1 (proj2 (proj2 (parseArg_literal_cases invoke_world marshal None
                                "raw@1@3" tt)))
           "1@3" (list_byte_of_string "1@3")); reflexivity.
Defined.

Example fetchOutputs_write_calls_sample :
  let r := run (fetchOutputs (Some {[ "out.txt" := "build/out.txt" ]})
                  (Response response0)) invoke_world tt in
  (420 = 420
   /\ exists key blob,
       In (key, blob) (Outputs (Response response0))
       /\ lookup_output (Some {[ "out.txt" := "build/out.txt" ]}) key
          = Some "build/out.txt"
       /\ In (Ev (Blob_Read blob) (Ok (list_byte_of_string "hello"))) (trace r))
  /\ exists key file,
      In (key, blob0) (Outputs (Response response0))
      /\ lookup_output (Some {[ "out.txt" := "build/out.txt" ]}) key = Some file
      /\ In (ioutil_WriteFile file (list_byte_of_string "hello") 420)
            (calls (trace r)).
Proof.
  cbv zeta. split.
  - apply (fetchOutputs_write_calls invoke_world
             (Some {[ "out.txt" := "build/out.txt" ]}) (Response response0) tt).
    vm_compute. right. left. reflexivity.
  - apply (fetchOutputs_write_calls invoke_world
             (Some {[ "out.txt" := "build/out.txt" ]}) (Response response0) tt).
    vm_compute. left. reflexivity.
Defined.

(** [disk_world] does what [fetchOutputs_modes_on_disk] asks of the file
    system. *)
Lemma disk_world_WriteFile umask file data perm (w : Disk) :
  (forall path, path <> file ->
      disk_mode (disk_world umask (ioutil_WriteFile file data perm) w).2 path
      = disk_mode w path)
  /\ match disk_mode w file with
     | Some prior =>
         disk_mode (disk_world umask (ioutil_WriteFile file data perm) w).2 file
         = Some prior
     | None =>
         match (disk_world umask (ioutil_WriteFile file data perm) w).1 with
         | None =>
             disk_mode (disk_world umask (ioutil_WriteFile file data perm) w).2 file
             = Some (created_mode perm umask)
         | Some _ =>
             disk_mode (disk_world umask (ioutil_WriteFile file data perm) w).2 file
             = None
             \/ disk_mode (disk_world umask (ioutil_WriteFile file data perm) w).2 file
                = Some (created_mode perm umask)
         end
     end.
Proof.
  unfold disk_mode. cbn [disk_world fst snd]. unfold Disk in *. split.
  - intros path Hne. now rewrite lookup_insert_ne by congruence.
  - rewrite lookup_insert_eq. now destruct (w !! file) as [[prior old] |].
Qed.

Lemma disk_world_other_calls umask c (w : Disk) path :
  (forall file data perm, c <> ioutil_WriteFile file data perm) ->
  disk_mode (disk_world umask c w).2 path = disk_mode w path.
Proof.
  intros Hc. destruct c; cbn [disk_world]; try reflexivity.
  - now destruct (w !! filename) as [[mode data] |].
  - now destruct (w !! name) as [[mode data] |].
  - now destruct (Hc filename data perm).
Qed.

(** The destination [out.txt] is there with the mode 0600 and keeps it;
    the umask is 0022. *)
Lemma fetchOutputs_modes_on_disk_witness :
  let x := run (fetchOutputs (Some {[ "out.txt" := "out.txt"; "stray" := "new.txt" ]})
                  (Response response0)) (disk_world umask_0022) disk0 in
  disk_mode (world x) "out.txt" = Some mode_0600
  /\ disk_mode (world x) "new.txt" = Some (created_mode perm_0644 umask_0022).
Proof.
  cbv zeta.
  pose proof (fetchOutputs_modes_on_disk (disk_world umask_0022) disk_mode umask_0022
                (disk_world_WriteFile umask_0022) (disk_world_other_calls umask_0022)
                (Some {[ "out.txt" := "out.txt"; "stray" := "new.txt" ]})
                (Response response0) disk0) as (_ & Hw & _).
  split.
  - apply (Hw "out.txt" (list_byte_of_string "hello")).
    vm_compute. right. left. reflexivity.
  - apply (Hw "new.txt" (list_byte_of_string "hello")).
    vm_compute. do 3 right. left. reflexivity.
Defined.

(** C10, as stated, on a disk where the destination is there with the
    mode 0600, the umask being 0: the output is fetched and written with
    success, and the mode of the destination is 0600 afterwards, not
    0644. *)
Lemma fetchOutputs_keeps_prior_mode :
  let outputs : OutputMap := Some {[ "out.txt" := "out.txt" ]} in
  let x := run (fetchOutputs outputs (Response response0)) (disk_world 0) disk0 in
  In (Ev (ioutil_WriteFile "out.txt" (list_byte_of_string "hello") perm_0644) None)
     (trace x)
  /\ disk_mode (world x) "out.txt" = Some mode_0600
  /\ ~ written_with_mode_0644 (disk_world 0) disk_mode outputs (Response response0)
        disk0.
Proof.
  cbv zeta. split; [| split].
  - vm_compute. right. left. reflexivity.
  - vm_compute. reflexivity.
  - intros H.
    specialize (H "out.txt" (list_byte_of_string "hello")).
    assert (disk_mode
              (world (run (fetchOutputs (Some {[ "out.txt" := "out.txt" ]})
                             (Response response0)) (disk_world 0) disk0)) "out.txt"
            = Some mode_0600) as Hm by (vm_compute; reflexivity).
    rewrite Hm in H. discriminate H.
    vm_compute. right. left. reflexivity.
Qed.


Lemma Execute_exit_status_witness :
  outcome (run (Execute marshal command0 ["fn"; "o@out.txt"]) invoke_world tt)
  = Returned 3.
Proof.
  apply (Execute_exit_status invoke_world marshal command0 ["fn"; "o@out.txt"] tt
           {| Function := "fn";
              Spec := {| Stdin := None; Files := None;
                         Args := [list_byte_of_string "out.txt"] |};
              ReturnLogs := false |}
           response0).
  vm_compute. left. reflexivity.
Defined.


(** The run of the last example: the file is looked for, the error is
    logged, and [Execute] returns [ExitFailure]. *)
Example Execute_missing_input :
  run (Execute marshal command0 ["fn"; "x"; "io@missing.txt"]) invoke_world tt =
  (Returned ExitFailure, tt,
   [Ev (ioutil_ReadFile "missing.txt") (Err (OpError "open" (Errno ENOENT)));
    Ev (log_Println
          [Fstr "preparing arguments: ";
           Ferr (ErrorfW "Reading file: %q: %w" ["missing.txt"]
                   (OpError "open" (Errno ENOENT)))]) tt]).
Proof. vm_compute. reflexivity. Qed.

(** A run in which everything succeeds: the dispatch, the fetch of
    [out.txt] and its write with mode 0644, the log of the output nobody
    asked for, and the exit status of the response. *)
Example Execute_one_output :
  let r := run (Execute marshal command0 ["fn"; "o@build/out.txt"]) invoke_world tt in
  outcome r = Returned 3
  /\ skipn 1 (calls (trace r)) =
     [Blob_Read blob0;
      ioutil_WriteFile "build/out.txt" (list_byte_of_string "hello") 420;
      log_Printf "Unexpected output: %q" [Fstr "stray"]].
Proof. vm_compute. split; reflexivity. Qed.

End InvokeSpec.

(** ** daemon/server.go: the endpoint and the bootstrap *)

Module DaemonSpec.
Import Go Effects GoFacts EffectsFacts Daemon.

Section Endpoint.
Variable path_Join : list string -> string.

(** A variable of the environment that is not set, or set to the empty
    string. *)
Definition unset (env : Environ) (key : string) : Prop :=
  environ env !! key = None \/ environ env !! key = Some "".

Lemma os_Getenv_set env key v : environ env !! key = Some v -> os_Getenv env key = v.
Proof. unfold os_Getenv. now intros ->. Qed.

Lemma os_Getenv_unset env key : unset env key -> os_Getenv env key = "".
Proof. unfold os_Getenv. now intros [-> | ->]. Qed.

Lemma eqb_empty_false s : s <> "" -> String.eqb s "" = false.
Proof. intros H. now apply String.eqb_neq. Qed.

(** C8.  The endpoint is the value of [LLAMA_SOCKET] when that variable is
    set and not empty; otherwise the path [.llama/llama.sock] joined to
    the value of [HOME] when that one is set and not empty; otherwise
    [/run/llama-<uid>/llama.sock] for the user id of the process. *)
Theorem SocketPath_precedence (env : Environ) :
  (forall sock,
      environ env !! "LLAMA_SOCKET" = Some sock -> sock <> "" ->
      SocketPath path_Join env = sock)
  /\ (forall home,
        unset env "LLAMA_SOCKET" ->
        environ env !! "HOME" = Some home -> home <> "" ->
        SocketPath path_Join env = path_Join [home; ".llama"; "llama.sock"])
  /\ (unset env "LLAMA_SOCKET" -> unset env "HOME" ->
      SocketPath path_Join env
      = "/run/llama-" +:+ format_d (uid env) +:+ "/llama.sock").
Proof.
  unfold SocketPath. repeat split.
  - intros sock Hs Hne. rewrite (os_Getenv_set _ _ _ Hs).
    now rewrite (eqb_empty_false _ Hne).
  - intros home Hs Hh Hne. rewrite (os_Getenv_unset _ _ Hs).
    rewrite (os_Getenv_set _ _ _ Hh). cbn. now rewrite (eqb_empty_false _ Hne).
  - intros Hs Hh. rewrite (os_Getenv_unset _ _ Hs), (os_Getenv_unset _ _ Hh).
    reflexivity.
Qed.

End Endpoint.

Section Bootstrap.
Context {W : Type}.
Variable h : Handler Call Resp W.
Variable path_Join : list string -> string.
Variable path_Dir : string -> string.
Variable env : Environ.

Let sock : string := SocketPath path_Join env.
Let dir : string := path_Dir sock.
Let Start_ : M Call Resp W (option error) := Start path_Join path_Dir env.

Lemma run_unit (c : Call) (u : Resp c) {B} (k : Resp c -> M Call Resp W B) w :
  (forall x : Resp c, x = u) ->
  run (call c ≫= k) h w =
  match run (k u) h (h c w).2 with
  | (o, w2, t2) => (o, w2, Ev c u :: t2)
  end.
Proof.
  intros Hu. rewrite run_bind, run_call. rewrite (Hu (h c w).1). reflexivity.
Qed.

(** [step H] moves past the call whose answer is given by [H]. *)
Ltac step H :=
  match type of H with
  | ?h ?c ?w = (?r, ?w1) =>
      rewrite (run_bind_one _ _ h w r w1 (Ev c r))
        by (unfold run, call; rewrite H; reflexivity);
      cbv beta iota
  end.

(** *** Lines 32-50: the bind and the recovery from a stale endpoint *)

Section Conflict.
Variables (w1 w2 : W) (err : error).
Hypothesis Hlisten : h (net_Listen "unix" sock) w1 = (Err err, w2).
Hypothesis Hinuse : errors_Is err EADDRINUSE = true.

Lemma Start_bind_live c w3 w4 :
  h (rpc_DialHTTP "unix" sock) w2 = (Ok c, w3) ->
  h (Client_Ping {| conn := c |}) w3 = (None, w4) ->
  run (Start_bind path_Join env sock) h w1 =
  (Returned (inr ErrAlreadyRunning), w4,
   [Ev (net_Listen "unix" sock) (Err err);
    Ev (rpc_DialHTTP "unix" sock) (Ok c);
    Ev (Client_Ping {| conn := c |}) None]).
Proof.
  intros Hd Hp. unfold Start_bind. step Hlisten. rewrite Hinuse.
  rewrite run_bind. unfold Dial. fold sock. step Hd. rewrite run_ret. cbv beta iota.
  step Hp. reflexivity.
Qed.

Lemma Start_bind_ping_fails c w3 w4 perr :
  h (rpc_DialHTTP "unix" sock) w2 = (Ok c, w3) ->
  h (Client_Ping {| conn := c |}) w3 = (Some perr, w4) ->
  run (Start_bind path_Join env sock) h w1 =
  (Returned (inr perr), w4,
   [Ev (net_Listen "unix" sock) (Err err);
    Ev (rpc_DialHTTP "unix" sock) (Ok c);
    Ev (Client_Ping {| conn := c |}) (Some perr)]).
Proof.
  intros Hd Hp. unfold Start_bind. step Hlisten. rewrite Hinuse.
  rewrite run_bind. unfold Dial. fold sock. step Hd. rewrite run_ret. cbv beta iota.
  step Hp. reflexivity.
Qed.

Lemma Start_bind_remove_fails derr w3 w4 rerr :
  h (rpc_DialHTTP "unix" sock) w2 = (Err derr, w3) ->
  h (os_Remove sock) w3 = (Some rerr, w4) ->
  run (Start_bind path_Join env sock) h w1 =
  (Returned (inr rerr), w4,
   [Ev (net_Listen "unix" sock) (Err err);
    Ev (rpc_DialHTTP "unix" sock) (Err derr);
    Ev (os_Remove sock) (Some rerr)]).
Proof.
  intros Hd Hrm. unfold Start_bind. step Hlisten. rewrite Hinuse.
  rewrite run_bind. unfold Dial. fold sock. step Hd. rewrite run_ret. cbv beta iota.
  step Hrm. reflexivity.
Qed.

Lemma Start_bind_stale derr w3 w4 l2 w5 :
  h (rpc_DialHTTP "unix" sock) w2 = (Err derr, w3) ->
  h (os_Remove sock) w3 = (None, w4) ->
  h (net_Listen "unix" sock) w4 = (l2, w5) ->
  run (Start_bind path_Join env sock) h w1 =
  (Returned (inl l2), w5,
   [Ev (net_Listen "unix" sock) (Err err);
    Ev (rpc_DialHTTP "unix" sock) (Err derr);
    Ev (os_Remove sock) None;
    Ev (net_Listen "unix" sock) l2]).
Proof.
  intros Hd Hrm Hl2. unfold Start_bind. step Hlisten. rewrite Hinuse.
  rewrite run_bind. unfold Dial. fold sock. step Hd. rewrite run_ret. cbv beta iota.
  step Hrm. step Hl2. reflexivity.
Qed.

End Conflict.

(** *** [Start] around the bind *)

Section Around.
Variables (w0 w1 w2 : W) (t : list (Event Call Resp)).
Hypothesis Hmkdir : h (os_MkdirAll dir perm_0700) w0 = (None, w1).

Lemma Start_returns_error x e :
  run (Start_bind path_Join env sock) h w1 = (Returned x, w2, t) ->
  x = inr e \/ x = inl (Err e) ->
  outcome (run Start_ h w0) = Returned (Some e)
  /\ calls (trace (run Start_ h w0)) = os_MkdirAll dir perm_0700 :: calls t.
Proof.
  intros Hb Hx. unfold Start_, Start. fold sock. fold dir.
  step Hmkdir. rewrite run_bind, Hb.
  destruct Hx as [-> | ->]; rewrite run_ret; cbn [outcome trace fst snd];
    now rewrite app_nil_r.
Qed.

Lemma Start_serves listener :
  run (Start_bind path_Join env sock) h w1 = (Returned (inl (Ok listener)), w2, t) ->
  outcome (run Start_ h w0) = Returned None
  /\ calls (trace (run Start_ h w0)) =
     os_MkdirAll dir perm_0700 :: calls t
       ++ [rpcSrv_Register; go_Serve listener; ctx_Done; httpSrv_Shutdown].
Proof.
  intros Hb. unfold Start_, Start. fold sock. fold dir.
  step Hmkdir. rewrite run_bind, Hb. cbv beta iota.
  assert (forall u : unit, u = tt) as Hu by (now intros []).
  rewrite (run_unit rpcSrv_Register tt _ _ Hu).
  rewrite (run_unit (go_Serve listener) tt _ _ Hu).
  rewrite (run_unit ctx_Done tt _ _ Hu).
  rewrite (run_unit httpSrv_Shutdown tt _ _ Hu).
  rewrite run_ret. cbn [outcome trace fst snd]. split; [reflexivity |].
  unfold calls. rewrite map_cons, map_app. reflexivity.
Qed.

End Around.

(** C2, as amended.  The first bind fails because the endpoint is in use.
    If the daemon there answers the ping, [Start] returns
    [ErrAlreadyRunning] and binds nothing.  If no connection can be made,
    the endpoint file is removed and the bind is made once more: [Start]
    then serves and returns no error, or returns the error of the removal
    or of the second bind.  If the connection is made and the ping fails,
    [Start] returns the error of the ping; it removes nothing and does not
    bind again. *)
Theorem Start_endpoint_in_use (w0 w1 w2 : W) (err : error) :
  h (os_MkdirAll dir perm_0700) w0 = (None, w1) ->
  h (net_Listen "unix" sock) w1 = (Err err, w2) ->
  errors_Is err EADDRINUSE = true ->
  let r := run Start_ h w0 in
  let probe :=
    [os_MkdirAll dir perm_0700; net_Listen "unix" sock; rpc_DialHTTP "unix" sock] in
  (forall c w3 w4,
      h (rpc_DialHTTP "unix" sock) w2 = (Ok c, w3) ->
      h (Client_Ping {| conn := c |}) w3 = (None, w4) ->
      outcome r = Returned (Some ErrAlreadyRunning)
      /\ calls (trace r) = probe ++ [Client_Ping {| conn := c |}])
  /\ (forall derr w3 w4 listener w5,
        h (rpc_DialHTTP "unix" sock) w2 = (Err derr, w3) ->
        h (os_Remove sock) w3 = (None, w4) ->
        h (net_Listen "unix" sock) w4 = (Ok listener, w5) ->
        outcome r = Returned None
        /\ calls (trace r) =
           probe ++ [os_Remove sock; net_Listen "unix" sock;
                     rpcSrv_Register; go_Serve listener; ctx_Done; httpSrv_Shutdown])
  /\ (forall derr w3 w4 rerr,
        h (rpc_DialHTTP "unix" sock) w2 = (Err derr, w3) ->
        h (os_Remove sock) w3 = (Some rerr, w4) ->
        outcome r = Returned (Some rerr)
        /\ calls (trace r) = probe ++ [os_Remove sock])
  /\ (forall derr w3 w4 lerr w5,
        h (rpc_DialHTTP "unix" sock) w2 = (Err derr, w3) ->
        h (os_Remove sock) w3 = (None, w4) ->
        h (net_Listen "unix" sock) w4 = (Err lerr, w5) ->
        outcome r = Returned (Some lerr)
        /\ calls (trace r) = probe ++ [os_Remove sock; net_Listen "unix" sock])
  /\ (forall c w3 w4 perr,
        h (rpc_DialHTTP "unix" sock) w2 = (Ok c, w3) ->
        h (Client_Ping {| conn := c |}) w3 = (Some perr, w4) ->
        outcome r = Returned (Some perr)
        /\ calls (trace r) = probe ++ [Client_Ping {| conn := c |}]).
Proof.
  intros Hmk Hl Hu. cbv zeta. repeat apply conj.
  - intros c w3 w4 Hd Hp.
    pose proof (Start_bind_live w1 w2 err Hl Hu c w3 w4 Hd Hp) as Hb.
    exact (Start_returns_error w0 w1 w4 _ Hmk _ ErrAlreadyRunning Hb (or_introl eq_refl)).
  - intros derr w3 w4 listener w5 Hd Hrm Hl2.
    pose proof (Start_bind_stale w1 w2 err Hl Hu derr w3 w4 _ w5 Hd Hrm Hl2) as Hb.
    exact (Start_serves w0 w1 w5 _ Hmk listener Hb).
  - intros derr w3 w4 rerr Hd Hrm.
    pose proof (Start_bind_remove_fails w1 w2 err Hl Hu derr w3 w4 rerr Hd Hrm) as Hb.
    exact (Start_returns_error w0 w1 w4 _ Hmk _ rerr Hb (or_introl eq_refl)).
  - intros derr w3 w4 lerr w5 Hd Hrm Hl2.
    pose proof (Start_bind_stale w1 w2 err Hl Hu derr w3 w4 _ w5 Hd Hrm Hl2) as Hb.
    exact (Start_returns_error w0 w1 w5 _ Hmk _ lerr Hb (or_intror eq_refl)).
  - intros c w3 w4 perr Hd Hp.
    pose proof (Start_bind_ping_fails w1 w2 err Hl Hu c w3 w4 perr Hd Hp) as Hb.
    exact (Start_returns_error w0 w1 w4 _ Hmk _ perr Hb (or_introl eq_refl)).
Qed.

(** *** Lines 54-63: serving, the cancellation and the shutdown *)

Section Drain.

(** The requests the server is serving in a world, and whether the
    context of [Start] is cancelled there. *)
Variable in_flight : W -> nat.
Variable cancelled : W -> bool.

(** The receive [<-ctx.Done()] of line 61 gives control back in a world
    where the context is cancelled. *)
Hypothesis ctx_Done_cancelled : forall w, cancelled (h ctx_Done w).2 = true.

(** [Shutdown] of [net/http], given a context that is done: it returns the
    error of the context without waiting, and the requests that were
    being served are still being served. *)
Hypothesis Shutdown_context_done :
  forall w, cancelled w = true -> in_flight (h httpSrv_Shutdown w).2 = in_flight w.

(** When [Start] returns no error it has served, and the world it leaves
    is the one [Shutdown] leaves, called in the world in which the wait
    for the cancellation ended. *)
Lemma Start_served_world (w : W) :
  outcome (run Start_ h w) = Returned None ->
  exists w_s : W,
    world (run Start_ h w) = (h httpSrv_Shutdown (h ctx_Done w_s).2).2.
Proof.
  unfold Start_, Start. fold sock. fold dir.
  destruct (h (os_MkdirAll dir perm_0700) w) as [e w1] eqn:Hmk. step Hmk.
  destruct e as [err |]; [rewrite run_ret; discriminate |].
  rewrite run_bind.
  destruct (run (Start_bind path_Join env sock) h w1) as [[o w2] t2].
  destruct o as [[[listener | err] | err] | code | msg];
    try (rewrite run_ret); try discriminate.
  assert (forall u : unit, u = tt) as Hu by (now intros []).
  rewrite (run_unit rpcSrv_Register tt _ _ Hu).
  rewrite (run_unit (go_Serve listener) tt _ _ Hu).
  rewrite (run_unit ctx_Done tt _ _ Hu).
  rewrite (run_unit httpSrv_Shutdown tt _ _ Hu).
  rewrite run_ret. cbn [outcome world fst snd]. intros _. now eexists.
Qed.

(** C3.  The drain is not made.  [Start] passes to [Shutdown] the context
    whose cancellation it has just waited for (lines 61-62), and drops
    what [Shutdown] returns: when [Start] returns after serving, the
    requests that were in flight when the wait for the cancellation ended
    are all still in flight.  None of them was waited for. *)
Theorem Start_returns_before_drain (w : W) :
  let x := run Start_ h w in
  outcome x = Returned None ->
  exists w_s : W,
    let w_c := (h ctx_Done w_s).2 in
    cancelled w_c = true
    /\ world x = (h httpSrv_Shutdown w_c).2
    /\ in_flight (world x) = in_flight w_c.
Proof.
  cbv zeta. intros Ho. destruct (Start_served_world w Ho) as [w_s Hw].
  exists w_s. split; [apply ctx_Done_cancelled |]. split; [exact Hw |].
  rewrite Hw. apply Shutdown_context_done, ctx_Done_cancelled.
Qed.

End Drain.

End Bootstrap.

(** ** The theorems at the sample worlds *)

Import Samples.

(** The number of binds in a run. *)
Definition is_Listen (c : Call) : bool :=
  match c with
  | net_Listen _ _ => true
  | _ => false
  end.

Definition binds (t : list (Event Call Resp)) : nat :=
  length (List.filter is_Listen (calls t)).

Lemma SocketPath_precedence_witness :
  SocketPath join_clean environ0 = "/tmp/llama/llama.sock".
Proof.
  apply (SocketPath_precedence join_clean environ0); [reflexivity | discriminate].
Defined.

Example SocketPath_home :
  SocketPath join_clean environ_home = "/home/ada/.llama/llama.sock".
Proof. reflexivity. Qed.

Example SocketPath_fallback :
  SocketPath join_clean environ_bare = "/run/llama-1000/llama.sock".
Proof. reflexivity. Qed.

(** An endpoint file with nobody behind it: it is removed, the bind is
    made a second time and the daemon serves. *)
Lemma Start_endpoint_in_use_witness :
  let stale := {| sock_file := true; peer := Nobody |} in
  let r := run (Start join_clean dir_clean environ0) socket_world stale in
  outcome r = Returned None
  /\ calls (trace r) =
     [os_MkdirAll "/tmp/llama" perm_0700;
      net_Listen "unix" "/tmp/llama/llama.sock";
      rpc_DialHTTP "unix" "/tmp/llama/llama.sock";
      os_Remove "/tmp/llama/llama.sock";
      net_Listen "unix" "/tmp/llama/llama.sock";
      rpcSrv_Register; go_Serve 3%nat; ctx_Done; httpSrv_Shutdown].
Proof.
  cbv zeta.
  pose (stale := {| sock_file := true; peer := Nobody |}).
  pose (gone := {| sock_file := false; peer := Nobody |}).
  pose (bound := {| sock_file := true; peer := Healthy |}).
  apply (proj1 (proj2
           (Start_endpoint_in_use socket_world join_clean dir_clean environ0
              stale stale stale (OpError "listen" (Errno EADDRINUSE))
              eq_refl eq_refl eq_refl))
           (OpError "dial" (Errno ECONNREFUSED)) stale gone 3%nat bound);
    reflexivity.
Defined.

(** C2, as stated, at an endpoint whose peer accepts the connection and
    fails the ping: the probe fails, and yet the endpoint file is not
    removed, the bind is made once only, and the error of the ping is
    returned to the caller. *)
Lemma Start_failed_ping_not_recovered :
  let broken := {| sock_file := true; peer := Broken |} in
  let r := run (Start join_clean dir_clean environ0) socket_world broken in
  trace r =
    [Ev (os_MkdirAll "/tmp/llama" perm_0700) None;
     Ev (net_Listen "unix" "/tmp/llama/llama.sock")
        (Err (OpError "listen" (Errno EADDRINUSE)));
     Ev (rpc_DialHTTP "unix" "/tmp/llama/llama.sock") (Ok 7%nat);
     Ev (Client_Ping {| conn := 7%nat |}) (Some (errorString "unexpected EOF"))]
  /\ ~ In (os_Remove "/tmp/llama/llama.sock") (calls (trace r))
  /\ binds (trace r) = 1%nat
  /\ outcome r = Returned (Some (errorString "unexpected EOF")).
Proof.
  cbv zeta. repeat split.
  vm_compute. intros [H | [H | [H | [H | []]]]]; discriminate H.
Qed.

(** A daemon that answers the ping: [ErrAlreadyRunning], one bind. *)
Example Start_already_running :
  let live := {| sock_file := true; peer := Healthy |} in
  let r := run (Start join_clean dir_clean environ0) socket_world live in
  outcome r = Returned (Some ErrAlreadyRunning) /\ binds (trace r) = 1%nat.
Proof. split; reflexivity. Qed.

(** One request is in flight when the context of [Start] is cancelled. *)
Lemma Start_returns_before_drain_witness :
  let x := run (Start join_clean dir_clean environ0) (http_world 1) server0 in
  exists w_s : Server,
    let w_c := (http_world 1 ctx_Done w_s).2 in
    ctx_cancelled w_c = true
    /\ world x = (http_world 1 httpSrv_Shutdown w_c).2
    /\ in_flight (world x) = in_flight w_c.
Proof.
  apply (Start_returns_before_drain (http_world 1) join_clean dir_clean environ0
           in_flight ctx_cancelled).
  - intros w. reflexivity.
  - intros w Hc. cbn. rewrite Hc. now destruct (in_flight w).
  - reflexivity.
Defined.

(** At that input [Start] returns nil while the request is still in
    flight, and the error [Shutdown] returned for it is lost. *)
Example Start_abandons_request :
  let x := run (Start join_clean dir_clean environ0) (http_world 1) server0 in
  outcome x = Returned None
  /\ calls (trace x) =
     [os_MkdirAll "/tmp/llama" perm_0700;
      net_Listen "unix" "/tmp/llama/llama.sock";
      rpcSrv_Register; go_Serve 3%nat; ctx_Done; httpSrv_Shutdown]
  /\ in_flight (world x) = 1%nat
  /\ accepting (world x) = false
  /\ shutdown_error (world x) = Some (errorString "context canceled").
Proof. cbv zeta. repeat split. Qed.

End DaemonSpec.

(** * Further properties of cmd/llama/invoke.go *)

Module InvokeMore.
Import Go Effects GoFacts EffectsFacts Invoke InvokeSpec.

(** ** Attachments: [fileList.Set] and [fileList.Prepare] *)

(** How a value of the attachment flag is read: [attachment v src dst]
    when the source is [src] and the destination [dst].  A value with a
    colon that is not its first byte is split at its first colon; any
    other value is both the source and the destination. *)
Inductive attachment : string -> string -> string -> Prop :=
| attachment_split src dst :
    src <> "" -> lacks ":" src -> attachment (src +:+ String ":" dst) src dst
| attachment_plain v :
    lacks ":" v -> attachment v v v
| attachment_leading_colon rest :
    attachment (String ":" rest) (String ":" rest) (String ":" rest).

Lemma attachment_total v : exists src dst, attachment v src dst.
Proof.
  destruct (IndexByte_from_lower 0 v ":") as [Hm | Hfound].
  - exists v, v. apply attachment_plain. now apply strings_IndexByte_lacks.
  - destruct (strings_IndexByte_found v ":" Hfound) as [Hv Hl].
    set (src := slice_to v (strings_IndexByte v ":")) in *.
    set (dst := slice_from v (strings_IndexByte v ":" + 1)) in *.
    destruct src as [| a p] eqn:Hs.
    + exists v, v. rewrite Hv. apply attachment_leading_colon.
    + exists (String a p), dst. rewrite Hv. now apply attachment_split.
Qed.

Lemma fileList_Set_attachment f v src dst :
  attachment v src dst ->
  fileList_Set f v =
  if path_IsAbs dst then
    (f, Some (Errorf "-file: cannot expose file at absolute path: %q" [dst]))
  else ({| files := files f ++ [ {| source := src; dest := dst |} ] |}, None).
Proof.
  intros [s d Hne Hl | v' Hl | rest].
  - now apply fileList_Set_split.
  - apply fileList_Set_whole. unfold strings_IndexRune.
    apply strings_IndexByte_lacks in Hl. lia.
  - now apply fileList_Set_whole.
Qed.

(** X1.  Every value of the attachment flag is read as a source and a
    destination, and [fileList.Set] either refuses it, when the
    destination is absolute, and leaves the list as it was, or appends
    exactly that pair after the entries already there. *)
Theorem fileList_Set_appends (f : fileList) (v : string) :
  exists src dst,
    attachment v src dst
    /\ fileList_Set f v =
       if path_IsAbs dst then
         (f, Some (Errorf "-file: cannot expose file at absolute path: %q" [dst]))
       else ({| files := files f ++ [ {| source := src; dest := dst |} ] |}, None).
Proof.
  destruct (attachment_total v) as (src & dst & Ha).
  exists src, dst. split; [exact Ha | now apply fileList_Set_attachment].
Qed.

(** A list of attachments whose destinations are all relative. *)
Definition relative_dests (fs : list inputFile) : Prop :=
  Forall (fun file => path_IsAbs (dest file) = false) fs.

(** X2.  [fileList.Set] keeps the destinations relative: if every entry
    of the list has a relative destination before the call, so has every
    entry after it, whether the value is accepted or refused. *)
Theorem fileList_Set_keeps_relative (f : fileList) (v : string) :
  relative_dests (files f) -> relative_dests (files (fileList_Set f v).1).
Proof.
  intros Hf. destruct (attachment_total v) as (src & dst & Ha).
  rewrite (fileList_Set_attachment f v src dst Ha).
  destruct (path_IsAbs dst) eqn:E; cbn; [exact Hf |].
  apply Forall_app. split; [exact Hf |]. now repeat constructor.
Qed.

Lemma fileList_Set_keeps_relative_witness :
  relative_dests
    (files (fileList_Set {| files := [ {| source := "a"; dest := "b" |} ] |}
              "/etc/passwd:etc/passwd").1).
Proof.
  apply fileList_Set_keeps_relative. cbn. repeat constructor.
Defined.

Section Attachments.
Context {W : Type}.
Variable h : Handler Call Resp W.

Lemma Prepare_loop_ok fs acc w m w' t :
  run (Prepare_loop fs acc) h w = (Returned (Ok m), w', t) ->
  dom m = dom acc ∪ list_to_set (dest <$> fs)
  /\ length t = (3 * length fs)%nat.
Proof.
  revert acc w t. induction fs as [| file rest IH]; intros acc w t; cbn [Prepare_loop].
  - rewrite run_ret. intros [= <- <- <-]. split; [| reflexivity].
    cbn [fmap list_fmap list_to_set]. now rewrite (right_id_L ∅ (∪)).
  - answer h (ioutil_ReadFile (source file)) w as r w1 E1.
    destruct r as [data | err]; cbv beta iota; [| rewrite run_ret; discriminate].
    answer h (os_Stat (source file)) w1 as st w2 E2.
    destruct st as [mode | err]; cbv beta iota; [| rewrite run_ret; discriminate].
    answer h (protocol_NewBlob data) w2 as b w3 E3.
    destruct b as [blob | err]; cbv beta iota; [| rewrite run_ret; discriminate].
    destruct (run (Prepare_loop rest _) h w3) as [[o w4] t4] eqn:E4.
    intros [= -> <- <-]. destruct (IH _ _ _ E4) as [Hd Hl]. split.
    + rewrite Hd, dom_insert_L. cbn [fmap list_fmap list_to_set].
      rewrite (comm_L (∪) {[dest file]} (dom acc)).
      now rewrite <- (assoc_L (∪)).
    + cbn [length]. rewrite Hl. lia.
Qed.

(** What a successful run of [fileList.Prepare] gets for one attachment:
    the bytes read, the mode and the blob of the store. *)
Definition upload : Type := bytes * FileMode * Blob.

(** The three calls made for one attachment, with their answers. *)
Definition upload_events (file : inputFile) (u : upload) : list (Event Call Resp) :=
  [Ev (ioutil_ReadFile (source file)) (Ok u.1.1);
   Ev (os_Stat (source file)) (Ok u.1.2);
   Ev (protocol_NewBlob u.1.1) (Ok u.2)].

(** The entry set for one attachment (line 80). *)
Definition upload_entry (acc : gmap string File) (fu : inputFile * upload) :
  gmap string File :=
  <[dest fu.1 := {| File_Blob := fu.2.2; File_Mode := fu.2.1.2 |}]> acc.

Lemma Prepare_loop_uploads fs acc w m w' t :
  run (Prepare_loop fs acc) h w = (Returned (Ok m), w', t) ->
  exists us : list upload,
    length us = length fs
    /\ t = concat (zip_with upload_events fs us)
    /\ m = foldl upload_entry acc (zip fs us).
Proof.
  revert acc w t. induction fs as [| file rest IH]; intros acc w t; cbn [Prepare_loop].
  - rewrite run_ret. intros [= <- <- <-]. now exists [].
  - answer h (ioutil_ReadFile (source file)) w as r w1 E1.
    destruct r as [data | err]; cbv beta iota; [| rewrite run_ret; discriminate].
    answer h (os_Stat (source file)) w1 as st w2 E2.
    destruct st as [mode | err]; cbv beta iota; [| rewrite run_ret; discriminate].
    answer h (protocol_NewBlob data) w2 as b w3 E3.
    destruct b as [blob | err]; cbv beta iota; [| rewrite run_ret; discriminate].
    destruct (run (Prepare_loop rest _) h w3) as [[o w4] t4] eqn:E4.
    intros [= -> <- <-]. destruct (IH _ _ _ E4) as (us & Hlen & Ht & Hm).
    exists ((data, mode, blob) :: us). cbn. rewrite Hlen, Ht, Hm. now repeat split.
Qed.

(** X3.  When [fileList.Prepare] returns a map, the calls it made are, for
    each attachment in the order of the list, the read of the source, the
    stat of the source and the put into the store of the bytes read, all
    three answered without error, and nothing else.  The map is built by
    setting, in that order, the destination of each attachment to the blob
    the store returned with the mode the stat returned; its keys are
    exactly the destinations of the list. *)
Theorem fileList_Prepare_keys (f : fileList) (w w' : W)
  (m : gmap string File) (t : list (Event Call Resp)) :
  run (fileList_Prepare f) h w = (Returned (Ok (Some m)), w', t) ->
  (exists us : list upload,
      length us = length (files f)
      /\ t = concat (zip_with upload_events (files f) us)
      /\ m = foldl upload_entry ∅ (zip (files f) us))
  /\ dom m = list_to_set (dest <$> files f)
  /\ length t = (3 * length (files f))%nat.
Proof.
  unfold fileList_Prepare. destruct (files f) as [| file rest] eqn:Ef.
  - rewrite run_ret. discriminate.
  - rewrite run_bind.
    destruct (run (Prepare_loop (file :: rest) ∅) h w) as [[o w1] t1] eqn:E.
    destruct o as [[m' | err] | code | msg]; cbn; try discriminate.
    intros [= <- <- <-]. destruct (Prepare_loop_ok _ _ _ _ _ _ E) as [Hd Hl].
    rewrite app_nil_r. split; [exact (Prepare_loop_uploads _ _ _ _ _ _ E) |].
    split; [| exact Hl].
    now rewrite Hd, dom_empty_L, (left_id_L ∅ (∪)).
Qed.

(** An entry whose source cannot be read ends the loop: the entries after
    it are not looked at. *)
Lemma Prepare_loop_stops pre file post acc w :
  unreadable h (source file) ->
  run (Prepare_loop (pre ++ file :: post) acc) h w
  = run (Prepare_loop (pre ++ [file]) acc) h w
  /\ forall m, outcome (run (Prepare_loop (pre ++ [file]) acc) h w) <> Returned (Ok m).
Proof.
  intros Hu. revert acc w. induction pre as [| x pre IH]; intros acc w;
    cbn [app Prepare_loop].
  - destruct (Hu w) as (err & w1 & E).
    rewrite !(run_bind_one _ _ h w (Err err) w1 (Ev (ioutil_ReadFile (source file)) (Err err)))
      by (unfold run, call; rewrite E; reflexivity).
    cbv beta iota. rewrite run_ret. split; [reflexivity | discriminate].
  - destruct (h (ioutil_ReadFile (source x)) w) as [r w1] eqn:E1. cbn in r.
    rewrite !(run_bind_one _ _ h w r w1 (Ev (ioutil_ReadFile (source x)) r))
      by (unfold run, call; rewrite E1; reflexivity).
    destruct r as [data | err]; cbv beta iota;
      [| rewrite run_ret; split; [reflexivity | discriminate]].
    destruct (h (os_Stat (source x)) w1) as [st w2] eqn:E2. cbn in st.
    rewrite !(run_bind_one _ _ h w1 st w2 (Ev (os_Stat (source x)) st))
      by (unfold run, call; rewrite E2; reflexivity).
    destruct st as [mode | err]; cbv beta iota;
      [| rewrite run_ret; split; [reflexivity | discriminate]].
    destruct (h (protocol_NewBlob data) w2) as [b w3] eqn:E3. cbn in b.
    rewrite !(run_bind_one _ _ h w2 b w3 (Ev (protocol_NewBlob data) b))
      by (unfold run, call; rewrite E3; reflexivity).
    destruct b as [blob | err]; cbv beta iota;
      [| rewrite run_ret; split; [reflexivity | discriminate]].
    destruct (IH (<[dest x := {| File_Blob := blob; File_Mode := mode |}]> acc) w3)
      as [Heq Hne].
    rewrite Heq. split; [reflexivity |].
    intros m. specialize (Hne m).
    now destruct (run (Prepare_loop (pre ++ [file]) _) h w3) as [[o w4] t4].
Qed.

(** X4.  An attachment whose source cannot be read makes
    [fileList.Prepare] return an error and no map, and the attachments
    listed after it are never read: the run is the run on the list cut
    after that attachment. *)
Theorem fileList_Prepare_stops (pre post : list inputFile) (file : inputFile) (w : W) :
  unreadable h (source file) ->
  run (fileList_Prepare {| files := pre ++ file :: post |}) h w
  = run (fileList_Prepare {| files := pre ++ [file] |}) h w
  /\ exists err,
      outcome (run (fileList_Prepare {| files := pre ++ file :: post |}) h w)
      = Returned (Err err).
Proof.
  intros Hu. unfold fileList_Prepare. cbn [files].
  destruct (Prepare_loop_stops pre file post ∅ w Hu) as [Heq Hne].
  assert (run (r ← Prepare_loop (pre ++ file :: post) ∅;
               match r with
               | Ok m => mret (Ok (Some m))
               | Err outErr => mret (Err outErr)
               end) h w
          = run (r ← Prepare_loop (pre ++ [file]) ∅;
                 match r with
                 | Ok m => mret (Ok (Some m))
                 | Err outErr => mret (Err outErr)
                 end) h w) as Hrun
    by (rewrite !run_bind, Heq; reflexivity).
  assert (exists err,
             outcome (run (r ← Prepare_loop (pre ++ [file]) ∅;
                           match r with
                           | Ok m => mret (Ok (Some m))
                           | Err outErr => mret (Err outErr)
                           end) h w) = Returned (Err err)) as Herr.
  { rewrite run_bind.
    destruct (returns_Prepare_loop (pre ++ [file]) ∅ h w) as (r & Hr & _).
    destruct (run (Prepare_loop (pre ++ [file]) ∅) h w) as [[o w1] t1].
    cbn in Hr. subst o. destruct r as [m | err].
    - now destruct (Hne m).
    - exists err. reflexivity. }
  destruct pre as [| x pre]; cbn [app] in *.
  - split; [exact Hrun | now rewrite Hrun].
  - split; [exact Hrun | now rewrite Hrun].
Qed.

End Attachments.

(** ** The argument grammar: [parseArg] and output registration *)

(** X5.  Output registration with a name that is free: when the base name
    of the path is not a key of the map, or is one and the renamed name is
    not, the name given to the argument was not a key before, it maps to
    the path afterwards, every entry already registered is kept, and the
    map has one entry more. *)
Theorem registerOutput_free_name (m : gmap string string) (a : Arg) (arg : string) :
  let base := path_Base arg in
  let renamed := Sprintf_d_s (Z.of_nat (size m)) base in
  m !! base = None \/ m !! renamed = None ->
  exists name m',
    registerOutput (Some m) a arg
    = (Some m', {| ArgIn := ArgIn a; ArgOut := Some name |})
    /\ m !! name = None
    /\ m' !! name = Some arg
    /\ (forall k v, m !! k = Some v -> m' !! k = Some v)
    /\ size m' = S (size m).
Proof.
  cbv zeta. intros Hfree.
  destruct (m !! path_Base arg) as [prior |] eqn:Hb.
  - destruct Hfree as [Hfree | Hfree]; [discriminate |].
    rewrite (registerOutput_collision m a arg prior Hb). cbv zeta.
    eexists _, _. split; [reflexivity |]. repeat split.
    + exact Hfree.
    + apply lookup_insert_eq.
    + intros k v Hk. rewrite lookup_insert_ne; [exact Hk | congruence].
    + now apply map_size_insert_None.
  - rewrite (registerOutput_fresh m a arg Hb).
    eexists _, _. split; [reflexivity |]. repeat split.
    + exact Hb.
    + apply lookup_insert_eq.
    + intros k v Hk. rewrite lookup_insert_ne; [exact Hk | congruence].
    + now apply map_size_insert_None.
Qed.

Lemma registerOutput_free_name_witness :
  exists name m',
    registerOutput (Some {[ "out.txt" := "a/out.txt" ]})
      {| ArgIn := None; ArgOut := None |} "b/out.txt"
    = (Some m', {| ArgIn := None; ArgOut := Some name |})
    /\ ({[ "out.txt" := "a/out.txt" ]} : gmap string string) !! name = None
    /\ m' !! name = Some "b/out.txt"
    /\ (forall k v,
          ({[ "out.txt" := "a/out.txt" ]} : gmap string string) !! k = Some v ->
          m' !! k = Some v)
    /\ size m' = 2%nat.
Proof.
  refine (registerOutput_free_name {[ "out.txt" := "a/out.txt" ]}
            {| ArgIn := None; ArgOut := None |} "b/out.txt" _).
  right. vm_compute. reflexivity.
Defined.

(** Output registration never loses a name: every key of the map before
    is a key after, and the name given to the argument maps to the path
    of the argument. *)
Lemma registerOutput_registers (outputs : OutputMap) (a : Arg) (arg : string) :
  exists name m',
    registerOutput outputs a arg
    = (Some m', {| ArgIn := ArgIn a; ArgOut := Some name |})
    /\ m' !! name = Some arg
    /\ (forall k, is_Some (lookup_output outputs k) -> is_Some (m' !! k)).
Proof.
  unfold registerOutput. eexists _, _. split; [reflexivity |]. split.
  - apply lookup_insert_eq.
  - intros k Hk. rewrite lookup_insert. case_decide; [now eexists |].
    destruct outputs as [m |]; cbn in *; [exact Hk | now destruct Hk].
Qed.

Section Tokens.
Context {W : Type}.
Variable h : Handler Call Resp W.
Variable json_Marshal : ArgSpec -> result RawMessage.

(** X6.  A token [o@path] is encoded without any call to the outside
    world: the path is neither read nor created.  The argument carries no
    input and an output name, and the map that results gives the path, as
    written, for that name. *)
Theorem parseArg_output_only (outputs : OutputMap) (rest : string) (w : W) :
  exists name m',
    run (parseArgSpec outputs ("o@" +:+ rest)) h w
    = (Returned (Some m', Ok (ArgStruct {| ArgIn := None; ArgOut := Some name |})),
       w, [])
    /\ m' !! name = Some rest.
Proof.
  rewrite parseArgSpec_o.
  destruct (registerOutput_registers outputs {| ArgIn := None; ArgOut := None |} rest)
    as (name & m' & -> & Hn & _).
  now exists name, m'.
Qed.

(** X7.  A token [i@path] or [io@path] whose file is read and stored: the
    bytes put into the store are the bytes read, and the argument carries
    the blob the store returned.  For [i] the map of outputs is left as it
    was; for [io] the path is registered as an output as well. *)
Theorem parseArg_input (outputs : OutputMap) (pfx rest : string)
  (w w1 w2 : W) (data : bytes) (blob : Blob) :
  pfx = "i" \/ pfx = "io" ->
  h (ioutil_ReadFile rest) w = (Ok data, w1) ->
  h (protocol_NewBlob data) w1 = (Ok blob, w2) ->
  run (parseArgSpec outputs (pfx +:+ String "@" rest)) h w
  = (Returned
       (if String.eqb pfx "i"
        then (outputs, Ok (ArgStruct {| ArgIn := Some blob; ArgOut := None |}))
        else ((registerOutput outputs {| ArgIn := Some blob; ArgOut := None |} rest).1,
              Ok (ArgStruct
                    (registerOutput outputs
                       {| ArgIn := Some blob; ArgOut := None |} rest).2))),
     w2,
     [Ev (ioutil_ReadFile rest) (Ok data); Ev (protocol_NewBlob data) (Ok blob)]).
Proof.
  intros Hp Hr Hb.
  assert (pfx <> "" /\ lacks "@" pfx) as [Hne Hl].
  { destruct Hp as [-> | ->]; (split; [discriminate |]);
      apply strings_IndexByte_lacks; reflexivity. }
  destruct (split_at_first pfx rest Hne Hl) as (E1 & E2 & E3).
  unfold parseArgSpec. rewrite E1, E2, E3.
  assert (String.eqb pfx "i" || String.eqb pfx "io" = true) as ->
    by (destruct Hp as [-> | ->]; reflexivity).
  rewrite (run_bind_one _ _ h w (Ok data) w1 (Ev (ioutil_ReadFile rest) (Ok data)))
    by (unfold run, call; rewrite Hr; reflexivity).
  cbv beta iota.
  rewrite (run_bind_one _ _ h w1 (Ok blob) w2 (Ev (protocol_NewBlob data) (Ok blob)))
    by (unfold run, call; rewrite Hb; reflexivity).
  cbv beta iota. destruct (String.eqb pfx "i"); [reflexivity |].
  now destruct (registerOutput outputs _ rest).
Qed.

(** X8.  An argument that fails registers no output: whenever [parseArg]
    returns an error, the map of outputs is the one it was given. *)
Theorem parseArg_error_keeps_outputs (outputs outputs' : OutputMap)
  (arg : string) (w : W) (err : error) :
  outcome (run (parseArg json_Marshal outputs arg) h w) = Returned (outputs', Err err) ->
  outputs' = outputs.
Proof.
  unfold parseArg. rewrite run_bind.
  destruct (run (parseArgSpec outputs arg) h w) as [[o w1] t1] eqn:E.
  destruct o as [[outs r] | code | msg]; cbn; try discriminate.
  destruct r as [argSpec | e].
  - destruct (json_Marshal argSpec); cbn; [discriminate |].
    unfold log_Fatal. rewrite run_bind.
    now destruct (run (call (log_Print _)) h w1) as [[[] ?] ?].
  - intros [= <- _]. revert E. unfold parseArgSpec.
    destruct (0 <? _); [| rewrite run_ret; congruence].
    destruct (String.eqb _ "i" || String.eqb _ "io").
    + set (rest := slice_from arg _).
      answer h (ioutil_ReadFile rest) w as r w2 E2.
      destruct r as [data | e2]; cbv beta iota; [| rewrite run_ret; congruence].
      answer h (protocol_NewBlob data) w2 as b w3 E3.
      destruct b as [blob | e3]; cbv beta iota; [| rewrite run_ret; congruence].
      destruct (String.eqb _ "i"); [rewrite run_ret; discriminate |].
      destruct (registerOutput outputs _ rest). rewrite run_ret. discriminate.
    + destruct (String.eqb _ "o").
      * destruct (registerOutput outputs _ _). rewrite run_ret. discriminate.
      * destruct (String.eqb _ "raw"); rewrite run_ret; congruence.
Qed.

(** *** [prepareArgs] *)

Lemma prepareArgs_loop_ok args :
  forall i out outs w out' outs' w' t,
    run (prepareArgs_loop json_Marshal i args out outs) h w
    = (Returned (Ok (out', outs')), w', t) ->
    length out' = length out
    /\ (forall j, (j < i)%nat -> out' !! j = out !! j)
    /\ (forall k arg,
          args !! k = Some arg -> (i + k < length out)%nat ->
          exists outs_k w_k outs_k' word,
            outcome (run (parseArg json_Marshal outs_k arg) h w_k)
            = Returned (outs_k', Ok word)
            /\ out' !! (i + k)%nat = Some word).
Proof.
  induction args as [| a rest IH]; intros i out outs w out' outs' w' t;
    cbn [prepareArgs_loop].
  - rewrite run_ret. intros [= <- <- <- <-]. repeat split. intros k arg Hk. discriminate.
  - rewrite run_bind.
    destruct (run (parseArg json_Marshal outs a) h w) as [[o1 w1] t1] eqn:E1.
    destruct o1 as [[outs1 r] | code | msg]; try discriminate.
    destruct r as [word | err]; [| rewrite run_ret; discriminate].
    destruct (run (prepareArgs_loop json_Marshal (S i) rest (<[i:=word]> out) outs1) h w1)
      as [[o2 w2] t2] eqn:E2.
    intros [= -> <- <-]. destruct (IH _ _ _ _ _ _ _ _ E2) as (Hlen & Hpre & Hidx).
    rewrite length_insert in Hlen, Hidx. repeat split.
    + exact Hlen.
    + intros j Hj. rewrite (Hpre j ltac:(lia)).
      apply list_lookup_insert_ne. lia.
    + intros k arg Hk Hb. destruct k as [| k]; cbn in Hk.
      * injection Hk as ->. exists outs, w, outs1, word. split; [now rewrite E1 |].
        rewrite Nat.add_0_r in *. rewrite (Hpre i ltac:(lia)).
        now apply list_lookup_insert_eq.
      * destruct (Hidx k arg Hk ltac:(lia)) as (ok & wk & ok' & wd & Hrun & Hout).
        exists ok, wk, ok', wd. split; [exact Hrun |].
        now replace (i + S k)%nat with (S i + k)%nat by lia.
Qed.

(** X9.  [prepareArgs] keeps the order of the arguments: when it
    returns the encoded arguments, there are as many as tokens, and the
    one at each index is a word that [parseArg] returned for the token at
    that index. *)
Theorem prepareArgs_in_order (args : list string) (w w' : W)
  (out : list RawMessage) (outputs : OutputMap) (t : list (Event Call Resp)) :
  run (prepareArgs json_Marshal args) h w = (Returned (Ok (out, outputs)), w', t) ->
  length out = length args
  /\ forall k arg,
      args !! k = Some arg ->
      exists outs_k w_k outs_k' word,
        outcome (run (parseArg json_Marshal outs_k arg) h w_k)
        = Returned (outs_k', Ok word)
        /\ out !! k = Some word.
Proof.
  unfold prepareArgs. intros E.
  destruct (prepareArgs_loop_ok _ _ _ _ _ _ _ _ _ E) as (Hlen & _ & Hidx).
  rewrite length_replicate in Hlen, Hidx. split; [exact Hlen |].
  intros k arg Hk. apply (Hidx k arg Hk). cbn.
  now apply lookup_lt_Some in Hk.
Qed.

(** A refused token ends the loop of [prepareArgs], whatever the slice
    [out] holds. *)
Lemma prepareArgs_loop_stops pre tok post :
  rejected h tok ->
  forall i out out' outs w,
    run (prepareArgs_loop json_Marshal i (pre ++ tok :: post) out outs) h w
    = run (prepareArgs_loop json_Marshal i (pre ++ [tok]) out' outs) h w.
Proof.
  intros Hrej. induction pre as [| a pre IH]; intros i out out' outs w;
    cbn [app prepareArgs_loop]; rewrite !run_bind.
  - destruct (parseArg_rejected h json_Marshal outs tok w Hrej) as (err & w1 & t1 & ->).
    reflexivity.
  - destruct (run (parseArg json_Marshal outs a) h w) as [[o1 w1] t1].
    destruct o1 as [[outs1 r] | code | msg]; try reflexivity.
    destruct r as [word | err]; [| reflexivity].
    now rewrite (IH (S i) (<[i:=word]> out) (<[i:=word]> out') outs1 w1).
Qed.

(** X10.  A refused token ends argument preparation: the tokens after it
    are never looked at, so no file they name is read and no output they
    name is registered.  The run of [prepareArgs] is its run on the
    tokens up to the refused one. *)
Theorem prepareArgs_stops (pre post : list string) (tok : string) (w : W) :
  rejected h tok ->
  run (prepareArgs json_Marshal (pre ++ tok :: post)) h w
  = run (prepareArgs json_Marshal (pre ++ [tok])) h w.
Proof. intros Hrej. unfold prepareArgs. now apply prepareArgs_loop_stops. Qed.

(** Tokens without [@] whose encoding succeeds: no call, no output. *)
Lemma prepareArgs_loop_plain args :
  Forall (fun arg => lacks "@" arg
                     /\ exists word, json_Marshal (ArgString arg) = Ok word) args ->
  forall i out outs w,
    exists out',
      run (prepareArgs_loop json_Marshal i args out outs) h w
      = (Returned (Ok (out', outs)), w, []).
Proof.
  induction 1 as [| arg rest [Hl [word Hm]] _ IH]; intros i out outs w;
    cbn [prepareArgs_loop].
  - now exists out.
  - rewrite run_bind. unfold parseArg. rewrite run_bind.
    rewrite parseArgSpec_not_split
      by (apply strings_IndexByte_lacks in Hl; unfold strings_Index1; lia).
    cbv beta iota. rewrite Hm, run_ret. cbv beta iota.
    destruct (IH (S i) (<[i:=word]> out) outs w) as [out' ->]. now exists out'.
Qed.

(** X11.  Arguments without [@] need nothing from the outside world:
    when [json.Marshal] succeeds on each of them, [prepareArgs] makes no
    call, leaves the map of outputs nil, and returns the encoded strings
    in the order of the arguments. *)
Theorem prepareArgs_plain (args : list string) (words : list RawMessage) (w : W) :
  Forall (lacks "@") args ->
  Forall2 (fun arg word => json_Marshal (ArgString arg) = Ok word) args words ->
  run (prepareArgs json_Marshal args) h w = (Returned (Ok (words, None)), w, []).
Proof.
  intros Hl Hm.
  assert (Forall (fun arg => lacks "@" arg
                             /\ exists word, json_Marshal (ArgString arg) = Ok word) args)
    as Hall.
  { clear w. induction Hm as [| arg word args words Hw _ IH]; [constructor |].
    inversion Hl; subst. constructor; [split; [assumption | now exists word] | now apply IH]. }
  destruct (prepareArgs_loop_plain args Hall 0%nat (replicate (length args) []) None w)
    as [out E].
  unfold prepareArgs. rewrite E.
  destruct (prepareArgs_loop_ok _ _ _ _ _ _ _ _ _ E) as (Hlen & _ & Hidx).
  rewrite length_replicate in Hlen, Hidx.
  assert (out = words) as ->; [| reflexivity].
  apply list_eq. intros k.
  destruct (args !! k) as [arg |] eqn:Hk.
  - destruct (Hidx k arg Hk ltac:(now apply lookup_lt_Some in Hk))
      as (ok & wk & ok' & wd & Hrun & Hout).
    cbn in Hout. rewrite Hout.
    destruct (Forall2_lookup_l _ _ _ _ _ Hm Hk) as (word & -> & Hword).
    rewrite List.Forall_forall in Hl.
    assert (lacks "@" arg) as Harg
      by (apply Hl; apply list_elem_of_In; now apply list_elem_of_lookup_2 in Hk).
    revert Hrun. unfold parseArg. rewrite run_bind.
    rewrite parseArgSpec_not_split
      by (apply strings_IndexByte_lacks in Harg; unfold strings_Index1; lia).
    cbv beta iota. rewrite Hword, run_ret. cbn. now intros [= _ ->].
  - apply lookup_ge_None in Hk.
    rewrite (proj2 (lookup_ge_None out k)) by lia.
    symmetry. apply lookup_ge_None. apply Forall2_length in Hm. lia.
Qed.

End Tokens.

(** ** Reconciliation with names that are not in the map *)

Section Unexpected.
Context {W : Type}.
Variable h : Handler Call Resp W.

(** X12.  Outputs whose names are not in the map are only logged: when no
    name of the response is a key of the map, in particular when the map
    is nil because no argument named an output, [fetchOutputs] fetches no
    blob and writes no file, and logs each name once, in the order
    visited. *)
Theorem fetchOutputs_all_unexpected (outputs : OutputMap)
  (resp : InvocationResponse) (w : W) :
  (forall key blob, In (key, blob) (Outputs resp) -> lookup_output outputs key = None) ->
  outcome (run (fetchOutputs outputs resp) h w) = Returned tt
  /\ calls (trace (run (fetchOutputs outputs resp) h w))
     = map (fun entry => log_Printf "Unexpected output: %q" [Fstr entry.1])
         (Outputs resp).
Proof.
  unfold fetchOutputs. revert w.
  induction (Outputs resp) as [| [key blob] rest IH]; intros w Hall;
    cbn [fetchOutputs_loop].
  - now rewrite run_ret.
  - rewrite run_bind. unfold fetchOutputs_body.
    rewrite (Hall key blob (or_introl eq_refl)). rewrite run_log.
    specialize (IH (h (log_Printf "Unexpected output: %q" [Fstr key]) w).2
                  (fun k b Hin => Hall k b (or_intror Hin))).
    destruct (run (fetchOutputs_loop outputs rest) h _) as [[o w2] t2].
    cbn in *. destruct IH as [-> ->]. now split.
Qed.

End Unexpected.

(** ** The runs of [Execute] *)

(** The calls of the preparation of a request: reads of standard input and
    of files, puts into the store, and the log. *)
Definition is_preparation (c : Call) : bool :=
  match c with
  | ioutil_ReadAll_Stdin => true
  | ioutil_ReadFile _ => true
  | os_Stat _ => true
  | protocol_NewBlob _ => true
  | log_Printf _ _ => true
  | log_Println _ => true
  | log_Print _ => true
  | _ => false
  end.

Definition preparing (c : Call) : Prop := is_preparation c = true.

Section Preparation.
Context {W : Type}.
Variable json_Marshal : ArgSpec -> result RawMessage.

Abbreviation prog := (M Call Resp W).

Lemma preparing_Prepare_loop fs acc :
  calls_all preparing (Prepare_loop fs acc : prog _).
Proof.
  revert acc. induction fs as [| file rest IH]; intros acc; cbn [Prepare_loop].
  - all_local.
  - all_local. apply IH.
Qed.

Lemma preparing_Execute_stdin c : calls_all preparing (Execute_stdin c : prog _).
Proof. unfold Execute_stdin. all_local. Qed.

Lemma preparing_Execute_files c : calls_all preparing (Execute_files c : prog _).
Proof.
  unfold Execute_files, fileList_Prepare.
  destruct (0 <? _); [| all_local].
  apply calls_all_bind; [| intros ?; all_local].
  destruct (files (cmd_files c)); [all_local |].
  apply calls_all_bind; [apply preparing_Prepare_loop | intros ?; all_local].
Qed.

Lemma preparing_parseArg outputs arg :
  calls_all preparing (parseArg json_Marshal outputs arg : prog _).
Proof.
  unfold parseArg, log_Fatal.
  apply calls_all_bind; [unfold parseArgSpec; all_local | intros [o r]].
  all_local.
Qed.

Lemma preparing_prepareArgs_loop i args out outputs :
  calls_all preparing (prepareArgs_loop json_Marshal i args out outputs : prog _).
Proof.
  revert i out outputs.
  induction args as [| arg rest IH]; intros i out outputs; cbn [prepareArgs_loop].
  - all_local.
  - apply calls_all_bind; [apply preparing_parseArg | intros [o r]].
    destruct r; [apply IH | all_local].
Qed.

Lemma preparing_prepareArgs args :
  calls_all preparing (prepareArgs json_Marshal args : prog _).
Proof. apply preparing_prepareArgs_loop. Qed.

End Preparation.

Section Runs.
Context {W : Type}.
Variable h : Handler Call Resp W.
Variable json_Marshal : ArgSpec -> result RawMessage.

(** The request [a] was prepared from the command [c] and the tokens
    [args], starting in the world [w]: the three steps of the preparation
    returned the three parts of the request, made the calls [tprep] and
    left the world [w2] and the map [outputs]. *)
Definition prepared (c : InvokeCommand) (function : string) (args : list string)
  (a : InvokeArgs) (outputs : OutputMap) (w w2 : W)
  (tprep : list (Event Call Resp)) : Prop :=
  exists w0 w1 t0 t1 t2,
    run (Execute_stdin c) h w = (Returned (inl (Stdin (Spec a))), w0, t0)
    /\ run (Execute_files c) h w0 = (Returned (inl (Files (Spec a))), w1, t1)
    /\ run (prepareArgs json_Marshal args) h w1
       = (Returned (Ok (Args (Spec a), outputs)), w2, t2)
    /\ tprep = t0 ++ t1 ++ t2
    /\ Function a = function
    /\ ReturnLogs a = logs c.

(** What a failed dispatch leaves on the log: the logs of the invocation
    when the error carries them, then the error. *)
Definition failure_report (err : error) : list Call :=
  match err with
  | ErrorReturn _ (Some l) => [Stderr_Fprintf logs_banner l]
  | _ => []
  end ++ [log_Printf "invoke: %s" [Ferr err]].

(** The three ways a run of [Execute] goes. *)
Inductive Execute_run (c : InvokeCommand) (flag_Args : list string) (w : W)
  (x : Outcome ExitStatus * W * list (Event Call Resp)) : Prop :=
| run_local :
    Forall preparing (calls (trace x)) ->
    outcome x = Returned ExitFailure \/ outcome x = Exited 1
    \/ (flag_Args = [] /\ exists msg, outcome x = Panicked msg) ->
    Execute_run c flag_Args w x
| run_remote_failure function args a outputs w2 tprep err tail :
    flag_Args = function :: args ->
    prepared c function args a outputs w w2 tprep ->
    Forall preparing (calls tprep) ->
    trace x = tprep ++ Ev (llama_Invoke a) (Err err) :: tail ->
    calls tail = failure_report err ->
    outcome x = Exited 1 ->
    Execute_run c flag_Args w x
| run_remote_success function args a outputs w2 tprep response w3 trec :
    flag_Args = function :: args ->
    prepared c function args a outputs w w2 tprep ->
    Forall preparing (calls tprep) ->
    h (llama_Invoke a) w2 = (Ok response, w3) ->
    trace x = tprep ++ Ev (llama_Invoke a) (Ok response) :: trec ->
    trec = trace (run (Execute_reconcile outputs response) h w3) ->
    outcome x = Returned (ExitStatus_ (Response response)) ->
    Execute_run c flag_Args w x.

Lemma Forall_calls_app P (t1 t2 : list (Event Call Resp)) :
  Forall P (calls t1) -> Forall P (calls t2) -> Forall P (calls (t1 ++ t2)).
Proof. intros H1 H2. unfold calls. rewrite map_app. apply Forall_app. now split. Qed.

Lemma Execute_dispatch_runs c function spec outputs w2 :
  let a := {| Function := function; Spec := spec; ReturnLogs := logs c |} in
  let x := run (Execute_dispatch c function spec outputs) h w2 in
  (exists err tail,
      trace x = Ev (llama_Invoke a) (Err err) :: tail
      /\ calls tail = failure_report err /\ outcome x = Exited 1)
  \/ (exists response w3,
        h (llama_Invoke a) w2 = (Ok response, w3)
        /\ trace x = Ev (llama_Invoke a) (Ok response)
                     :: trace (run (Execute_reconcile outputs response) h w3)
        /\ outcome x = Returned (ExitStatus_ (Response response))).
Proof.
  cbv zeta. unfold Execute_dispatch.
  set (a := {| Function := function; Spec := spec; ReturnLogs := logs c |}).
  answer h (llama_Invoke a) w2 as r w3 E. destruct r as [response | err]; cbv beta iota.
  - right. exists response, w3.
    destruct (yields_Execute_reconcile outputs response h w3) as (status & Ho & ->).
    destruct (run (Execute_reconcile outputs response) h w3) as [[o w4] t4].
    cbn in *. now subst o.
  - left. exists err. unfold failure_report.
    assert (forall w', exists wf,
               run (log_Fatalf "invoke: %s" [Ferr err] : M Call Resp W ExitStatus) h w'
               = (Exited 1, wf, [Ev (log_Printf "invoke: %s" [Ferr err]) tt])) as Hfatal.
    { intros w'. unfold log_Fatalf.
      answer h (log_Printf "invoke: %s" [Ferr err]) w' as u wf Ef.
      destruct u. now exists wf. }
    destruct err as [s0 | e0 | op inner | f0 a0 | f0 a0 e0 | msg [l |]].
    6: { answer h (Stderr_Fprintf logs_banner l) w3 as u w4 E4. destruct u.
         destruct (Hfatal w4) as [wf ->]. eexists. repeat split. }
    all: rewrite run_bind, run_ret; destruct (Hfatal w3) as [wf ->];
      eexists; repeat split.
Qed.

Lemma Execute_runs c flag_Args w :
  Execute_run c flag_Args w (run (Execute json_Marshal c flag_Args) h w).
Proof.
  unfold Execute. rewrite run_bind.
  pose proof (preparing_Execute_stdin c h w) as P0.
  destruct (Execute_stdin_status c h w) as (s & O0 & S0).
  destruct (run (Execute_stdin c) h w) as [[o0 w0] t0] eqn:E0.
  cbn [outcome trace fst snd] in P0, O0. subst o0.
  destruct s as [spec_Stdin | st].
  2: { rewrite run_ret. apply run_local; cbn [outcome trace fst snd].
       - now rewrite app_nil_r.
       - left. now rewrite (S0 st eq_refl). }
  rewrite run_bind.
  pose proof (preparing_Execute_files c h w0) as P1.
  destruct (Execute_files_status c h w0) as (f & O1 & S1).
  destruct (run (Execute_files c) h w0) as [[o1 w1] t1] eqn:E1.
  cbn [outcome trace fst snd] in P1, O1. subst o1.
  destruct f as [spec_Files | st].
  2: { rewrite run_ret. apply run_local; cbn [outcome trace fst snd].
       - rewrite app_nil_r. now apply Forall_calls_app.
       - left. now rewrite (S1 st eq_refl). }
  destruct flag_Args as [| function args].
  { change (run (panic "runtime error: slice bounds out of range [1:0]") h w1)
      with (@Panicked ExitStatus "runtime error: slice bounds out of range [1:0]", w1,
            @nil (Event Call Resp)).
    apply run_local; cbn [outcome trace fst snd].
    - rewrite app_nil_r. now apply Forall_calls_app.
    - right. right. split; [reflexivity | now eexists]. }
  rewrite run_bind.
  assert (Forall preparing (calls (trace (run (prepareArgs json_Marshal args) h w1))))
    as P2 by exact (preparing_prepareArgs json_Marshal args h w1).
  assert ((exists r, outcome (run (prepareArgs json_Marshal args) h w1) = Returned r)
          \/ outcome (run (prepareArgs json_Marshal args) h w1) = Exited 1) as N2
    by exact (ends_prepareArgs_loop json_Marshal 0 args
                (replicate (length args) []) None h w1).
  destruct (run (prepareArgs json_Marshal args) h w1) as [[o2 w2] t2] eqn:E2.
  cbn [outcome trace fst snd] in P2, N2.
  destruct o2 as [[[spec_Args outputs] | err] | code | msg].
  - set (spec := {| Stdin := spec_Stdin; Files := spec_Files; Args := spec_Args |}).
    set (a := {| Function := function; Spec := spec; ReturnLogs := logs c |}).
    assert (prepared c function args a outputs w w2 (t0 ++ t1 ++ t2)) as Hprep.
    { exists w0, w1, t0, t1, t2. now repeat split. }
    assert (Forall preparing (calls (t0 ++ t1 ++ t2))) as Hcalls
      by (repeat apply Forall_calls_app; assumption).
    destruct (Execute_dispatch_runs c function spec outputs w2)
      as [(err & tail & Ht & Hc & Ho) | (response & w3 & Hh & Ht & Ho)];
      fold a in Ht;
      destruct (run (Execute_dispatch c function spec outputs) h w2) as [[o3 w4] t3];
      cbn [outcome trace fst snd] in *; subst t3.
    + eapply run_remote_failure; try eassumption; try reflexivity.
      cbn [trace snd]. now rewrite <- !app_assoc.
    + eapply run_remote_success; try eassumption; try reflexivity.
      cbn [trace snd]. now rewrite <- !app_assoc.
  - answer h (log_Println [Fstr "preparing arguments: "; Ferr err]) w2 as u w3 E3.
    rewrite run_ret. apply run_local; cbn [outcome trace fst snd].
    + repeat apply Forall_calls_app; try assumption. now repeat constructor.
    + now left.
  - destruct N2 as [[r Hr] | Hr]; [discriminate | injection Hr as ->].
    apply run_local; cbn [outcome trace fst snd].
    + now repeat apply Forall_calls_app.
    + right. now left.
  - destruct N2 as [[r Hr] | Hr]; discriminate.
Qed.

Lemma preparing_local c : preparing c -> local c.
Proof. unfold preparing, local. destruct c; cbn; congruence. Qed.

Lemma local_failure_report err : Forall local (failure_report err).
Proof.
  unfold failure_report.
  destruct err as [s0 | e0 | op inner | f0 a0 | f0 a0 e0 | msg [l |]];
    repeat constructor.
Qed.

(** The calls of a trace that are remote dispatches. *)
Definition dispatches (t : list (Event Call Resp)) : list Call :=
  List.filter is_dispatch (calls t).

Lemma dispatches_app t1 t2 : dispatches (t1 ++ t2) = dispatches t1 ++ dispatches t2.
Proof. unfold dispatches, calls. now rewrite map_app, List.filter_app. Qed.

Lemma dispatches_local t : Forall local (calls t) -> dispatches t = [].
Proof.
  unfold dispatches. induction (calls t) as [| c cs IH]; [reflexivity |].
  intros Hall. inversion Hall as [| ? ? Hc Hcs]; subst. cbn.
  unfold local in Hc. rewrite Hc. now apply IH.
Qed.

Lemma Forall_preparing_local (t : list (Event Call Resp)) :
  Forall preparing (calls t) -> Forall local (calls t).
Proof. apply List.Forall_impl. exact preparing_local. Qed.

(** A run of [Execute] is local, or is a preparation, one dispatch and
    local calls after it. *)
Lemma Execute_run_shape c flag_Args w x :
  Execute_run c flag_Args w x ->
  Forall preparing (calls (trace x))
  \/ exists tprep a r rest,
      trace x = tprep ++ Ev (llama_Invoke a) r :: rest
      /\ Forall preparing (calls tprep)
      /\ Forall local (calls rest).
Proof.
  intros [Hl _ | function args a outputs w2 tprep err tail _ _ Hp Ht Hc _
          | function args a outputs w2 tprep response w3 trec _ _ Hp _ Ht Hrec _].
  - now left.
  - right. exists tprep, a, (Err err), tail. repeat split; try assumption.
    rewrite Hc. apply local_failure_report.
  - right. exists tprep, a, (Ok response), trec. repeat split; try assumption.
    subst trec. exact (local_Execute_reconcile outputs response h w3).
Qed.

(** X13.  A run of [Execute] makes at most one remote dispatch. *)
Theorem Execute_dispatches_once (c : InvokeCommand) (flag_Args : list string) (w : W) :
  (length (dispatches (trace (run (Execute json_Marshal c flag_Args) h w))) <= 1)%nat.
Proof.
  destruct (Execute_run_shape _ _ _ _ (Execute_runs c flag_Args w))
    as [Hl | (tprep & a & r & rest & -> & Hp & Hr)].
  - rewrite dispatches_local; [cbn; lia | now apply Forall_preparing_local].
  - rewrite dispatches_app, (dispatches_local tprep) by now apply Forall_preparing_local.
    change (Ev (llama_Invoke a) r :: rest) with ([Ev (llama_Invoke a) r] ++ rest).
    rewrite dispatches_app, (dispatches_local rest) by assumption. cbn. lia.
Qed.

(** The dispatch found in a trace of that shape is the one in the middle. *)
Lemma dispatch_in_shape (tprep rest : list (Event Call Resp)) a r ev :
  Forall preparing (calls tprep) -> Forall local (calls rest) ->
  In ev (tprep ++ Ev (llama_Invoke a) r :: rest) ->
  is_dispatch (call_of ev) = true ->
  ev = Ev (llama_Invoke a) r.
Proof.
  intros Hp Hr Hin Hd. apply in_app_or in Hin as [Hin | [Heq | Hin]].
  - exfalso. apply Forall_preparing_local in Hp. rewrite List.Forall_forall in Hp.
    specialize (Hp (call_of ev) (in_map call_of _ _ Hin)). unfold local in Hp. congruence.
  - now symmetry.
  - exfalso. rewrite List.Forall_forall in Hr.
    specialize (Hr (call_of ev) (in_map call_of _ _ Hin)). unfold local in Hr. congruence.
Qed.

Lemma no_dispatch_in_preparation (t : list (Event Call Resp)) ev :
  Forall preparing (calls t) -> In ev t -> is_dispatch (call_of ev) = true -> False.
Proof.
  intros Hp Hin Hd. apply Forall_preparing_local in Hp. rewrite List.Forall_forall in Hp.
  specialize (Hp (call_of ev) (in_map call_of _ _ Hin)). unfold local in Hp. congruence.
Qed.

(** X14.  When the remote dispatch fails, the command does not return: the
    process exits with the status 1.  After the dispatch the only calls
    are the report of the failure, that is the logs of the invocation when
    the error carries them and then the error itself; nothing is fetched
    and nothing is written. *)
Theorem Execute_remote_failure (c : InvokeCommand) (flag_Args : list string) (w : W)
  (a : InvokeArgs) (err : error) :
  let x := run (Execute json_Marshal c flag_Args) h w in
  In (Ev (llama_Invoke a) (Err err)) (trace x) ->
  outcome x = Exited 1
  /\ exists tprep : list (Event Call Resp),
      Forall preparing (calls tprep)
      /\ calls (trace x) = calls tprep ++ llama_Invoke a :: failure_report err.
Proof.
  cbv zeta. intros Hin.
  destruct (Execute_runs c flag_Args w)
    as [Hl _ | function args a' outputs w2 tprep err' tail _ _ Hp Ht Hc Ho
        | function args a' outputs w2 tprep response w3 trec _ _ Hp _ Ht Hrec _].
  - destruct (no_dispatch_in_preparation _ _ Hl Hin eq_refl).
  - rewrite Ht in Hin.
    apply dispatch_in_shape in Hin;
      [| assumption | rewrite Hc; apply local_failure_report | reflexivity].
    pose proof (f_equal call_of Hin) as Hcall. cbn in Hcall. injection Hcall as <-.
    apply (f_equal dispatched) in Hin. cbn in Hin. injection Hin as <-.
    split; [exact Ho |]. exists tprep. split; [exact Hp |].
    rewrite Ht. unfold calls. rewrite map_app. cbn. now f_equal; f_equal.
  - rewrite Ht in Hin.
    apply dispatch_in_shape in Hin;
      [| assumption
       | subst trec; exact (local_Execute_reconcile outputs response h w3)
       | reflexivity].
    apply (f_equal dispatched) in Hin. cbn in Hin. discriminate Hin.
Qed.

(** The calls that reconcile a response: fetches from the store, writes of
    files and writes to the two streams. *)
Definition is_reconciliation (c : Call) : bool :=
  match c with
  | Blob_Read _ => true
  | ioutil_WriteFile _ _ _ => true
  | Stderr_Write _ => true
  | Stdout_Write _ => true
  | _ => false
  end.

(** X15.  Nothing is reconciled unless the remote dispatch succeeded: a
    run of [Execute] that fetches a blob, writes a file or writes to
    standard output or standard error has called [llama.Invoke] and got a
    response. *)
Theorem Execute_reconciles_after_success (c : InvokeCommand)
  (flag_Args : list string) (w : W) (c' : Call) :
  let x := run (Execute json_Marshal c flag_Args) h w in
  is_reconciliation c' = true ->
  In c' (calls (trace x)) ->
  exists a response, In (Ev (llama_Invoke a) (Ok response)) (trace x).
Proof.
  cbv zeta. intros Hrec Hin.
  assert (forall t : list (Event Call Resp),
             Forall preparing (calls t) -> ~ In c' (calls t)) as Hprep.
  { intros t Hp Hc. rewrite List.Forall_forall in Hp. specialize (Hp c' Hc).
    unfold preparing in Hp. destruct c'; cbn in *; congruence. }
  destruct (Execute_runs c flag_Args w)
    as [Hl _ | function args a' outputs w2 tprep err' tail _ _ Hp Ht Hc Ho
        | function args a' outputs w2 tprep response w3 trec _ _ Hp _ Ht _ _].
  - now destruct (Hprep _ Hl).
  - exfalso. rewrite Ht in Hin. unfold calls in Hin. rewrite map_app in Hin.
    apply in_app_or in Hin as [Hin | [Heq | Hin]].
    + now apply (Hprep _ Hp).
    + cbn in Heq. subst c'. discriminate Hrec.
    + fold (calls tail) in Hin. rewrite Hc in Hin. unfold failure_report in Hin.
      apply in_app_or in Hin as [Hin | [Heq | []]].
      * destruct err' as [s0 | e0 | op inner | f0 a0 | f0 a0 e0 | msg [l |]];
          cbn in Hin; try contradiction.
        destruct Hin as [Heq | []]. subst c'. discriminate Hrec.
      * subst c'. discriminate Hrec.
  - exists a', response. rewrite Ht. apply in_or_app. right. now left.
Qed.

(** The request of the dispatch of a run was prepared from the command
    line. *)
Lemma Execute_dispatch_prepared c flag_Args w a :
  In (llama_Invoke a) (calls (trace (run (Execute json_Marshal c flag_Args) h w))) ->
  exists function args outputs w2 tprep,
    flag_Args = function :: args /\ prepared c function args a outputs w w2 tprep.
Proof.
  intros Hin. apply calls_In in Hin as [r Hin].
  destruct (Execute_runs c flag_Args w)
    as [Hl _ | function args a' outputs w2 tprep err' tail Hf Hprep Hp Ht Hc _
        | function args a' outputs w2 tprep response w3 trec Hf Hprep Hp _ Ht Hrec _].
  - destruct (no_dispatch_in_preparation _ _ Hl Hin eq_refl).
  - rewrite Ht in Hin.
    apply dispatch_in_shape in Hin;
      [| assumption | rewrite Hc; apply local_failure_report | reflexivity].
    apply (f_equal call_of) in Hin. cbn in Hin. injection Hin as ->.
    now exists function, args, outputs, w2, tprep.
  - rewrite Ht in Hin.
    apply dispatch_in_shape in Hin;
      [| assumption
       | subst trec; exact (local_Execute_reconcile outputs response h w3)
       | reflexivity].
    apply (f_equal call_of) in Hin. cbn in Hin. injection Hin as ->.
    now exists function, args, outputs, w2, tprep.
Qed.

(** X16.  The request sent to the backend reflects the command line: the
    function is the first positional argument, the logs are asked for
    exactly when the flag [-logs] is set, there is one encoded argument
    for each token after the function, standard input is attached only
    when the flag [-stdin] is set, and files only when the list of
    attachments is not empty. *)
Theorem Execute_request (c : InvokeCommand) (flag_Args : list string) (w : W)
  (a : InvokeArgs) :
  In (llama_Invoke a) (calls (trace (run (Execute json_Marshal c flag_Args) h w))) ->
  exists function args,
    flag_Args = function :: args
    /\ Function a = function
    /\ ReturnLogs a = logs c
    /\ length (Args (Spec a)) = length args
    /\ (stdin c = false -> Stdin (Spec a) = None)
    /\ (files (cmd_files c) = [] -> Files (Spec a) = None).
Proof.
  intros Hin.
  destruct (Execute_dispatch_prepared c flag_Args w a Hin)
    as (function & args & outputs & w2 & tprep & Hf
        & w0 & w1 & t0 & t1 & t2 & E0 & E1 & E2 & _ & Hfn & Hlogs).
  exists function, args. repeat split; try assumption.
  - unfold prepareArgs in E2.
    destruct (prepareArgs_loop_ok h json_Marshal _ _ _ _ _ _ _ _ _ E2) as (Hlen & _).
    now rewrite length_replicate in Hlen.
  - intros Hs. revert E0. unfold Execute_stdin. rewrite Hs, run_ret. congruence.
  - intros Hs. revert E1. unfold Execute_files. rewrite Hs.
    change (0 <? Z.of_nat (length (@nil inputFile))) with false. cbv iota.
    rewrite run_ret. congruence.
Qed.

(** X17.  No absolute path reaches the backend: when the destinations of
    the attachments of the command are relative, as [fileList.Set] leaves
    them, every key of the files of the request is a relative path. *)
Theorem Execute_request_relative_files (c : InvokeCommand) (flag_Args : list string)
  (w : W) (a : InvokeArgs) (m : gmap string File) (k : string) :
  relative_dests (files (cmd_files c)) ->
  In (llama_Invoke a) (calls (trace (run (Execute json_Marshal c flag_Args) h w))) ->
  Files (Spec a) = Some m ->
  is_Some (m !! k) ->
  path_IsAbs k = false.
Proof.
  intros Hrel Hin Hm Hk.
  destruct (Execute_dispatch_prepared c flag_Args w a Hin)
    as (function & args & outputs & w2 & tprep & _
        & w0 & w1 & t0 & t1 & t2 & _ & E1 & _).
  rewrite Hm in E1. revert E1. unfold Execute_files.
  destruct (0 <? _); [| rewrite run_ret; discriminate].
  rewrite run_bind. unfold fileList_Prepare.
  destruct (files (cmd_files c)) as [| file rest] eqn:Ef;
    [rewrite run_ret, run_ret; discriminate |].
  rewrite run_bind.
  destruct (run (Prepare_loop (file :: rest) ∅) h w0) as [[o wa] ta] eqn:E.
  destruct o as [[m' | err] | code | msg]; try discriminate.
  - rewrite !run_ret. cbn. intros [= -> _ _].
    destruct (Prepare_loop_ok h _ _ _ _ _ _ E) as [Hd _].
    apply elem_of_dom in Hk. rewrite Hd in Hk.
    rewrite dom_empty_L, (left_id_L ∅ (∪)) in Hk.
    apply elem_of_list_to_set, list_elem_of_fmap in Hk as (x & -> & Hx).
    unfold relative_dests in Hrel. rewrite List.Forall_forall in Hrel.
    apply Hrel. now apply list_elem_of_In.
  - rewrite run_ret. cbv beta iota.
    answer h (log_Println [Ferr err]) wa as u wb Eb. rewrite run_ret. discriminate.
Qed.

(** X18.  Without positional arguments [Execute] never reaches the
    backend, and how it ends is fixed by the preparation.  When the
    preparation of standard input returns a status, or that of the
    attachments does, the run is that preparation and [Execute] returns
    [ExitFailure].  Otherwise the run is the whole preparation of
    standard input and of the attachments, and then [Execute] panics on
    the slice expression of line 138. *)
Theorem Execute_without_arguments (c : InvokeCommand) (w : W) :
  let x := run (Execute json_Marshal c []) h w in
  Forall preparing (calls (trace x))
  /\ ((exists st w0 t0,
         run (Execute_stdin c) h w = (Returned (inr st), w0, t0)
         /\ x = (Returned ExitFailure, w0, t0))
      \/ (exists spec_Stdin w0 t0 st w1 t1,
            run (Execute_stdin c) h w = (Returned (inl spec_Stdin), w0, t0)
            /\ run (Execute_files c) h w0 = (Returned (inr st), w1, t1)
            /\ x = (Returned ExitFailure, w1, t0 ++ t1))
      \/ (exists spec_Stdin w0 t0 spec_Files w1 t1,
            run (Execute_stdin c) h w = (Returned (inl spec_Stdin), w0, t0)
            /\ run (Execute_files c) h w0 = (Returned (inl spec_Files), w1, t1)
            /\ x = (Panicked "runtime error: slice bounds out of range [1:0]",
                    w1, t0 ++ t1))).
Proof.
  cbv zeta. unfold Execute. rewrite run_bind.
  pose proof (preparing_Execute_stdin c h w) as P0.
  destruct (Execute_stdin_status c h w) as (s & O0 & S0).
  destruct (run (Execute_stdin c) h w) as [[o0 w0] t0].
  cbn [outcome trace fst snd] in P0, O0. subst o0.
  destruct s as [spec_Stdin | st].
  2: { pose proof (S0 st eq_refl) as ->. rewrite run_ret, app_nil_r.
       cbn [outcome trace fst snd]. split; [exact P0 |]. left.
       now exists ExitFailure, w0, t0. }
  rewrite run_bind.
  pose proof (preparing_Execute_files c h w0) as P1.
  destruct (Execute_files_status c h w0) as (f & O1 & S1).
  destruct (run (Execute_files c) h w0) as [[o1 w1] t1] eqn:E1.
  cbn [outcome trace fst snd] in P1, O1. subst o1.
  destruct f as [spec_Files | st].
  2: { pose proof (S1 st eq_refl) as ->. rewrite run_ret, app_nil_r.
       cbn [outcome trace fst snd]. split; [now apply Forall_calls_app |].
       right; left. now exists spec_Stdin, w0, t0, ExitFailure, w1, t1. }
  change (run (panic "runtime error: slice bounds out of range [1:0]") h w1)
    with (@Panicked ExitStatus "runtime error: slice bounds out of range [1:0]", w1,
          @nil (Event Call Resp)).
  cbv beta iota. rewrite app_nil_r. cbn [outcome trace fst snd].
  split; [now apply Forall_calls_app |]. right; right.
  now exists spec_Stdin, w0, t0, spec_Files, w1, t1.
Qed.

End Runs.

(** ** The theorems at sample worlds *)

Import Samples.

(** A world in which the backend fails and returns the logs of the
    invocation with its error; the rest is as in [invoke_world]. *)
Definition failing_backend : Handler Call Resp unit :=
  fun c w =>
    match c return Resp c * unit with
    | llama_Invoke _ =>
        (Err (ErrorReturn "function error" (Some (list_byte_of_string "trace"))), w)
    | ioutil_ReadAll_Stdin => invoke_world ioutil_ReadAll_Stdin w
    | ioutil_ReadFile filename => invoke_world (ioutil_ReadFile filename) w
    | os_Stat name => invoke_world (os_Stat name) w
    | protocol_NewBlob data => invoke_world (protocol_NewBlob data) w
    | Blob_Read b => invoke_world (Blob_Read b) w
    | ioutil_WriteFile filename data perm =>
        invoke_world (ioutil_WriteFile filename data perm) w
    | log_Printf format args => invoke_world (log_Printf format args) w
    | log_Println args => invoke_world (log_Println args) w
    | log_Print args => invoke_world (log_Print args) w
    | Stderr_Fprintf format arg => invoke_world (Stderr_Fprintf format arg) w
    | Stderr_Write b => invoke_world (Stderr_Write b) w
    | Stdout_Write b => invoke_world (Stdout_Write b) w
    end.

Definition in_file : inputFile := {| source := "in.txt"; dest := "data/in.txt" |}.
Definition missing_file : inputFile := {| source := "missing.txt"; dest := "m.txt" |}.

Definition command_in : InvokeCommand :=
  {| stdin := true; logs := true; cmd_files := {| files := [in_file] |} |}.

Definition file0 : File := {| File_Blob := blob0; File_Mode := 420%N |}.

Definition request_in : InvokeArgs :=
  {| Function := "fn";
     Spec := {| Stdin := Some blob0;
                Files := Some {[ "data/in.txt" := file0 ]};
                Args := [list_byte_of_string "plain"] |};
     ReturnLogs := true |}.

Lemma missing_unreadable : unreadable invoke_world "missing.txt".
Proof. intros []. eexists _, _. reflexivity. Qed.

Definition two_files : fileList :=
  {| files := [in_file; {| source := "in.txt"; dest := "copy/in.txt" |}] |}.

Lemma fileList_Prepare_keys_witness :
  let x := run (fileList_Prepare two_files) invoke_world tt in
  (exists us : list upload,
      length us = length (files two_files)
      /\ trace x = concat (zip_with upload_events (files two_files) us)
      /\ <[ "copy/in.txt" := file0 ]> (<[ "data/in.txt" := file0 ]> ∅)
         = foldl upload_entry ∅ (zip (files two_files) us))
  /\ dom (<[ "copy/in.txt" := file0 ]> (<[ "data/in.txt" := file0 ]>
                                          (∅ : gmap string File)))
     = (list_to_set (dest <$> files two_files) : gset string)
  /\ length (trace x) = (3 * length (files two_files))%nat.
Proof.
  apply (fileList_Prepare_keys invoke_world two_files tt tt).
  vm_compute. reflexivity.
Defined.

Lemma fileList_Prepare_stops_witness :
  run (fileList_Prepare {| files := [in_file] ++ missing_file :: [in_file] |})
    invoke_world tt
  = run (fileList_Prepare {| files := [in_file] ++ [missing_file] |}) invoke_world tt
  /\ exists err,
      outcome (run (fileList_Prepare
                      {| files := [in_file] ++ missing_file :: [in_file] |})
                 invoke_world tt)
      = Returned (Err err).
Proof.
  apply (fileList_Prepare_stops invoke_world [in_file] [in_file] missing_file tt).
  intros []. eexists _, _. reflexivity.
Defined.

Lemma parseArg_input_witness :
  run (parseArgSpec None "io@in.txt") invoke_world tt
  = (Returned
       (Some {[ "in.txt" := "in.txt" ]},
        Ok (ArgStruct {| ArgIn := Some blob0; ArgOut := Some "in.txt" |})),
     tt,
     [Ev (ioutil_ReadFile "in.txt") (Ok (list_byte_of_string "hello"));
      Ev (protocol_NewBlob (list_byte_of_string "hello")) (Ok blob0)]).
Proof.
  refine (parseArg_input invoke_world None "io" "in.txt" tt tt tt
            (list_byte_of_string "hello") blob0 _ _ _).
  - right. reflexivity.
  - reflexivity.
  - reflexivity.
Defined.

Lemma parseArg_error_keeps_outputs_witness :
  (Some {[ "a" := "a" ]} : OutputMap) = Some {[ "a" := "a" ]}.
Proof.
  apply (parseArg_error_keeps_outputs invoke_world marshal
           (Some {[ "a" := "a" ]}) (Some {[ "a" := "a" ]}) "io@missing.txt" tt
           (ErrorfW "Reading file: %q: %w" ["missing.txt"]
              (OpError "open" (Errno ENOENT)))).
  vm_compute. reflexivity.
Defined.

Lemma prepareArgs_in_order_witness :
  length [list_byte_of_string "plain"; list_byte_of_string "out.txt"]
  = length ["plain"; "o@out.txt"]
  /\ forall k arg,
      ["plain"; "o@out.txt"] !! k = Some arg ->
      exists outs_k w_k outs_k' word,
        outcome (run (parseArg marshal outs_k arg) invoke_world w_k)
        = Returned (outs_k', Ok word)
        /\ [list_byte_of_string "plain"; list_byte_of_string "out.txt"] !! k
           = Some word.
Proof.
  apply (prepareArgs_in_order invoke_world marshal ["plain"; "o@out.txt"] tt tt
           _ (Some {[ "out.txt" := "out.txt" ]}) []).
  vm_compute. reflexivity.
Defined.

Lemma prepareArgs_stops_witness :
  run (prepareArgs marshal (["plain"] ++ "i@missing.txt" :: ["i@in.txt"])) invoke_world tt
  = run (prepareArgs marshal (["plain"] ++ ["i@missing.txt"])) invoke_world tt.
Proof.
  apply (prepareArgs_stops invoke_world marshal ["plain"] ["i@in.txt"] "i@missing.txt" tt).
  apply (rejected_unreadable invoke_world "i" "missing.txt").
  - left. reflexivity.
  - intros []. eexists _, _. reflexivity.
Defined.

Lemma prepareArgs_plain_witness :
  run (prepareArgs marshal ["ls"; "-l"]) invoke_world tt
  = (Returned (Ok ([list_byte_of_string "ls"; list_byte_of_string "-l"], None)), tt, []).
Proof.
  apply (prepareArgs_plain invoke_world marshal ["ls"; "-l"]).
  - repeat constructor; apply strings_IndexByte_lacks; reflexivity.
  - repeat constructor.
Defined.

Lemma fetchOutputs_all_unexpected_witness :
  outcome (run (fetchOutputs None (Response response0)) invoke_world tt) = Returned tt
  /\ calls (trace (run (fetchOutputs None (Response response0)) invoke_world tt))
     = map (fun entry => log_Printf "Unexpected output: %q" [Fstr entry.1])
         (Outputs (Response response0)).
Proof.
  apply (fetchOutputs_all_unexpected invoke_world None (Response response0) tt).
  intros key blob _. reflexivity.
Defined.

Lemma Execute_remote_failure_witness :
  let x := run (Execute marshal command0 ["fn"; "plain"]) failing_backend tt in
  outcome x = Exited 1
  /\ exists tprep : list (Event Call Resp),
      Forall preparing (calls tprep)
      /\ calls (trace x)
         = calls tprep
           ++ llama_Invoke
                {| Function := "fn";
                   Spec := {| Stdin := None; Files := None;
                              Args := [list_byte_of_string "plain"] |};
                   ReturnLogs := false |}
              :: failure_report
                   (ErrorReturn "function error" (Some (list_byte_of_string "trace"))).
Proof.
  apply (Execute_remote_failure failing_backend marshal command0 ["fn"; "plain"] tt).
  vm_compute. left. reflexivity.
Defined.

Lemma Execute_reconciles_after_success_witness :
  exists a response,
    In (Ev (llama_Invoke a) (Ok response))
       (trace (run (Execute marshal command0 ["fn"; "o@out.txt"]) invoke_world tt)).
Proof.
  apply (Execute_reconciles_after_success invoke_world marshal command0
           ["fn"; "o@out.txt"] tt
           (ioutil_WriteFile "out.txt" (list_byte_of_string "hello") 420)).
  - reflexivity.
  - vm_compute. right. right. left. reflexivity.
Defined.

Lemma Execute_request_witness :
  exists function args,
    ["fn"; "plain"] = function :: args
    /\ Function request_in = function
    /\ ReturnLogs request_in = logs command_in
    /\ length (Args (Spec request_in)) = length args
    /\ (stdin command_in = false -> Stdin (Spec request_in) = None)
    /\ (files (cmd_files command_in) = [] -> Files (Spec request_in) = None).
Proof.
  apply (Execute_request invoke_world marshal command_in ["fn"; "plain"] tt request_in).
  vm_compute. do 5 right. left. reflexivity.
Defined.

(** No positional argument: standard input and the attachment are
    prepared, then [Execute] panics. *)
Example Execute_no_function :
  let x := run (Execute marshal command_in []) invoke_world tt in
  outcome x = Panicked "runtime error: slice bounds out of range [1:0]"
  /\ calls (trace x) =
     [ioutil_ReadAll_Stdin; protocol_NewBlob [];
      ioutil_ReadFile "in.txt"; os_Stat "in.txt";
      protocol_NewBlob (list_byte_of_string "hello")].
Proof. split; reflexivity. Qed.

Lemma Execute_request_relative_files_witness : path_IsAbs "data/in.txt" = false.
Proof.
  apply (Execute_request_relative_files invoke_world marshal command_in
           ["fn"; "plain"] tt request_in {[ "data/in.txt" := file0 ]} "data/in.txt").
  - repeat constructor.
  - vm_compute. do 5 right. left. reflexivity.
  - reflexivity.
  - vm_compute. now eexists.
Defined.

End InvokeMore.

(** * Further properties of daemon/server.go *)

Module DaemonMore.
Import Go Effects GoFacts EffectsFacts Daemon DaemonSpec.

(** ** The fallback endpoint *)

Lemma format_d_inj a b : format_d a = format_d b -> a = b.
Proof.
  assert (forall z, Z.to_int z <> Decimal.Pos Decimal.Nil
                    /\ Z.to_int z <> Decimal.Neg Decimal.Nil) as Hnil.
  { intros z. split; intros H; pose proof (DecimalZ.of_to z) as Hz;
      rewrite H in Hz; cbn in Hz; subst z; discriminate H. }
  unfold format_d. intros H.
  apply (f_equal NilZero.int_of_string) in H.
  rewrite !NilZero.isi in H by apply Hnil.
  injection H as H. apply (f_equal Z.of_int) in H.
  now rewrite !DecimalZ.of_to in H.
Qed.

Lemma append_length a b : String.length (a +:+ b) = (String.length a + String.length b)%nat.
Proof. induction a as [| c a IH]; simpl; [reflexivity | f_equal; exact IH]. Qed.

Lemma append_inj_r a b s : a +:+ s = b +:+ s -> a = b.
Proof.
  intros H.
  assert (String.length a = String.length b) as Hlen.
  { apply (f_equal String.length) in H. rewrite !append_length in H. lia. }
  revert b H Hlen. induction a as [| c a IH]; intros [| d b] H Hlen; try discriminate.
  - reflexivity.
  - cbn in H, Hlen. injection H as -> H. f_equal. apply IH; [exact H | lia].
Qed.

(** X19.  The fallback endpoint is scoped by the user: when neither
    [LLAMA_SOCKET] nor [HOME] is set, two processes get the same endpoint
    only if they have the same user id. *)
Theorem SocketPath_fallback_per_user (path_Join : list string -> string)
  (env1 env2 : Environ) :
  unset env1 "LLAMA_SOCKET" -> unset env1 "HOME" ->
  unset env2 "LLAMA_SOCKET" -> unset env2 "HOME" ->
  SocketPath path_Join env1 = SocketPath path_Join env2 ->
  uid env1 = uid env2.
Proof.
  intros Hs1 Hh1 Hs2 Hh2. unfold SocketPath.
  rewrite (os_Getenv_unset _ _ Hs1), (os_Getenv_unset _ _ Hh1).
  rewrite (os_Getenv_unset _ _ Hs2), (os_Getenv_unset _ _ Hh2).
  cbn [String.eqb negb]. unfold os_Getuid. intros H.
  cbn [String.append] in H. injection H as H.
  change ("" +:+ format_d (uid env1) +:+ "/llama.sock")
    with (format_d (uid env1) +:+ "/llama.sock") in H.
  change ("" +:+ format_d (uid env2) +:+ "/llama.sock")
    with (format_d (uid env2) +:+ "/llama.sock") in H.
  apply append_inj_r in H. now apply format_d_inj.
Qed.

(** ** The runs of [Start] *)

Section Runs.
Context {W : Type}.
Variable h : Handler Call Resp W.
Variable path_Join : list string -> string.
Variable path_Dir : string -> string.
Variable env : Environ.

Let sock : string := SocketPath path_Join env.
Let dir : string := path_Dir sock.

Let mkdir : Call := os_MkdirAll dir perm_0700.
Let listen : Call := net_Listen "unix" sock.
Let dial : Call := rpc_DialHTTP "unix" sock.
Let remove : Call := os_Remove sock.

(** The events of serving on [listener] until the context is cancelled. *)
Definition serving (listener : Listener) : list (Event Call Resp) :=
  [Ev rpcSrv_Register tt; Ev (go_Serve listener) tt; Ev ctx_Done tt;
   Ev httpSrv_Shutdown tt].

(** The eight ways a run of [Start] goes, each with the error returned, or
    [None], and the calls made with their answers. *)
Inductive Start_run (x : Outcome (option error) * W * list (Event Call Resp)) : Prop :=
| run_mkdir_failed e :
    outcome x = Returned (Some e) ->
    trace x = [Ev mkdir (Some e)] ->
    Start_run x
| run_bound listener :
    outcome x = Returned None ->
    trace x = [Ev mkdir None; Ev listen (Ok listener)] ++ serving listener ->
    Start_run x
| run_bind_failed e :
    errors_Is e EADDRINUSE = false ->
    outcome x = Returned (Some e) ->
    trace x = [Ev mkdir None; Ev listen (Err e)] ->
    Start_run x
| run_already_running e c :
    errors_Is e EADDRINUSE = true ->
    outcome x = Returned (Some ErrAlreadyRunning) ->
    trace x = [Ev mkdir None; Ev listen (Err e); Ev dial (Ok c);
               Ev (Client_Ping {| conn := c |}) None] ->
    Start_run x
| run_ping_failed e c pe :
    errors_Is e EADDRINUSE = true ->
    outcome x = Returned (Some pe) ->
    trace x = [Ev mkdir None; Ev listen (Err e); Ev dial (Ok c);
               Ev (Client_Ping {| conn := c |}) (Some pe)] ->
    Start_run x
| run_remove_failed e de re :
    errors_Is e EADDRINUSE = true ->
    outcome x = Returned (Some re) ->
    trace x = [Ev mkdir None; Ev listen (Err e); Ev dial (Err de);
               Ev remove (Some re)] ->
    Start_run x
| run_rebind_failed e de le :
    errors_Is e EADDRINUSE = true ->
    outcome x = Returned (Some le) ->
    trace x = [Ev mkdir None; Ev listen (Err e); Ev dial (Err de);
               Ev remove None; Ev listen (Err le)] ->
    Start_run x
| run_recovered e de listener :
    errors_Is e EADDRINUSE = true ->
    outcome x = Returned None ->
    trace x = [Ev mkdir None; Ev listen (Err e); Ev dial (Err de);
               Ev remove None; Ev listen (Ok listener)] ++ serving listener ->
    Start_run x.

Lemma run_serving listener w :
  exists w',
    run (call rpcSrv_Register;; call (go_Serve listener);; call ctx_Done;;
         call httpSrv_Shutdown;; mret None : M Call Resp W (option error)) h w
    = (Returned None, w', serving listener).
Proof.
  assert (forall u : unit, u = tt) as Hu by (now intros []).
  rewrite (run_unit h rpcSrv_Register tt _ _ Hu).
  rewrite (run_unit h (go_Serve listener) tt _ _ Hu).
  rewrite (run_unit h ctx_Done tt _ _ Hu).
  rewrite (run_unit h httpSrv_Shutdown tt _ _ Hu).
  rewrite run_ret. now eexists.
Qed.

Lemma Start_runs w : Start_run (run (Start path_Join path_Dir env) h w).
Proof.
  unfold Start. fold sock. fold dir. fold mkdir.
  answer h mkdir w as e w1 E0. destruct e as [e |]; cbv beta iota.
  { rewrite run_ret. now apply (run_mkdir_failed _ e). }
  rewrite run_bind. unfold Start_bind. fold listen.
  answer h listen w1 as l w2 E1. destruct l as [listener | e]; cbv beta iota.
  { rewrite run_ret. cbv beta iota.
    destruct (run_serving listener w2) as [w' ->]. now apply (run_bound _ listener). }
  destruct (errors_Is e EADDRINUSE) eqn:Hin.
  2: { rewrite run_ret. cbv beta iota. rewrite run_ret.
       now apply (run_bind_failed _ e). }
  rewrite run_bind. unfold Dial. fold sock. fold dial.
  answer h dial w2 as d w3 E2. destruct d as [c | de]; cbv beta iota; rewrite run_ret;
    cbv beta iota.
  - answer h (Client_Ping {| conn := c |}) w3 as p w4 E3.
    destruct p as [pe |]; cbv beta iota; rewrite run_ret; cbv beta iota; rewrite run_ret.
    + now apply (run_ping_failed _ e c pe).
    + now apply (run_already_running _ e c).
  - fold remove. answer h remove w3 as r w4 E3.
    destruct r as [re |]; cbv beta iota.
    + rewrite run_ret. cbv beta iota. rewrite run_ret.
      now apply (run_remove_failed _ e de re).
    + answer h listen w4 as l2 w5 E4. rewrite run_ret. cbv beta iota.
      destruct l2 as [listener | le].
      * destruct (run_serving listener w5) as [w' ->].
        now apply (run_recovered _ e de listener).
      * rewrite run_ret. now apply (run_rebind_failed _ e de le).
Qed.

(** The error an event carries, if its call failed. *)
Definition failed (ev : Event Call Resp) : option error :=
  match ev with
  | Ev c r =>
      match c return Resp c -> option error with
      | os_MkdirAll _ _ => fun r => r
      | net_Listen _ _ => fun r => match r with Err e => Some e | Ok _ => None end
      | rpc_DialHTTP _ _ => fun r => match r with Err e => Some e | Ok _ => None end
      | Client_Ping _ => fun r => r
      | os_Remove _ => fun r => r
      | _ => fun _ => None
      end r
  end.

(** The calls that serve: from the registration of the service to the
    shutdown. *)
Definition is_serving (c : Call) : bool :=
  match c with
  | rpcSrv_Register => true
  | go_Serve _ => true
  | ctx_Done => true
  | httpSrv_Shutdown => true
  | _ => false
  end.

(** A call that names a path names the endpoint, or its parent directory
    for [os.MkdirAll]. *)
Definition on_endpoint (c : Call) : Prop :=
  match c with
  | os_MkdirAll path perm => path = dir /\ perm = perm_0700
  | net_Listen network address => network = "unix" /\ address = sock
  | rpc_DialHTTP network address => network = "unix" /\ address = sock
  | os_Remove name => name = sock
  | _ => True
  end.

(** [events H] splits a membership [H] in a list that is written out into
    its cases, and derives from each what the two events have in common:
    the call, and the error carried. *)
Ltac events H :=
  cbn [In app serving] in H;
  repeat match type of H with
         | _ \/ _ => destruct H as [H | H]
         end;
  try contradiction;
  try (let Hc := fresh "Hc" in
       let Hf := fresh "Hf" in
       pose proof (f_equal call_of H) as Hc;
       pose proof (f_equal failed H) as Hf;
       cbn in Hc, Hf; try discriminate Hc; try discriminate Hf).

(** X20.  [Start] removes the endpoint file only when it is stale: a call
    of [os.Remove] in a run of [Start] names the endpoint, and in that run
    the bind has failed with the error [EADDRINUSE] and the connection to
    the endpoint has failed too. *)
Theorem Start_removes_only_stale (w : W) (name : string) :
  let x := run (Start path_Join path_Dir env) h w in
  In (os_Remove name) (calls (trace x)) ->
  name = sock
  /\ exists e de,
      errors_Is e EADDRINUSE = true
      /\ In (Ev (net_Listen "unix" sock) (Err e)) (trace x)
      /\ In (Ev (rpc_DialHTTP "unix" sock) (Err de)) (trace x).
Proof.
  cbv zeta. intros Hin.
  destruct (Start_runs w) as [e _ Ht | l _ Ht | e _ _ Ht | e c _ _ Ht | e c pe _ _ Ht
                              | e de re He _ Ht | e de le He _ Ht | e de l He _ Ht];
    rewrite Ht in *; unfold mkdir, listen, dial, remove in *;
    cbn [calls map call_of app serving] in Hin; cbn [In] in Hin;
    repeat match type of Hin with
           | _ \/ _ => destruct Hin as [Hin | Hin]
           end;
    try contradiction; try discriminate Hin;
    injection Hin as <-; (split; [reflexivity |]); exists e, de;
    (split; [exact He |]); cbn [In app]; tauto.
Qed.

(** X21.  [Start] spares a daemon that is there: in a run in which the
    connection to the endpoint succeeded, nothing is removed, the bind is
    not made again, nothing is served, and [Start] returns an error. *)
Theorem Start_spares_listener (w : W) (network address : string) (c : rpc_Client) :
  let x := run (Start path_Join path_Dir env) h w in
  In (Ev (rpc_DialHTTP network address) (Ok c)) (trace x) ->
  (forall name, ~ In (os_Remove name) (calls (trace x)))
  /\ binds (trace x) = 1%nat
  /\ Forall (fun c' => is_serving c' = false) (calls (trace x))
  /\ exists e, outcome x = Returned (Some e).
Proof.
  cbv zeta. intros Hin.
  destruct (Start_runs w) as [e Ho Ht | l Ho Ht | e _ Ho Ht | e c' _ Ho Ht
                              | e c' pe _ Ho Ht | e de re He Ho Ht
                              | e de le He Ho Ht | e de l He Ho Ht];
    rewrite Ht in *; unfold mkdir, listen, dial, remove in *; events Hin.
  - repeat split.
    + intros name Hr. cbn in Hr. intuition discriminate.
    + repeat constructor.
    + rewrite Ho. now eexists.
  - repeat split.
    + intros name Hr. cbn in Hr. intuition discriminate.
    + repeat constructor.
    + rewrite Ho. now eexists.
Qed.

(** X22.  A run of [Start] in which every call is answered, the wait
    for the cancellation of the context included, ends with a return and
    never with an exit of the process.  It returns no error only when it
    has served: the run then ends with a successful bind, the
    registration of the service, the start of the server on the listener
    of that bind, the wait for the cancellation and the shutdown, in that
    order.  When it returns an error, it has served nothing. *)
Theorem Start_serves_or_fails (w : W) :
  let x := run (Start path_Join path_Dir env) h w in
  (exists o, outcome x = Returned o)
  /\ (outcome x = Returned None ->
      exists listener tpre,
        trace x = tpre ++ [Ev (net_Listen "unix" sock) (Ok listener)]
                       ++ serving listener)
  /\ (forall e, outcome x = Returned (Some e) ->
      Forall (fun c => is_serving c = false) (calls (trace x))).
Proof.
  cbv zeta.
  destruct (Start_runs w) as [e Ho Ht | l Ho Ht | e _ Ho Ht | e c' _ Ho Ht
                              | e c' pe _ Ho Ht | e de re He Ho Ht
                              | e de le He Ho Ht | e de l He Ho Ht];
    rewrite Ho, Ht; unfold mkdir, listen, dial, remove;
    (split; [now eexists |]);
    (split; [try discriminate
            | intros e0 He0; try discriminate He0; repeat constructor]).
  - intros _. exists l, [Ev (os_MkdirAll dir perm_0700) None]. reflexivity.
  - intros _. exists l.
    exists [Ev (os_MkdirAll dir perm_0700) None; Ev (net_Listen "unix" sock) (Err e);
            Ev (rpc_DialHTTP "unix" sock) (Err de); Ev (os_Remove sock) None].
    reflexivity.
Qed.

(** X23.  [Start] touches the endpoint only: its first call creates the
    parent directory of the endpoint with the mode 0700, every bind,
    connection and removal names the endpoint, and the bind is made at
    most twice. *)
Theorem Start_on_endpoint (w : W) :
  let x := run (Start path_Join path_Dir env) h w in
  (exists rest, calls (trace x) = os_MkdirAll dir perm_0700 :: rest)
  /\ Forall on_endpoint (calls (trace x))
  /\ (binds (trace x) <= 2)%nat.
Proof.
  cbv zeta.
  destruct (Start_runs w) as [e Ho Ht | l Ho Ht | e _ Ho Ht | e c' _ Ho Ht
                              | e c' pe _ Ho Ht | e de re He Ho Ht
                              | e de le He Ho Ht | e de l He Ho Ht];
    rewrite Ht; unfold mkdir, listen, dial, remove;
    (split; [now eexists |]); (split; [repeat constructor | cbn; lia]).
Qed.

(** X24.  A bind that fails for another reason than an address in use
    ends [Start]: the error is returned as it is, and the bind is the last
    call, so that nothing is probed and nothing is removed after it. *)
Theorem Start_bind_error_is_final (w : W) (network address : string) (e : error) :
  let x := run (Start path_Join path_Dir env) h w in
  In (Ev (net_Listen network address) (Err e)) (trace x) ->
  errors_Is e EADDRINUSE = false ->
  outcome x = Returned (Some e)
  /\ exists tpre, trace x = tpre ++ [Ev (net_Listen "unix" sock) (Err e)].
Proof.
  cbv zeta. intros Hin Hother.
  destruct (Start_runs w) as [e' Ho Ht | l Ho Ht | e' He Ho Ht | e' c' He Ho Ht
                              | e' c' pe He Ho Ht | e' de re He Ho Ht
                              | e' de le He Ho Ht | e' de l He Ho Ht];
    rewrite Ho, Ht in *; unfold mkdir, listen, dial, remove in *; events Hin;
    try (injection Hf as ->; congruence).
  - injection Hf as ->. split; [reflexivity |].
    now exists [Ev (os_MkdirAll dir perm_0700) None].
  - injection Hf as ->. split; [reflexivity |].
    now exists [Ev (os_MkdirAll dir perm_0700) None; Ev (net_Listen "unix" sock) (Err e');
                Ev (rpc_DialHTTP "unix" sock) (Err de); Ev (os_Remove sock) None].
Qed.

End Runs.

(** ** The theorems at sample worlds *)

Import Samples.

(** A world in which the endpoint cannot be bound for lack of
    permission. *)
Definition denied_world : Handler Call Resp unit :=
  fun c w =>
    match c return Resp c * unit with
    | os_MkdirAll _ _ => (None, w)
    | net_Listen _ _ => (Err (OpError "listen" (Errno EACCES)), w)
    | rpc_DialHTTP _ _ => (Err (OpError "dial" (Errno ECONNREFUSED)), w)
    | Client_Ping _ => (None, w)
    | os_Remove _ => (None, w)
    | rpcSrv_Register => (tt, w)
    | go_Serve _ => (tt, w)
    | ctx_Done => (tt, w)
    | httpSrv_Shutdown => (tt, w)
    end.

Definition environ_empty_home : Environ :=
  {| environ := {[ "HOME" := "" ]}; uid := 1000 |}.

Definition stale : Socket := {| sock_file := true; peer := Nobody |}.
Definition live : Socket := {| sock_file := true; peer := Healthy |}.

Lemma SocketPath_fallback_per_user_witness :
  uid environ_bare = uid environ_empty_home.
Proof.
  apply (SocketPath_fallback_per_user join_clean environ_bare environ_empty_home).
  - left. reflexivity.
  - left. reflexivity.
  - left. reflexivity.
  - right. reflexivity.
  - reflexivity.
Defined.

Lemma Start_removes_only_stale_witness :
  let x := run (Start join_clean dir_clean environ0) socket_world stale in
  "/tmp/llama/llama.sock" = SocketPath join_clean environ0
  /\ exists e de,
      errors_Is e EADDRINUSE = true
      /\ In (Ev (net_Listen "unix" (SocketPath join_clean environ0)) (Err e)) (trace x)
      /\ In (Ev (rpc_DialHTTP "unix" (SocketPath join_clean environ0)) (Err de)) (trace x).
Proof.
  apply (Start_removes_only_stale socket_world join_clean dir_clean environ0 stale
           "/tmp/llama/llama.sock").
  vm_compute. do 3 right. left. reflexivity.
Defined.

Lemma Start_spares_listener_witness :
  let x := run (Start join_clean dir_clean environ0) socket_world live in
  (forall name, ~ In (os_Remove name) (calls (trace x)))
  /\ binds (trace x) = 1%nat
  /\ Forall (fun c' => is_serving c' = false) (calls (trace x))
  /\ exists e, outcome x = Returned (Some e).
Proof.
  apply (Start_spares_listener socket_world join_clean dir_clean environ0 live
           "unix" "/tmp/llama/llama.sock" 7%nat).
  vm_compute. do 2 right. left. reflexivity.
Defined.

Lemma Start_serves_or_fails_witness :
  let x := run (Start join_clean dir_clean environ0) socket_world stale in
  exists listener tpre,
    trace x = tpre ++ [Ev (net_Listen "unix" (SocketPath join_clean environ0)) (Ok listener)]
                   ++ serving listener.
Proof.
  apply (proj1 (proj2 (Start_serves_or_fails socket_world join_clean dir_clean
                         environ0 stale))).
  reflexivity.
Defined.

Lemma Start_bind_error_is_final_witness :
  let x := run (Start join_clean dir_clean environ0) denied_world tt in
  outcome x = Returned (Some (OpError "listen" (Errno EACCES)))
  /\ exists tpre,
      trace x = tpre ++ [Ev (net_Listen "unix" (SocketPath join_clean environ0))
                            (Err (OpError "listen" (Errno EACCES)))].
Proof.
  apply (Start_bind_error_is_final denied_world join_clean dir_clean environ0 tt
           "unix" "/tmp/llama/llama.sock" (OpError "listen" (Errno EACCES))).
  - vm_compute. right. left. reflexivity.
  - reflexivity.
Defined.

End DaemonMore.
